(** * DGT worker send path of ps-lite ([include/ps/kv_app.h])

    A shallow embedding of [KVWorker<float>]: the key-range slicer, the
    contribution scorer, the rate controller, the channel classifier, the
    fragmenting send path, the callback registry and the pull reassembler,
    followed by the properties proved about them.

    Conventions of the embedding.
    - [size_t] counters and array positions are [nat]; [int] quantities that
      take part in arithmetic are [Z].  Sizes are taken to fit their C types.
    - [Key] is an unsigned 64-bit integer, embedded in [Z]; the one place
      where the code computes with a key, [back() + 1] in the pull callback,
      wraps as [key_succ] writes out, and the explicit cast [(int)key] is
      written out as [to_int32].
    - [float] is the type [float] of module [F32]: exact rationals extended
      with NaN and the two infinities, with the IEEE rules for the special
      values, and one zero.  The operations are exact; the rounding of a
      result to the 24 bits of the format is [F32.rnd], which is applied
      where the code turns a product into an integer (the minimum index of
      the classifier).  Properties that hold only as long as the exact and
      the rounded results agree carry the bounds under which they do.
    - A failing [CHECK], a trapping integer division, a read through a null
      stream and an invalid iterator range end the process; such a run
      yields [None].
    - The worker is run by one thread at a time; the mutex [mu_] does not
      appear.  Output on [std::cout] is left out. *)

From Stdlib Require Import ZArith QArith Qabs Qround Lia Lqa List Permutation Sorted.
From stdpp Require Import base option list gmap sorting.
Import ListNotations.

Local Open Scope Z_scope.

(** ** Floating point numbers *)

Module F32.

Inductive float : Type :=
| NaN : float
| Inf (neg : bool) : float
| Fin (q : Q) : float.

Definition zero : float := Fin 0.
Definition one : float := Fin 1.

Definition of_int (z : Z) : float := Fin (inject_Z z).

Definition Qneg (q : Q) : bool :=
  match Qcompare q 0 with Lt => true | _ => false end.

Definition Qzero (q : Q) : bool :=
  match Qcompare q 0 with Eq => true | _ => false end.

Definition opp (a : float) : float :=
  match a with
  | NaN => NaN
  | Inf s => Inf (negb s)
  | Fin q => Fin (- q)
  end.

Definition add (a b : float) : float :=
  match a, b with
  | NaN, _ | _, NaN => NaN
  | Inf s, Inf t => if Bool.eqb s t then Inf s else NaN
  | Inf s, Fin _ => Inf s
  | Fin _, Inf t => Inf t
  | Fin x, Fin y => Fin (x + y)
  end.

Definition sub (a b : float) : float := add a (opp b).

Definition mul (a b : float) : float :=
  match a, b with
  | NaN, _ | _, NaN => NaN
  | Inf s, Inf t => Inf (xorb s t)
  | Inf s, Fin y => if Qzero y then NaN else Inf (xorb s (Qneg y))
  | Fin x, Inf t => if Qzero x then NaN else Inf (xorb (Qneg x) t)
  | Fin x, Fin y => Fin (x * y)
  end.

Definition div (a b : float) : float :=
  match a, b with
  | NaN, _ | _, NaN => NaN
  | Inf _, Inf _ => NaN
  | Inf s, Fin y => Inf (xorb s (Qneg y))
  | Fin _, Inf _ => Fin 0
  | Fin x, Fin y =>
      if Qzero y then (if Qzero x then NaN else Inf (Qneg x))
      else Fin (x / y)
  end.

Definition abs (a : float) : float :=
  match a with
  | NaN => NaN
  | Inf _ => Inf false
  | Fin q => Fin (Qabs q)
  end.

(** [compare a b] is [None] when the operands are unordered. *)
Definition compare (a b : float) : option comparison :=
  match a, b with
  | NaN, _ | _, NaN => None
  | Inf s, Inf t =>
      Some (match s, t with
            | true, false => Lt
            | false, true => Gt
            | _, _ => Eq
            end)
  | Inf s, Fin _ => Some (if s then Lt else Gt)
  | Fin _, Inf t => Some (if t then Gt else Lt)
  | Fin x, Fin y => Some (Qcompare x y)
  end.

Definition ltb (a b : float) : bool :=
  match compare a b with Some Lt => true | _ => false end.
Definition gtb (a b : float) : bool :=
  match compare a b with Some Gt => true | _ => false end.
Definition geb (a b : float) : bool :=
  match compare a b with Some Gt | Some Eq => true | _ => false end.
Definition eqb (a b : float) : bool :=
  match compare a b with Some Eq => true | _ => false end.
Definition neqb (a b : float) : bool := negb (eqb a b).

(** [std::round]: to the nearest integer, halfway cases away from zero. *)
Definition Qround_away (q : Q) : Z :=
  if Qneg q then - Qfloor (- q + (1 # 2)) else Qfloor (q + (1 # 2)).

Definition round (a : float) : float :=
  match a with
  | Fin q => Fin (inject_Z (Qround_away q))
  | _ => a
  end.

(** Conversion to [int]: truncation; a value that does not fit an [int],
    like the special values, gives the "integer indefinite" value of the
    x86 conversion. *)
Definition to_int (a : float) : Z :=
  match a with
  | Fin q =>
      let z := Z.quot (Qnum q) (Zpos (Qden q)) in
      if (- 2 ^ 31 <=? z) && (z <? 2 ^ 31) then z else - 2 ^ 31
  | _ => - 2 ^ 31
  end.

(** [2 ^ e] for an integer exponent. *)
Definition pow2 (e : Z) : Q :=
  if 0 <=? e then inject_Z (2 ^ e) else (/ inject_Z (2 ^ (- e)))%Q.

(** [floor (log2 q)] for [0 < q]. *)
Definition Qlog2 (q : Q) : Z :=
  let e := Z.log2 (Qnum q) - Z.log2 (Zpos (Qden q)) in
  if Qle_bool (pow2 e) q then e else e - 1.

(** To the nearest integer, halfway cases to the even one; for [0 <= q]. *)
Definition Qround_even (q : Q) : Z :=
  let f := Qfloor q in
  match Qcompare (q - inject_Z f)%Q (1 # 2) with
  | Lt => f
  | Gt => f + 1
  | Eq => if Z.even f then f else f + 1
  end.

(** The value of the format nearest to [q], halfway cases to the even
    significand: 24 significant bits, binary exponents from [-126] to
    [127], gradual underflow, and overflow to an infinity. *)
Definition single (q : Q) : float :=
  if Qzero q then Fin 0
  else
    let e := Z.max (Qlog2 (Qabs q)) (- 126) in
    let u := pow2 (e - 23) in
    let r := (inject_Z (Qround_even (Qabs q / u)) * u)%Q in
    if Qle_bool (pow2 128) r then Inf (Qneg q)
    else Fin (Qred (if Qneg q then (- r)%Q else r)).

(** A result as the format holds it. *)
Definition rnd (a : float) : float :=
  match a with
  | Fin q => single q
  | _ => a
  end.

Definition is_finite (a : float) : Prop :=
  match a with Fin _ => True | _ => False end.

(** Order on finite values, for statements. *)
Definition le (a b : float) : Prop :=
  match a, b with
  | Fin x, Fin y => (x <= y)%Q
  | _, _ => False
  end.

(** [std::max]-like choice as the code writes it: [a] when [a > b],
    else [b]. *)
Definition max (a b : float) : float := if gtb a b then a else b.

End F32.

Export F32(float, NaN, Inf, Fin).

(** ** Keys, ranges and arrays *)

(** Modelled from the spec: [Key] is declared in [ps/base.h], which is not
    part of the sources; it is an "unsigned integer identifying a parameter
    partition", of eight bytes. *)
Definition Key := Z.

Definition Key_max : Key := 2 ^ 64 - 1.

(** [key + 1] in the arithmetic of [Key]: the largest key wraps to [0]. *)
Definition key_succ (k : Key) : Key := if k =? Key_max then 0 else k + 1.

Definition to_int32 (z : Z) : Z := (z + 2 ^ 31) mod 2 ^ 32 - 2 ^ 31.

Record Range : Type := mkRange { r_begin : Key; r_end : Key }.

(** The structure for a list of key-value pairs. *)
Record KVPairs (Val : Type) : Type := mkKV {
  keys : list Key;
  vals : list Val;
  lens : list Z;
  priority : Z
}.
Arguments mkKV {Val}.
Arguments keys {Val}.
Arguments vals {Val}.
Arguments lens {Val}.
Arguments priority {Val}.

Definition empty_kv {Val : Type} : KVPairs Val := mkKV [] [] [] 0.

(** Modelled from the spec: [SArray::segment] ([ps/sarray.h]) is not part of
    the sources; "local precondition failures (e.g., mismatched shard sizes)
    are fatal", so the slice [begin..end) is checked against the array. *)
Definition segment {A : Type} (a : list A) (b e : Z) : option (list A) :=
  if (0 <=? b) && (b <=? e) && (e <=? Z.of_nat (length a))
  then Some (take (Z.to_nat (e - b)) (drop (Z.to_nat b) a))
  else None.

(** [std::lower_bound] on the pointer range [first, first+len) of [a]:
    the halving loop of the standard library, with the position returned as
    an offset into [a]. *)
Fixpoint lower_bound_loop (fuel : nat) (a : list Key) (first len : nat)
    (v : Key) : nat :=
  match fuel with
  | O => first
  | S fuel' =>
      if (len =? 0)%nat then first
      else
        let half := (len / 2)%nat in
        let middle := (first + half)%nat in
        if nth middle a 0 <? v
        then lower_bound_loop fuel' a (middle + 1) (len - half - 1) v
        else lower_bound_loop fuel' a first half v
  end.

Definition lower_bound (a : list Key) (first last : nat) (v : Key) : nat :=
  lower_bound_loop (last - first) a first (last - first) v.

(** ** The key-range slicer *)

Section Slicer.

Context {Val : Type}.

Definition SlicedKVs : Type := list (bool * KVPairs Val).

Definition CHECK (b : bool) : option unit := if b then Some tt else None.

(** First loop of [DefaultSlicer], from index [i >= 1] on: [prev] is
    [ranges[i-1]], [begin] the offset of the moving pointer and [p] is
    [pos[i]].  The result lists [pos[i+1..n]]. *)
Fixpoint find_pos (ks : list Key) (prev : Range) (rs : list Range)
    (begin p : nat) : option (list nat) :=
  match rs with
  | [] => Some []
  | r :: rs' =>
      _ ← CHECK (r_end prev =? r_begin r);
      let len := (lower_bound ks begin (length ks) (r_end r) - begin)%nat in
      rest ← find_pos ks r rs' (begin + len) (p + len);
      Some ((p + len)%nat :: rest)
  end.

(** The whole vector [pos[0..n]]. *)
Definition positions (ks : list Key) (rs : list Range) : option (list nat) :=
  match rs with
  | [] => Some [0%nat]
  | r :: rs' =>
      let p0 := (lower_bound ks 0 (length ks) (r_begin r) - 0)%nat in
      let begin := (0 + p0)%nat in
      let len := (lower_bound ks begin (length ks) (r_end r) - begin)%nat in
      rest ← find_pos ks r rs' (begin + len) (p0 + len);
      Some (p0 :: (p0 + len)%nat :: rest)
  end.

Definition sum_lens (l : list Z) : Z := foldl Z.add 0 l.

(** Second loop of [DefaultSlicer]: [p] is [pos[i]], [ps] is
    [pos[i+1..n]]. *)
Fixpoint slice_loop (send : KVPairs Val) (k : nat) (p : nat) (ps : list nat)
    (val_begin val_end : Z) : option SlicedKVs :=
  match ps with
  | [] => Some []
  | q :: ps' =>
      if (q =? p)%nat then
        rest ← slice_loop send k q ps' val_begin val_end;
        Some ((false, empty_kv) :: rest)
      else
        kv_keys ← segment (keys send) (Z.of_nat p) (Z.of_nat q);
        if negb (length (lens send) =? 0)%nat then
          kv_lens ← segment (lens send) (Z.of_nat p) (Z.of_nat q);
          let val_end := foldl Z.add val_end kv_lens in
          kv_vals ← segment (vals send) val_begin val_end;
          rest ← slice_loop send k q ps' val_end val_end;
          Some ((true, mkKV kv_keys kv_vals kv_lens 0) :: rest)
        else
          kv_vals ← segment (vals send) (Z.of_nat (p * k)) (Z.of_nat (q * k));
          rest ← slice_loop send k q ps' val_begin val_end;
          Some ((true, mkKV kv_keys kv_vals [] 0) :: rest)
  end.

Definition DefaultSlicer (send : KVPairs Val) (ranges : list Range)
    : option SlicedKVs :=
  pos ← positions (keys send) ranges;
  pn ← last pos;
  _ ← CHECK (pn =? length (keys send))%nat;
  if (length (keys send) =? 0)%nat
  then Some (map (fun _ => (false, empty_kv)) ranges)
  else
    k ← (if (length (lens send) =? 0)%nat then
           let k := (length (vals send) / length (keys send))%nat in
           _ ← CHECK (k * length (keys send) =? length (vals send))%nat;
           Some k
         else
           _ ← CHECK (length (keys send) =? length (lens send))%nat;
           Some 0%nat);
    match pos with
    | [] => None
    | p0 :: ps => slice_loop send k p0 ps 0 0
    end.

End Slicer.

(** ** Messages *)

(** Payload chunks of a message, [Message::data].  A chunk keeps the type
    it was added with; its [size()] is the byte count. *)
Inductive Chunk : Type :=
| DKeys (ks : list Key)
| DVals (vs : list float)
| DLens (ls : list Z).

Definition sizeof_Key : Z := 8.
Definition sizeof_float : Z := 4.
Definition sizeof_int : Z := 4.

Definition chunk_size (c : Chunk) : Z :=
  match c with
  | DKeys ks => sizeof_Key * Z.of_nat (length ks)
  | DVals vs => sizeof_float * Z.of_nat (length vs)
  | DLens ls => sizeof_int * Z.of_nat (length ls)
  end.

Definition chunk_keys (c : Chunk) : list Key :=
  match c with DKeys ks => ks | _ => [] end.
Definition chunk_floats (c : Chunk) : list float :=
  match c with DVals vs => vs | _ => [] end.
Definition chunk_ints (c : Chunk) : list Z :=
  match c with DLens ls => ls | _ => [] end.

Module Meta.

(** The fields of [msg.meta] that the worker reads or writes. *)
Record t : Type := mk {
  app_id : Z;
  customer_id : Z;
  timestamp : Z;
  recver : Z;
  request : bool;
  push : bool;
  pull : bool;
  simple_app : bool;
  head : Z;
  msg_type : Z;
  first_key : Z;
  seq : Z;
  seq_begin : Z;
  seq_end : Z;
  val_bytes : Z;
  total_bytes : Z;
  push_op_num : Z;
  channel : Z;
  keys_len : Z;
  vals_len : Z;
  lens_len : Z
}.

Definition set_channel (c : Z) (m : t) : t :=
  mk (app_id m) (customer_id m) (timestamp m) (recver m) (request m)
     (push m) (pull m) (simple_app m) (head m) (msg_type m) (first_key m)
     (seq m) (seq_begin m) (seq_end m) (val_bytes m) (total_bytes m)
     (push_op_num m) c (keys_len m) (vals_len m) (lens_len m).

Definition set_lens (kl vl ll : Z) (m : t) : t :=
  mk (app_id m) (customer_id m) (timestamp m) (recver m) (request m)
     (push m) (pull m) (simple_app m) (head m) (msg_type m) (first_key m)
     (seq m) (seq_begin m) (seq_end m) (val_bytes m) (total_bytes m)
     (push_op_num m) (channel m) kl vl ll.

End Meta.

Module Message.

Record t : Type := mk {
  meta : Meta.t;
  data : list Chunk;
  contri : float
}.

Definition set_channel (c : Z) (m : t) : t :=
  mk (Meta.set_channel c (meta m)) (data m) (contri m).

Definition set_contri (c : float) (m : t) : t :=
  mk (meta m) (data m) c.

(** [msg.data.clear()] *)
Definition clear_data (m : t) : t := mk (meta m) [] (contri m).

End Message.

(** What the worker hands to the van. *)
Inductive Wire : Type :=
| VanSend (m : Message.t)
| VanSendOn (m : Message.t) (channel tag : Z)
| VanClassifier (m : Message.t) (channel tag : Z).

Definition wire_msg (x : Wire) : Message.t :=
  match x with
  | VanSend m | VanSendOn m _ _ | VanClassifier m _ _ => m
  end.

(** The channel a message leaves on; the plain [Send(msg)] is the
    reliable lane. *)
Definition wire_channel (x : Wire) : Z :=
  match x with
  | VanSend _ => 0
  | VanSendOn _ c _ | VanClassifier _ c _ => c
  end.

(** ** Sorting *)

(** [std::sort] with comparison [lt], as an insertion sort.  The standard
    leaves the order of elements that compare equivalent open, and says
    nothing of the result when [lt] is no strict weak ordering, as with a
    NaN among the contributions; the order taken here is one of those the
    library may leave, and the properties about the order of the result
    speak of what every sort gives. *)
Fixpoint insert_by {A : Type} (lt : A -> A -> bool) (x : A) (l : list A) : list A :=
  match l with
  | [] => [x]
  | y :: l' => if lt y x then y :: insert_by lt x l' else x :: y :: l'
  end.

Fixpoint sort_by {A : Type} (lt : A -> A -> bool) (l : list A) : list A :=
  match l with
  | [] => []
  | x :: l' => insert_by lt x (sort_by lt l')
  end.

(** [std::shuffle]: the engine decides a rank for every position, and the
    elements are put in the order of their ranks. *)
Definition shuffle_by {A : Type} (rank : nat -> Z) (l : list A) : list A :=
  map snd (sort_by (fun a b => fst a <? fst b) (imap (fun i x => (rank i, x)) l)).

(** ** The worker *)

(** A completion callback: a user callback (identified by a tag), or the
    closure installed by [AddPullCB], which captures the timestamp, the
    requested keys, the caller's buffers and the user callback. *)
Inductive Callback : Type :=
| UserCb (id : Z)
| PullCb (ts : Z) (ks : list Key) (vals_buf : list float)
    (lens_buf : option (list Z)) (cb : option Z).

Inductive Event : Type :=
| EvCallback (ts : Z)   (* [RunCallback] invoked the entry of [ts] *)
| EvUser (id : Z).      (* the user callback [id] ran *)

(** Values read by the constructor through [dmlc::GetEnv]. *)
Record Config : Type := mkConfig {
  contri_alpha : float;
  set_random : Z;
  dgt_info : Z;
  enable_block : Z;
  enable_dgt : Z;
  clear_zero : Z
}.

(** The members of the rate controller. *)
Record Rate : Type := mkRate {
  fp : option unit;
  pre_loss : float;
  delta_l : float;
  first_loss : float;
  rt_loss : float;
  dmlc_k : float;
  dmlc_k_init : float;
  dmlc_k_min : float;
  adaptive_k_flag : Z;
  udp_channel_num : Z
}.

(** The members of the contribution scorer. *)
Record Scores : Type := mkScores {
  contri : gmap Z (gmap Z float);
  contri_max : gmap Z float;
  pre_contri_max : gmap Z float
}.

(** What the worker acts on outside itself: the van, the customer's
    response tracker, the loss file, the caller's pull buffers, and the
    record of callbacks that ran. *)
Record World : Type := mkWorld {
  outbox : list Wire;
  tracker : gmap Z Z;
  next_ts : Z;
  loss_line : option float;
  pulled : gmap Z (list float * option (list Z));
  log : list Event
}.

Record Worker : Type := mkWorker {
  cfg : Config;
  block_size : Z;
  rate : Rate;
  push_op_num : Z;
  scores : Scores;
  msg_vector : list Message.t;
  recv_kvs_ : gmap Z (list (KVPairs float));
  callbacks_ : gmap Z Callback;
  world : World
}.

Definition set_block_size (v : Z) (w : Worker) : Worker :=
  mkWorker (cfg w) v (rate w) (push_op_num w) (scores w) (msg_vector w)
    (recv_kvs_ w) (callbacks_ w) (world w).
Definition set_rate (v : Rate) (w : Worker) : Worker :=
  mkWorker (cfg w) (block_size w) v (push_op_num w) (scores w) (msg_vector w)
    (recv_kvs_ w) (callbacks_ w) (world w).
Definition set_push_op_num (v : Z) (w : Worker) : Worker :=
  mkWorker (cfg w) (block_size w) (rate w) v (scores w) (msg_vector w)
    (recv_kvs_ w) (callbacks_ w) (world w).
Definition set_scores (v : Scores) (w : Worker) : Worker :=
  mkWorker (cfg w) (block_size w) (rate w) (push_op_num w) v (msg_vector w)
    (recv_kvs_ w) (callbacks_ w) (world w).
Definition set_msg_vector (v : list Message.t) (w : Worker) : Worker :=
  mkWorker (cfg w) (block_size w) (rate w) (push_op_num w) (scores w) v
    (recv_kvs_ w) (callbacks_ w) (world w).
Definition set_recv_kvs_ (v : gmap Z (list (KVPairs float))) (w : Worker) : Worker :=
  mkWorker (cfg w) (block_size w) (rate w) (push_op_num w) (scores w)
    (msg_vector w) v (callbacks_ w) (world w).
Definition set_callbacks_ (v : gmap Z Callback) (w : Worker) : Worker :=
  mkWorker (cfg w) (block_size w) (rate w) (push_op_num w) (scores w)
    (msg_vector w) (recv_kvs_ w) v (world w).
Definition set_world (v : World) (w : Worker) : Worker :=
  mkWorker (cfg w) (block_size w) (rate w) (push_op_num w) (scores w)
    (msg_vector w) (recv_kvs_ w) (callbacks_ w) v.

Definition set_outbox (v : list Wire) (x : World) : World :=
  mkWorld v (tracker x) (next_ts x) (loss_line x) (pulled x) (log x).
Definition set_tracker (v : gmap Z Z) (x : World) : World :=
  mkWorld (outbox x) v (next_ts x) (loss_line x) (pulled x) (log x).
Definition set_next_ts (v : Z) (x : World) : World :=
  mkWorld (outbox x) (tracker x) v (loss_line x) (pulled x) (log x).
Definition set_loss_line (v : option float) (x : World) : World :=
  mkWorld (outbox x) (tracker x) (next_ts x) v (pulled x) (log x).
Definition set_pulled (v : gmap Z (list float * option (list Z))) (x : World) : World :=
  mkWorld (outbox x) (tracker x) (next_ts x) (loss_line x) v (log x).
Definition set_log (v : list Event) (x : World) : World :=
  mkWorld (outbox x) (tracker x) (next_ts x) (loss_line x) (pulled x) v.

(** The process environment: identity of the customer, topology of the
    post office, the environment variables of [init_dgt], and the
    behaviour of the C library that the worker consults. *)
Record Env : Type := mkEnv {
  env_app_id : Z;
  env_customer_id : Z;
  GetServerKeyRanges : list Range;
  ServerRankToID : nat -> Z;
  num_servers : Z;
  meta0 : Meta.t;                 (* a default-constructed [Meta] *)
  DMLC_K : option float;
  DMLC_K_MIN : option float;
  ADAPTIVE_K_FLAG : option Z;
  DMLC_UDP_CHANNEL_NUM : option Z;
  fopen_ok : bool;                (* whether [fopen] of the loss file succeeds *)
  rand : Z;                       (* the value of [rand()] after [srand(time(NULL))] *)
  shuffle_rank : nat -> Z;        (* the draw of the default random engine *)
  (* the ends of the ranges are values of [Key] *)
  ranges_in_Key :
    forallb (fun r => r_end r <=? Key_max) GetServerKeyRanges = true
}.

(** The state the constructor leaves. *)
Definition KVWorker (c : Config) (bs : Z) : Worker :=
  mkWorker c bs
    (mkRate None F32.zero F32.zero F32.zero F32.zero
       F32.one F32.one F32.zero 0 0)
    0 (mkScores ∅ ∅ ∅) [] ∅ ∅
    (mkWorld [] ∅ 0 None ∅ []).

(** Defaults of the constructor's [GetEnv] calls; [contri_alpha] is the
    [float] nearest to [0.3]. *)
Definition default_config : Config :=
  mkConfig (Fin (5033165 # 16777216)) 0 0 0 0 0.

Section KVWorkerMethods.

Variable env : Env.

(** *** Rate controller *)

(** [fopen(path, "w+")]: the stream is null when the file cannot be
    opened; an opened file is truncated. *)
Definition Open_loss_file (w : Worker) : Worker :=
  if fopen_ok env then
    let r := rate w in
    set_world (set_loss_line None (world w))
      (set_rate (mkRate (Some tt) (pre_loss r) (delta_l r) (first_loss r)
                   (rt_loss r) (dmlc_k r) (dmlc_k_init r) (dmlc_k_min r)
                   (adaptive_k_flag r) (udp_channel_num r)) w)
  else
    let r := rate w in
    set_rate (mkRate None (pre_loss r) (delta_l r) (first_loss r)
                (rt_loss r) (dmlc_k r) (dmlc_k_init r) (dmlc_k_min r)
                (adaptive_k_flag r) (udp_channel_num r)) w.

(** [fgets] on a null stream ends the process.  Without a line in the
    file, [cur_loss] keeps its initial value [0.0]. *)
Definition Update_loss_delta (w : Worker) : option Worker :=
  let r := rate w in
  _ ← fp r;
  let cur_loss :=
    match loss_line (world w) with
    | Some x => x
    | None => F32.zero
    end in
  let delta_l' :=
    if F32.neqb (pre_loss r) F32.zero
    then F32.sub (pre_loss r) cur_loss
    else F32.one in
  let first_loss' :=
    if F32.eqb (first_loss r) F32.zero then cur_loss else first_loss r in
  Some (set_rate (mkRate (fp r) cur_loss delta_l' first_loss' cur_loss
                    (dmlc_k r) (dmlc_k_init r) (dmlc_k_min r)
                    (adaptive_k_flag r) (udp_channel_num r)) w).

Definition adaptive_k (w : Worker) : float :=
  let r := rate w in
  if F32.gtb (F32.mul (dmlc_k_init r) (F32.div (rt_loss r) (first_loss r)))
             (dmlc_k_min r)
  then F32.mul (dmlc_k_init r) (F32.div (rt_loss r) (first_loss r))
  else dmlc_k_min r.

Definition set_dmlc_k (k : float) (w : Worker) : Worker :=
  let r := rate w in
  set_rate (mkRate (fp r) (pre_loss r) (delta_l r) (first_loss r) (rt_loss r)
              k (dmlc_k_init r) (dmlc_k_min r)
              (adaptive_k_flag r) (udp_channel_num r)) w.

(** [CHECK_NOTNULL] on each environment variable. *)
Definition init_dgt (w : Worker) : option Worker :=
  let w := Open_loss_file w in
  let r := rate w in
  k ← DMLC_K env;
  kmin ← DMLC_K_MIN env;
  flag ← ADAPTIVE_K_FLAG env;
  c ← DMLC_UDP_CHANNEL_NUM env;
  Some (set_rate (mkRate (fp r) (pre_loss r) (delta_l r) (first_loss r)
                    (rt_loss r) (dmlc_k r) k kmin flag c) w).

(** The step boundary inside [Send], taken when the shard's first key is
    [0]: count the push operation, then refresh the rate, or initialise
    DGT on the very first one. *)
Definition Send_step_boundary (w : Worker) : option Worker :=
  let w := set_push_op_num (push_op_num w + 1) w in
  if 1 <? push_op_num w then
    w ← Update_loss_delta w;
    if negb (adaptive_k_flag (rate w) =? 0)
    then Some (set_dmlc_k (adaptive_k w) w)
    else Some (set_dmlc_k (dmlc_k_init (rate w)) w)
  else init_dgt w.

(** *** Contribution scorer *)

Definition Update_contri_max (key seq seq_end : Z) (c : float) (s : Scores)
    : Scores :=
  let cm := contri_max s in
  let pm := pre_contri_max s in
  let cm := if bool_decide (cm !! key = None) || (seq =? 0)
            then <[key := F32.zero]> cm else cm in
  let pm := if bool_decide (pm !! key = None)
            then <[key := F32.zero]> pm else pm in
  let cm := if F32.gtb c (default F32.zero (cm !! key))
            then <[key := c]> cm else cm in
  let pm := if seq =? seq_end
            then <[key := default F32.zero (cm !! key)]> pm else pm in
  mkScores (contri s) cm pm.

(** [contri[key][seq] = v] *)
Definition contri_store (key seq : Z) (v : float)
    (m : gmap Z (gmap Z float)) : gmap Z (gmap Z float) :=
  <[key := <[seq := v]> (default ∅ (m !! key))]> m.

(** [contri[key][seq]] read on an entry that exists. *)
Definition contri_at (key seq : Z) (m : gmap Z (gmap Z float)) : float :=
  default F32.zero (default ∅ (m !! key) !! seq).

(** The [float]s of [msg.data[1]] and their count [nlen].  Only a chunk of
    values has a reading as [float]s here; the send path never scores
    another one. *)
Definition msg_weights (msg : Message.t) : list float :=
  match Message.data msg !! 1%nat with
  | Some c => chunk_floats c
  | None => []
  end.

Definition msg_nlen (msg : Message.t) : Z :=
  match Message.data msg !! 1%nat with
  | Some c => Z.quot (chunk_size c) sizeof_float
  | None => 0
  end.

Definition sum_abs (ws : list float) : float :=
  foldl (fun N x => F32.add N (F32.abs x)) F32.zero ws.

Definition Evaluate_msg_contri (key : Z) (msg : Message.t) (w : Worker)
    : float * Worker :=
  let seq := Meta.seq (Message.meta msg) in
  let nlen := msg_nlen msg in
  let N := sum_abs (take (Z.to_nat nlen) (msg_weights msg)) in
  let s := scores w in
  let m := contri s in
  let m := if bool_decide (m !! key = None)
           then contri_store key seq F32.zero m else m in
  let m := if bool_decide (default ∅ (m !! key) !! seq = None)
           then contri_store key seq F32.zero m else m in
  let alpha := contri_alpha (cfg w) in
  let v := F32.add (F32.mul alpha (contri_at key seq m))
             (F32.mul (F32.sub (F32.of_int 1) alpha)
                (F32.div N (F32.of_int nlen))) in
  let m := contri_store key seq v m in
  let s := mkScores m (contri_max s) (pre_contri_max s) in
  let s := Update_contri_max key seq (Meta.seq_end (Message.meta msg))
             (contri_at key seq m) s in
  (contri_at key seq (contri s), set_scores s w).

(** *** Channel classifier *)

(** The [for] loop of [Get_channel] from index [i] on, with [n]
    iterations left; [None] when the loop ends without returning. *)
Fixpoint Get_channel_loop (n : nat) (i index min_index max_index C : Z)
    : option Z :=
  match n with
  | O => None
  | S n' =>
      if 0 <? max_index - min_index then
        if F32.geb (F32.of_int index)
             (F32.add (F32.of_int min_index)
                (F32.div (F32.mul (F32.of_int i)
                            (F32.of_int (max_index - min_index)))
                   (F32.of_int C)))
           && F32.ltb (F32.of_int index)
                (F32.add (F32.of_int min_index)
                   (F32.div (F32.mul (F32.of_int (i + 1))
                               (F32.of_int (max_index - min_index)))
                      (F32.of_int C)))
        then Some (i + 1)
        else Get_channel_loop n' (i + 1) index min_index max_index C
      else Some (i + 1)
  end.

(** [int min_index = std::round(k*(max_index+1))]: the product is a
    [float], rounded to the format, and the conversion to [int] gives the
    indefinite value when the rounded product does not fit. *)
Definition min_index (max_index : Z) (k : float) : Z :=
  F32.to_int
    (F32.round
       (F32.rnd (F32.mul k (F32.rnd (F32.of_int (max_index + 1)))))).

(** [rand() % C] traps when [C] is zero.  The differences of indices are
    taken to fit an [int]. *)
Definition Get_channel (index max_index C : Z) (k : float) : option Z :=
  let min_index := min_index max_index k in
  if index <? min_index then Some 0
  else
    match Get_channel_loop (Z.to_nat C) 0 index min_index max_index C with
    | Some c => Some c
    | None => if C =? 0 then None else Some (Z.rem (rand env) C + 1)
    end.

(** *** Callback registry *)

Definition AddCallback (timestamp : Z) (cb : option Callback) (w : Worker)
    : Worker :=
  match cb with
  | None => w
  | Some c => set_callbacks_ (<[timestamp := c]> (callbacks_ w)) w
  end.

Definition log_event (e : Event) (w : Worker) : Worker :=
  set_world (set_log (log (world w) ++ [e]) (world w)) w.

(** Modelled from the spec: [FindRange] ([ps/sarray.h]) is not part of the
    sources; it gives "a computed sub-range of [requested.keys]", the
    index range of the entries within [lower, upper). *)
Definition FindRange (arr : list Key) (lower upper : Key) : nat * nat :=
  if upper <=? lower then (0%nat, 0%nat)
  else (lower_bound arr 0 (length arr) lower,
        lower_bound arr 0 (length arr) upper).

(** The checking loop of the pull callback, accumulating [total_key] and
    [total_val].  [front()] of an empty array is not defined, and
    [back() + 1] is computed in the arithmetic of [Key]. *)
Fixpoint pull_check (ks : list Key) (has_lens : bool)
    (kvs : list (KVPairs float)) (total_key total_val : nat)
    : option (nat * nat) :=
  match kvs with
  | [] => Some (total_key, total_val)
  | s :: kvs' =>
      front ← head (keys s);
      back ← last (keys s);
      let range := FindRange ks front (key_succ back) in
      _ ← CHECK (Z.of_nat (snd range) - Z.of_nat (fst range)
                 =? Z.of_nat (length (keys s)));
      _ ← (if has_lens
           then CHECK (length (lens s) =? length (keys s))%nat
           else Some tt);
      pull_check ks has_lens kvs'
        (total_key + length (keys s)) (total_val + length (vals s))
  end.

(** [memcpy(dst + off, src, |src|)] *)
Definition memcpy {A : Type} (dst : list A) (off : nat) (src : list A)
    : list A :=
  take off dst ++ src ++ drop (off + length src) dst.

(** The copying loop of the pull callback; [p_vals] and [p_lens] are
    the offsets of the two moving pointers. *)
Fixpoint pull_fill (kvs : list (KVPairs float))
    (vals_buf : list float) (p_vals : nat)
    (lens_buf : option (list Z)) (p_lens : nat)
    : list float * option (list Z) :=
  match kvs with
  | [] => (vals_buf, lens_buf)
  | s :: kvs' =>
      let vals_buf := memcpy vals_buf p_vals (vals s) in
      let p_vals := (p_vals + length (vals s))%nat in
      match lens_buf with
      | Some lb =>
          pull_fill kvs' vals_buf p_vals
            (Some (memcpy lb p_lens (lens s))) (p_lens + length (lens s))
      | None => pull_fill kvs' vals_buf p_vals None p_lens
      end
  end.

Definition front_lt (a b : KVPairs float) : bool :=
  hd 0 (keys a) <? hd 0 (keys b).

(** The closure installed by [AddPullCB]. *)
Definition pull_callback (ts : Z) (ks : list Key) (vals_buf : list float)
    (lens_buf : option (list Z)) (cb : option Z) (w : Worker)
    : option Worker :=
  let kvs := default [] (recv_kvs_ w !! ts) in
  let w := set_recv_kvs_ (<[ts := kvs]> (recv_kvs_ w)) w in
  '(total_key, total_val) ← pull_check ks (bool_decide (is_Some lens_buf))
                               kvs 0 0;
  _ ← CHECK (total_key =? length ks)%nat;
  let kvs := sort_by front_lt kvs in
  let w := set_recv_kvs_ (<[ts := kvs]> (recv_kvs_ w)) w in
  vals_buf ← (if (length vals_buf =? 0)%nat
              then Some (replicate total_val F32.zero)
              else _ ← CHECK (length vals_buf =? total_val)%nat;
                   Some vals_buf);
  lens_buf ← match lens_buf with
             | None => Some None
             | Some lb =>
                 if (length lb =? 0)%nat
                 then Some (Some (replicate (length ks) 0))
                 else _ ← CHECK (length lb =? length ks)%nat;
                      Some (Some lb)
             end;
  let out := pull_fill kvs vals_buf 0 lens_buf 0 in
  let w := set_world (set_pulled (<[ts := out]> (pulled (world w))) (world w)) w in
  let w := set_recv_kvs_ (delete ts (recv_kvs_ w)) w in
  match cb with
  | Some id => Some (log_event (EvUser id) w)
  | None => Some w
  end.

(** Calling the stored [std::function]. *)
Definition call (c : Callback) (w : Worker) : option Worker :=
  match c with
  | UserCb id => Some (log_event (EvUser id) w)
  | PullCb ts ks vals_buf lens_buf cb =>
      pull_callback ts ks vals_buf lens_buf cb w
  end.

Definition RunCallback (timestamp : Z) (w : Worker) : option Worker :=
  match callbacks_ w !! timestamp with
  | Some c =>
      w ← call c (log_event (EvCallback timestamp) w);
      Some (set_callbacks_ (delete timestamp (callbacks_ w)) w)
  | None => Some w
  end.

(** Modelled from the spec: the [Customer] ([ps/internal/customer.h]) is
    not part of the sources; "responses are counted by the tracker", per
    timestamp, and a request gets a fresh timestamp. *)
Definition NumResponse (timestamp : Z) (w : Worker) : Z :=
  default 0 (tracker (world w) !! timestamp).

Definition AddResponse (timestamp : Z) (num : Z) (w : Worker) : Worker :=
  set_world
    (set_tracker (<[timestamp := NumResponse timestamp w + num]>
                    (tracker (world w))) (world w)) w.

Definition NewRequest (w : Worker) : Z * Worker :=
  let ts := next_ts (world w) in
  (ts, set_world (set_next_ts (ts + 1)
                    (set_tracker (<[ts := 0]> (tracker (world w))) (world w))) w).

Definition van_send (x : Wire) (w : Worker) : Worker :=
  set_world (set_outbox (outbox (world w) ++ [x]) (world w)) w.

End KVWorkerMethods.

Section KVWorkerSend.

Variable env : Env.

(** The repeated block
    [if (kvs.keys.size()) { AddData(keys); ... AddData(vals); ...
       if (kvs.lens.size()) { AddData(lens); ... } }]. *)
Definition AddData_kv (ks : list Key) (vs : list float) (ls : list Z)
    (m : Message.t) : Message.t :=
  if (length ks =? 0)%nat then m
  else
    let mt := Message.meta m in
    if (length ls =? 0)%nat then
      Message.mk
        (Meta.set_lens (chunk_size (DKeys ks)) (chunk_size (DVals vs))
           (Meta.lens_len mt) mt)
        (Message.data m ++ [DKeys ks; DVals vs]) (Message.contri m)
    else
      Message.mk
        (Meta.set_lens (chunk_size (DKeys ks)) (chunk_size (DVals vs))
           (chunk_size (DLens ls)) mt)
        (Message.data m ++ [DKeys ks; DVals vs; DLens ls]) (Message.contri m).

(** The message of the first push ([msg_type = 1]). *)
Definition first_push_msg (timestamp : Z) (push pull : bool) (cmd : Z)
    (i : nat) (kvs : KVPairs float) (key0 : Key) (w : Worker) : Message.t :=
  let d := meta0 env in
  AddData_kv (keys kvs) (vals kvs) (lens kvs)
    (Message.mk
       (Meta.mk (env_app_id env) (env_customer_id env) timestamp
          (ServerRankToID env i) true push pull (Meta.simple_app d) cmd
          1 (to_int32 key0) 0 0 0 0 (Z.of_nat (length (vals kvs)))
          (push_op_num w) (Meta.channel d)
          (Meta.keys_len d) (Meta.vals_len d) (Meta.lens_len d))
       [] F32.zero).

(** A block of the block-wise push ([msg_type = 2]). *)
Definition block_msg (timestamp : Z) (push pull : bool) (cmd : Z)
    (i : nat) (kvs : KVPairs float) (key0 : Key)
    (total_bytes val_bytes seq seq_num : Z) (tmp_val : list float)
    (w : Worker) : Message.t :=
  let d := meta0 env in
  AddData_kv (keys kvs) tmp_val (lens kvs)
    (Message.mk
       (Meta.mk (env_app_id env) (env_customer_id env) timestamp
          (ServerRankToID env i) true push pull (Meta.simple_app d) cmd
          2 (to_int32 key0) seq 0 (seq_num - 1) val_bytes total_bytes
          (push_op_num w) (Meta.channel d)
          (Meta.keys_len d) (Meta.vals_len d) (Meta.lens_len d))
       [] F32.zero).

(** The pull request ([msg_type = 3]). *)
Definition pull_msg (timestamp : Z) (push pull : bool) (cmd : Z)
    (i : nat) (kvs : KVPairs float) (key0 : Key) : Message.t :=
  let d := meta0 env in
  AddData_kv (keys kvs) (vals kvs) (lens kvs)
    (Message.mk
       (Meta.mk (env_app_id env) (env_customer_id env) timestamp
          (ServerRankToID env i) true push pull (Meta.simple_app d) cmd
          3 (to_int32 key0) 0 0 0 0 (Z.of_nat (length (vals kvs)))
          (Meta.push_op_num d) (Meta.channel d)
          (Meta.keys_len d) (Meta.vals_len d) (Meta.lens_len d))
       [] F32.zero).

(** The [while (remain_bytes != 0)] loop of the block-wise push.  Every
    turn that does not end the process takes at least one byte, so
    [fuel = total_bytes] turns are never used up. *)
Fixpoint block_loop (fuel : nat) (timestamp : Z) (push pull : bool)
    (cmd : Z) (i : nat) (kvs : KVPairs float) (key0 : Key)
    (total_bytes seq_num : Z) (remain_bytes val_bytes seq : Z)
    (w : Worker) : option Worker :=
  if remain_bytes =? 0 then Some w
  else
    match fuel with
    | O => None
    | S fuel' =>
        let l := Z.min remain_bytes (block_size w) in
        tmp_val ← segment (vals kvs) val_bytes (val_bytes + l);
        let msg := block_msg timestamp push pull cmd i kvs key0
                     total_bytes val_bytes seq seq_num tmp_val w in
        let '(c, w) := Evaluate_msg_contri (to_int32 key0) msg w in
        let msg := Message.set_contri c msg in
        let w :=
          if negb (clear_zero (cfg w) =? 0) then
            if F32.neqb (Message.contri msg) F32.zero
               || (Meta.seq (Message.meta msg)
                   =? Meta.seq_end (Message.meta msg))
            then set_msg_vector (msg_vector w ++ [msg]) w
            else w
          else set_msg_vector (msg_vector w ++ [msg]) w in
        block_loop fuel' timestamp push pull cmd i kvs key0
          total_bytes seq_num (remain_bytes - l) (val_bytes + l) (seq + 1) w
    end.

Definition contri_gt (msg1 msg2 : Message.t) : bool :=
  F32.gtb (Message.contri msg1) (Message.contri msg2).

(** [std::shuffle] or [std::sort] on [begin() .. end()-1): an empty
    vector has no such range. *)
Definition rank_blocks (w : Worker) : option (list Message.t) :=
  let v := msg_vector w in
  if (length v =? 0)%nat then None
  else
    let n := (length v - 1)%nat in
    if negb (set_random (cfg w) =? 0)
    then Some (shuffle_by (shuffle_rank env) (take n v) ++ drop n v)
    else Some (sort_by contri_gt (take n v) ++ drop n v).

(** The dispatch loop over [msg_vector], from index [j] on. *)
Fixpoint dispatch_loop (j : Z) (size : Z) (ms : list Message.t)
    (w : Worker) : option Worker :=
  match ms with
  | [] => Some w
  | m :: ms' =>
      c ← Get_channel env j (size - 1) (udp_channel_num (rate w))
            (dmlc_k (rate w));
      let m := Message.set_channel c m in
      let m := if Meta.seq (Message.meta m) =? Meta.seq_end (Message.meta m)
               then Message.set_channel 0 m else m in
      let w :=
        if negb (enable_dgt (cfg w) =? 0)
        then van_send (VanClassifier m (Meta.channel (Message.meta m)) 0) w
        else van_send (VanSendOn m 0 0) w in
      dispatch_loop (j + 1) size ms' w
  end.

(** The block-wise push of one shard.  The remainder by a zero
    [block_size] traps, and the vector [count(udp_channel_num+1, 0)]
    cannot be built with a negative size. *)
Definition block_push (timestamp : Z) (push pull : bool) (cmd : Z)
    (i : nat) (kvs : KVPairs float) (key0 : Key) (w : Worker)
    : option Worker :=
  let total_bytes := Z.of_nat (length (vals kvs)) in
  let w := if enable_block (cfg w) =? 0
           then set_block_size total_bytes w else w in
  _ ← CHECK (negb (block_size w =? 0));
  let seq_num :=
    if Z.rem total_bytes (block_size w) =? 0
    then Z.quot total_bytes (block_size w)
    else Z.quot total_bytes (block_size w) + 1 in
  _ ← CHECK (0 <=? udp_channel_num (rate w) + 1);
  w ← block_loop (Z.to_nat total_bytes) timestamp push pull cmd i kvs key0
        total_bytes seq_num total_bytes 0 0 w;
  ranked ← rank_blocks w;
  let w := set_msg_vector ranked w in
  w ← dispatch_loop 0 (Z.of_nat (length ranked)) ranked w;
  Some (set_msg_vector [] w).

(** One turn of the loop of [Send] over the shards, for a shard that is
    sent. *)
Definition Send_shard (timestamp : Z) (push pull : bool) (cmd : Z)
    (i : nat) (kvs : KVPairs float) (w : Worker) : option Worker :=
  key0 ← head (keys kvs);
  if push then
    w ← (if key0 =? 0 then Send_step_boundary env w else Some w);
    if push_op_num w =? 1 then
      Some (van_send
              (VanSend (first_push_msg timestamp push pull cmd i kvs key0 w))
              w)
    else block_push timestamp push pull cmd i kvs key0 w
  else
    Some (van_send (VanSend (pull_msg timestamp push pull cmd i kvs key0)) w).

Fixpoint Send_loop (timestamp : Z) (push pull : bool) (cmd : Z) (i : nat)
    (sliced : list (bool * KVPairs float)) (w : Worker) : option Worker :=
  match sliced with
  | [] => Some w
  | s :: sliced' =>
      if negb (fst s) then Send_loop timestamp push pull cmd (S i) sliced' w
      else
        w ← Send_shard timestamp push pull cmd i (snd s) w;
        Send_loop timestamp push pull cmd (S i) sliced' w
  end.

Definition count_skipped (sliced : list (bool * KVPairs float)) : nat :=
  length (filter (fun s => fst s = false) sliced).

Definition Send (timestamp : Z) (push pull : bool) (cmd : Z)
    (kvs : KVPairs float) (w : Worker) : option Worker :=
  sliced ← DefaultSlicer kvs (GetServerKeyRanges env);
  let skipped := count_skipped sliced in
  let w := AddResponse timestamp (Z.of_nat skipped) w in
  w ← (if (skipped =? length sliced)%nat
       then RunCallback timestamp w else Some w);
  Send_loop timestamp push pull cmd 0 sliced w.

(** [KVWorker::Process], the receive handle.  A message of the simple
    application goes to [SimpleApp::Process], outside this class. *)
Definition Process (msg : Message.t) (w : Worker) : option Worker :=
  let mt := Message.meta msg in
  if Meta.simple_app mt then Some w
  else
    let ts := Meta.timestamp mt in
    w ← (if Meta.pull mt then
           _ ← CHECK (2 <=? length (Message.data msg))%nat;
           d0 ← Message.data msg !! 0%nat;
           d1 ← Message.data msg !! 1%nat;
           let ls := match Message.data msg !! 2%nat with
                     | Some d2 => chunk_ints d2
                     | None => []
                     end in
           let kvs := mkKV (chunk_keys d0) (chunk_floats d1) ls 0 in
           Some (set_recv_kvs_
                   (<[ts := default [] (recv_kvs_ w !! ts) ++ [kvs]]>
                      (recv_kvs_ w)) w)
         else Some w);
    if NumResponse ts w =? num_servers env - 1
    then RunCallback ts w
    else Some w.

(** Modelled from the spec: the receiving thread of the [Customer] is not
    part of the sources; it hands the message to the receive handle and
    then counts the response of its timestamp. *)
Definition Receiving (msg : Message.t) (w : Worker) : option Worker :=
  w ← Process msg w;
  Some (AddResponse (Meta.timestamp (Message.meta msg)) 1 w).

Definition AddPullCB (ks : list Key) (vals_buf : list float)
    (lens_buf : option (list Z)) (cb : option Z) (w : Worker) : Z * Worker :=
  let '(ts, w) := NewRequest w in
  (ts, AddCallback ts (Some (PullCb ts ks vals_buf lens_buf cb)) w).

Definition ZPush (ks : list Key) (vs : list float) (ls : list Z) (cmd : Z)
    (cb : option Z) (prio : Z) (w : Worker) : option (Z * Worker) :=
  let '(ts, w) := NewRequest w in
  let w := AddCallback ts (UserCb <$> cb) w in
  w ← Send ts true false cmd (mkKV ks vs ls prio) w;
  Some (ts, w).

Definition ZPull (ks : list Key) (vals_buf : list float)
    (lens_buf : option (list Z)) (cmd : Z) (cb : option Z) (prio : Z)
    (w : Worker) : option (Z * Worker) :=
  let '(ts, w) := AddPullCB ks vals_buf lens_buf cb w in
  w ← Send ts false true cmd (mkKV ks [] [] prio) w;
  Some (ts, w).

End KVWorkerSend.

(** ** Predicates used in the statements *)

(** Keys are unique and sorted in an increasing order. *)
Definition ascending (ks : list Key) : Prop := StronglySorted Z.lt ks.

(** [ranges[i].end == ranges[i+1].begin] for all adjacent ranges. *)
Fixpoint contiguous (rs : list Range) : Prop :=
  match rs with
  | r :: ((r' :: _) as rs') => r_end r = r_begin r' /\ contiguous rs'
  | _ => True
  end.

(** Every range is ordered: [begin <= end]. *)
Definition ordered_ranges (rs : list Range) : Prop :=
  Forall (fun r => r_begin r <= r_end r) rs.

(** The overall key span [ranges[0].begin, ranges[last].end) holds [k]. *)
Definition in_span (rs : list Range) (k : Key) : Prop :=
  match rs, last rs with
  | r0 :: _, Some rn => r_begin r0 <= k < r_end rn
  | _, _ => False
  end.

(** The shape a batch has by the documentation of [KVPairs]: without
    [lens] every key has [k = vals.size()/keys.size()] values; with
    [lens], [lens[i]] is the length of the [i]-th value. *)
Definition valid_batch {Val : Type} (b : KVPairs Val) : Prop :=
  if decide (lens b = [])
  then exists k : nat, length (vals b) = (k * length (keys b))%nat
  else length (lens b) = length (keys b)
       /\ Forall (fun l => 0 <= l) (lens b)
       /\ sum_lens (lens b) = Z.of_nat (length (vals b)).

Definition shard_keys {Val : Type} (s : bool * KVPairs Val) : list Key := keys (snd s).
Definition shard_vals {Val : Type} (s : bool * KVPairs Val) : list Val := vals (snd s).
Definition shard_lens {Val : Type} (s : bool * KVPairs Val) : list Z := lens (snd s).

(** The elements of [a] at positions [p..q). *)
Definition interval {A : Type} (a : list A) (p q : nat) : list A :=
  take (q - p) (drop p a).

(** [p <= ps[0] <= ps[1] <= ... <= n]. *)
Fixpoint chain (p : nat) (ps : list nat) (n : nat) : Prop :=
  match ps with
  | [] => (p <= n)%nat
  | q :: ps' => (p <= q)%nat /\ chain q ps' n
  end.

(** Sum of the first [p] entries of [ls]. *)
Definition psum (ls : list Z) (p : nat) : Z := sum_lens (take p ls).

(** The last entry of the vector [p :: ps]. *)
Fixpoint chain_end (p : nat) (ps : list nat) : nat :=
  match ps with
  | [] => p
  | q :: ps' => chain_end q ps'
  end.

(** One training step as the rate controller sees it: the trainer leaves
    [reading] in the loss file ([None]: no line to read), then a push whose
    first key is [0] crosses the step boundary. *)
Definition rate_step (env : Env) (reading : option float) (w : Worker)
    : option Worker :=
  Send_step_boundary env (set_world (set_loss_line reading (world w)) w).

(** The drop rates [dmlc_k] of the successive steps of a run. *)
Fixpoint rate_run (env : Env) (readings : list (option float)) (w : Worker)
    : option (list float) :=
  match readings with
  | [] => Some []
  | r :: readings' =>
      w' ← rate_step env r w;
      ks ← rate_run env readings' w';
      Some (dmlc_k (rate w') :: ks)
  end.

Definition non_increasing_Q (l : list Q) : Prop :=
  forall (i j : nat) (x y : Q),
    (i <= j)%nat -> l !! i = Some x -> l !! j = Some y -> (y <= x)%Q.

Definition non_increasing (l : list float) : Prop :=
  forall (i j : nat) (x y : float),
    (i <= j)%nat -> l !! i = Some x -> l !! j = Some y -> F32.le y x.

(** A worker past its first step, with the loss file open and no loss
    recorded so far. *)
Definition rate_ready (w : Worker) : Prop :=
  fp (rate w) = Some tt
  /\ 1 <= push_op_num w
  /\ F32.eqb (first_loss (rate w)) F32.zero = true.

(** The rate of an adaptive step that reads [r], with [first_loss = f]. *)
Definition k_of (ki km f r : Q) : float :=
  F32.max (F32.mul (Fin ki) (F32.div (Fin r) (Fin f))) (Fin km).

(** A block-push message that ends its shard's sequence leaves on
    channel [0]. *)
Definition terminal_on_channel_0 (x : Wire) : Prop :=
  let m := Message.meta (wire_msg x) in
  Meta.msg_type m = 2 -> Meta.seq m = Meta.seq_end m ->
  wire_channel x = 0 /\ Meta.channel m = 0.

(** [w'] differs from [w] at most in the scorer's maps and in
    [msg_vector]. *)
Definition scoring_only (w w' : Worker) : Prop :=
  cfg w' = cfg w /\ block_size w' = block_size w /\ rate w' = rate w
  /\ push_op_num w' = push_op_num w /\ recv_kvs_ w' = recv_kvs_ w
  /\ callbacks_ w' = callbacks_ w /\ world w' = world w.

(** What identifies a block on the wire: its [seq], its offset
    [val_bytes], and the length of its value slice. *)
Definition block_view (m : Message.t) : Z * Z * Z :=
  (Meta.seq (Message.meta m), Meta.val_bytes (Message.meta m),
   Z.of_nat (length (msg_weights m))).

(** [ceil(total / b)] *)
Definition ceil_div (total b : Z) : Z := (total + b - 1) / b.

(** The blocks [first, first+1, ..., first+count-1] of a payload of
    [total] values cut every [b] values. *)
Definition expected_blocks (b total first count : Z) : list (Z * Z * Z) :=
  map (fun s => (s, s * b, Z.min b (total - s * b))) (seqZ first count).

Definition sum_Z (l : list Z) : Z := foldr Z.add 0 l.

(** The block size in force for a shard of [total] values. *)
Definition effective_block_size (w : Worker) (total : Z) : Z :=
  if enable_block (cfg w) =? 0 then total else block_size w.

(** The fields every block of one shard shares. *)
Definition block_meta_ok (seq_end total : Z) (m : Message.t) : Prop :=
  Meta.msg_type (Message.meta m) = 2
  /\ Meta.seq_end (Message.meta m) = seq_end
  /\ Meta.total_bytes (Message.meta m) = total.

(** The first key of a reply. *)
Definition front_key (s : KVPairs float) : Key := hd 0 (keys s).

(** The replies [ordered], taken in the order of the server ranges, cover
    exactly the requested keys [ks]. *)
Definition covers (ks : list Key) (ordered : list (KVPairs float)) : Prop :=
  concat (map keys ordered) = ks /\ Forall (fun s => keys s <> []) ordered.

(** The caller's buffers fit the replies: each is empty or already has the
    size of the result, and with a [lens] buffer every reply carries one
    length per key. *)
Definition buffers_fit (ks : list Key) (ordered : list (KVPairs float))
    (vals_buf : list float) (lens_buf : option (list Z)) : Prop :=
  (vals_buf = [] \/ length vals_buf = length (concat (map vals ordered)))
  /\ match lens_buf with
     | None => True
     | Some lb =>
         (lb = [] \/ length lb = length ks)
         /\ Forall (fun s => length (lens s) = length (keys s)) ordered
     end.

Global Instance Event_eq_dec : EqDecision Event.
Proof. solve_decision. Defined.

(** How many times [RunCallback] has invoked the entry of [ts]. *)
Definition fired (ts : Z) (w : Worker) : nat :=
  length (filter (fun e => e = EvCallback ts) (log (world w))).

(** What can happen to a worker once a request is registered: further
    sends, deliveries from the receiving thread, and calls of
    [RunCallback]. *)
Inductive Action : Type :=
| ActSend (ts : Z) (push pull : bool) (cmd : Z) (kvs : KVPairs float)
| ActReceive (msg : Message.t)
| ActRun (ts : Z).

Definition act (env : Env) (a : Action) (w : Worker) : option Worker :=
  match a with
  | ActSend ts push pull cmd kvs => Send env ts push pull cmd kvs w
  | ActReceive msg => Receiving env msg w
  | ActRun ts => RunCallback ts w
  end.

Fixpoint run (env : Env) (acts : list Action) (w : Worker) : option Worker :=
  match acts with
  | [] => Some w
  | a :: acts' => w' ← act env a w; run env acts' w'
  end.

(** The state of the request [ts] relative to [n] earlier firings:
    pending with its callback [c], or retired after exactly one more
    firing. *)
Definition pending_or_retired (ts : Z) (c : Callback) (n : nat) (w : Worker)
    : Prop :=
  (callbacks_ w !! ts = Some c /\ fired ts w = n)
  \/ (callbacks_ w !! ts = None /\ fired ts w = S n).

(** [w'] has the registry and the callback record of [w]. *)
Definition registry_same (w w' : Worker) : Prop :=
  callbacks_ w' = callbacks_ w /\ log (world w') = log (world w).

(** What one step does to the request [ts]: nothing, or it fires the
    registered callback once and retires [ts]. *)
Definition ts_step (ts : Z) (w w' : Worker) : Prop :=
  (callbacks_ w' !! ts = callbacks_ w !! ts /\ fired ts w' = fired ts w)
  \/ (is_Some (callbacks_ w !! ts)
      /\ callbacks_ w' !! ts = None /\ fired ts w' = S (fired ts w)).

(** ** Scenarios *)

(** An environment with two servers, [DMLC_K = 0.5], [DMLC_K_MIN = 0.1],
    the adaptive flag set and four lossy channels. *)
Definition demo_meta : Meta.t :=
  Meta.mk 0 0 0 0 false false false false 0 0 0 0 0 0 0 0 0 0 0 0 0.

Definition demo_env : Env :=
  mkEnv 0 0 [mkRange 0 4; mkRange 4 8] (fun i => 8 + 2 * Z.of_nat i) 2
    demo_meta (Some (Fin (1 # 2))) (Some (Fin (1 # 10))) (Some 1) (Some 4)
    true 0 (fun i => Z.of_nat i) eq_refl.

(** The worker after its first step in [demo_env]. *)
Definition ready_worker : Worker :=
  mkWorker default_config 0
    (mkRate (Some tt) F32.zero F32.zero F32.zero F32.zero
       F32.one (Fin (1 # 2)) (Fin (1 # 10)) 1 4)
    1 (mkScores ∅ ∅ ∅) [] ∅ ∅ (mkWorld [] ∅ 0 None ∅ []).

(** The same worker with blocks of [bs] values, and with the
    zero-contribution filter set to [cz]. *)
Definition block_worker (bs cz : Z) : Worker :=
  mkWorker (mkConfig (contri_alpha default_config) 0 0 1 1 cz) bs
    (rate ready_worker) 2 (mkScores ∅ ∅ ∅) [] ∅ ∅ (mkWorld [] ∅ 0 None ∅ []).

Definition S1_batch : KVPairs Z := mkKV [1; 3; 5; 7] [10; 11; 12; 13; 14; 15; 16; 17] [] 0.
Definition S1_ranges : list Range := [mkRange 0 4; mkRange 4 8].
Definition S2_batch : KVPairs Z := mkKV [1; 2] [10; 11; 12; 13] [3; 1] 0.
Definition S2_ranges : list Range := [mkRange 0 2; mkRange 2 3].

(** A shard of [n] values, each [1.0], under key [1]. *)
Definition ones_shard (n : nat) : KVPairs float :=
  mkKV [1] (replicate n (Fin 1)) [] 0.

Definition S6_shard0 : KVPairs float :=
  mkKV [1; 3] [Fin 1; Fin 2; Fin 3; Fin 4] [] 0.
Definition S6_shard1 : KVPairs float :=
  mkKV [5; 7] [Fin 5; Fin 6; Fin 7; Fin 8] [] 0.
Definition S6_worker : Worker :=
  set_recv_kvs_ {[ 0 := [S6_shard1; S6_shard0] ]} ready_worker.


(** A block with sequence number [0] of [2] holding the single weight
    [1.0]. *)
Definition first_block : Message.t :=
  Message.mk (Meta.mk 0 0 0 8 true true false false 0 2 0 0 0 1 0 2 2 0 8 4 0)
    [DKeys [0]; DVals [Fin 1]] F32.zero.

(** S5: four ranked blocks with contributions [0.9, 0.1, 0.5, 0.05] wait in
    [msg_vector]; [k = 0.5] and four lossy channels. *)
Definition S5_block (seq : Z) (c : Q) : Message.t :=
  Message.mk (Meta.mk 0 0 0 8 true true false false 0 2 1 seq 0 3 0 4 2 0 8 4 0)
    [DKeys [1]; DVals [Fin 1]] (Fin c).

Definition S5_worker : Worker :=
  set_msg_vector
    [S5_block 0 (9 # 10); S5_block 1 (1 # 10); S5_block 2 (5 # 10);
     S5_block 3 (5 # 100)]
    (set_dmlc_k (Fin (1 # 2)) (block_worker 1 0)).

(** ** The rest of the worker's interface *)

Section KVWorkerAPI.

Variable env : Env.

(** [Push]: the copying front of [ZPush]. *)
Definition Push (ks : list Key) (vs : list float) (ls : list Z) (cmd : Z)
    (cb : option Z) (prio : Z) (w : Worker) : option (Z * Worker) :=
  ZPush env ks vs ls cmd cb prio w.

(** [Pull]: as [ZPull], on buffers that are vectors. *)
Definition Pull (ks : list Key) (vals_buf : list float)
    (lens_buf : option (list Z)) (cmd : Z) (cb : option Z) (prio : Z)
    (w : Worker) : option (Z * Worker) :=
  let '(ts, w) := AddPullCB ks vals_buf lens_buf cb w in
  w ← Send env ts false true cmd (mkKV ks [] [] prio) w;
  Some (ts, w).

(** [ZPushPull]: the pull callback is installed on [outs], and the batch
    goes out as a push and a pull at once; a [lens] buffer, when given,
    is also what the batch carries as [lens]. *)
Definition ZPushPull (ks : list Key) (vs : list float) (outs : list float)
    (lens_buf : option (list Z)) (cmd : Z) (cb : option Z) (prio : Z)
    (w : Worker) : option (Z * Worker) :=
  let '(ts, w) := AddPullCB ks outs lens_buf cb w in
  let ls := match lens_buf with Some lb => lb | None => [] end in
  w ← Send env ts true true cmd (mkKV ks vs ls prio) w;
  Some (ts, w).

(** [PushPull]: [outs] may be null ([None]), which [CHECK_NOTNULL]
    refuses; an empty [outs] is resized to the number of pushed values,
    another one must have that size.  The callback it passes on runs the
    user's callback, if there is one. *)
Definition PushPull (ks : list Key) (vs : list float)
    (outs : option (list float)) (lens_buf : option (list Z)) (cmd : Z)
    (cb : option Z) (prio : Z) (w : Worker) : option (Z * Worker) :=
  outs ← outs;
  outs ← (if (length outs =? 0)%nat
          then Some (replicate (length vs) F32.zero)
          else _ ← CHECK (length vs =? length outs)%nat; Some outs);
  ZPushPull ks vs outs lens_buf cmd cb prio w.

(** [Aproximate_channel_estimate].  Reading [contri_max[first_key]]
    creates the entry when there is none.  The body of the [for] loop ends
    in an unconditional [break], so only its first turn ([i = 0]) is ever
    taken, and only when [0 < C]. *)
Definition Aproximate_channel_estimate (msg : Message.t) (C : Z) (w : Worker)
    : Z * Worker :=
  let key := Meta.first_key (Message.meta msg) in
  let s := scores w in
  let cm := if bool_decide (contri_max s !! key = None)
            then <[key := F32.zero]> (contri_max s) else contri_max s in
  let w := set_scores (mkScores (contri s) cm (pre_contri_max s)) w in
  let p := if F32.neqb (default F32.zero (cm !! key)) F32.zero
           then F32.div (Message.contri msg) (default F32.zero (cm !! key))
           else F32.of_int 1 in
  if F32.geb p (F32.of_int 1) then (0, w)
  else if F32.eqb p (F32.of_int 0) then (9, w)
  else
    let i := 0 in
    let channel :=
      if i <? C then
        let min := F32.div (F32.mul (F32.of_int i) F32.one) (F32.of_int C) in
        let max := F32.div (F32.mul (F32.of_int (i + 1)) F32.one)
                     (F32.of_int C) in
        if F32.geb p min && F32.ltb p max then
          let lp := F32.div (F32.sub max p) (F32.sub max min) in
          if F32.geb lp (F32.div (F32.of_int (Z.rem (rand env) 100 + 1))
                           (F32.of_int 100))
          then i else i + 1
        else 0
      else 0 in
    (C - channel, w).

End KVWorkerAPI.

(** ** The server *)

Module KVMeta.

(** Meta information about a kv request.  [tracker_num] is not assigned by
    [KVServer::Process] and is read by nothing here; it is left out. *)
Record t : Type := mk {
  cmd : Z;
  push : bool;
  pull : bool;
  sender : Z;
  timestamp : Z;
  customer_id : Z
}.

End KVMeta.

(** A message as the van delivers it: [meta.sender], the node it came
    from, beside the fields of [Meta.t]. *)
Record Received : Type := mkReceived {
  rcv_sender : Z;
  rcv_msg : Message.t
}.

Module KVServer.

(** A server whose request handle is a functor with state [H]; an unset
    handle is [None].  [outbox] is what the server handed to its van. *)
Record t (H : Type) : Type := mk {
  request_handle_ : option H;
  outbox : list Wire
}.
Arguments mk {H}.
Arguments request_handle_ {H}.
Arguments outbox {H}.

(** The call [request_handle_(req_meta, req_data, server)]: the functor
    may change its own state and use the server. *)
Class ReqHandle (H : Type) : Type :=
  req_call : Env -> H -> KVMeta.t -> KVPairs float -> t H -> option (H * t H).

Section Methods.

(** The environment of the server's process. *)
Variable env : Env.
Context {H : Type} `{ReqHandle H}.

(** The state the constructor leaves. *)
Definition KVServer : t H := mk None [].

Definition set_request_handle (request_handle : option H) (s : t H)
    : option (t H) :=
  h ← request_handle;
  Some (mk (Some h) (outbox s)).

(** The message that [Response] builds. *)
Definition Response_msg (req : KVMeta.t) (res : KVPairs float) : Message.t :=
  let d := meta0 env in
  AddData_kv (keys res) (vals res) (lens res)
    (Message.mk
       (Meta.mk (env_app_id env) (KVMeta.customer_id req)
          (KVMeta.timestamp req) (KVMeta.sender req) false
          (KVMeta.push req) (KVMeta.pull req) (Meta.simple_app d)
          (KVMeta.cmd req) (Meta.msg_type d) (Meta.first_key d)
          (Meta.seq d) (Meta.seq_begin d) (Meta.seq_end d)
          (Meta.val_bytes d) (Meta.total_bytes d) (Meta.push_op_num d)
          (Meta.channel d) (Meta.keys_len d) (Meta.vals_len d)
          (Meta.lens_len d))
       [] F32.zero).

Definition Response (req : KVMeta.t) (res : KVPairs float) (s : t H) : t H :=
  mk (request_handle_ s) (outbox s ++ [VanSend (Response_msg req res)]).

(** The payload of a request as [Process] reads it. *)
Definition decode (msg : Message.t) : option (KVPairs float) :=
  let n := length (Message.data msg) in
  if (n =? 0)%nat then Some empty_kv
  else
    _ ← CHECK (2 <=? n)%nat;
    d0 ← Message.data msg !! 0%nat;
    d1 ← Message.data msg !! 1%nat;
    if (2 <? n)%nat then
      _ ← CHECK (n =? 3)%nat;
      d2 ← Message.data msg !! 2%nat;
      _ ← CHECK (length (chunk_ints d2) =? length (chunk_keys d0))%nat;
      Some (mkKV (chunk_keys d0) (chunk_floats d1) (chunk_ints d2) 0)
    else Some (mkKV (chunk_keys d0) (chunk_floats d1) [] 0).

(** [KVServer::Process], the receive handle.  A message of the simple
    application goes to [SimpleApp::Process], outside this class. *)
Definition Process (r : Received) (s : t H) : option (t H) :=
  let mt := Message.meta (rcv_msg r) in
  if Meta.simple_app mt then Some s
  else
    let meta := KVMeta.mk (Meta.head mt) (Meta.push mt) (Meta.pull mt)
                  (rcv_sender r) (Meta.timestamp mt) (Meta.customer_id mt) in
    data ← decode (rcv_msg r);
    h ← request_handle_ s;
    '(h, s) ← req_call env h meta data s;
    Some (mk (Some h) (outbox s)).

End Methods.

End KVServer.

Module KVServerDefaultHandle.

(** The example handle: its state is the [store]. *)
Record t : Type := mk { store : gmap Key float }.

(** The loop over the keys, from position [i] on.  [store[key]] creates
    the entry with value [0] when there is none; reading [vals[i]] past
    the end of the request's values is not defined. *)
Fixpoint loop (push pull : bool) (ks : list Key) (i : nat)
    (req_vals : list float) (st : gmap Key float) (res_vals : list float)
    : option (gmap Key float * list float) :=
  match ks with
  | [] => Some (st, res_vals)
  | key :: ks' =>
      st ← (if push then
              v ← req_vals !! i;
              Some (<[key := F32.add (default F32.zero (st !! key)) v]> st)
            else Some st);
      let '(st, res_vals) :=
        if pull then
          let st := if bool_decide (st !! key = None)
                    then <[key := F32.zero]> st else st in
          (st, <[i := default F32.zero (st !! key)]> res_vals)
        else (st, res_vals) in
      loop push pull ks' (S i) req_vals st res_vals
  end.

Definition call (env : Env) (h : t) (req_meta : KVMeta.t)
    (req_data : KVPairs float) (server : KVServer.t t)
    : option (t * KVServer.t t) :=
  let n := length (keys req_data) in
  res ← (if negb (KVMeta.pull req_meta) then
           _ ← CHECK (n =? length (vals req_data))%nat;
           Some empty_kv
         else Some (mkKV (keys req_data) (replicate n F32.zero) [] 0));
  '(st, res_vals) ← loop (KVMeta.push req_meta) (KVMeta.pull req_meta)
                      (keys req_data) 0 (vals req_data) (store h) (vals res);
  Some (mk st,
        KVServer.Response env req_meta
          (mkKV (keys res) res_vals (lens res) (priority res)) server).

Global Instance handle : KVServer.ReqHandle t := call.

End KVServerDefaultHandle.

(** ** Further predicates *)

(** Shard [s] stands for the range [r]: it is sent exactly when it has
    keys, and its keys lie in [r]. *)
Definition shard_in_range {Val : Type} (s : bool * KVPairs Val) (r : Range)
    : Prop :=
  (fst s = true <-> keys (snd s) <> [])
  /\ Forall (fun k => r_begin r <= k < r_end r) (keys (snd s)).

(** The worker after the steps of a run of the rate controller. *)
Fixpoint rate_steps (env : Env) (readings : list (option float)) (w : Worker)
    : option Worker :=
  match readings with
  | [] => Some w
  | r :: readings' => w' ← rate_step env r w; rate_steps env readings' w'
  end.

(** The four variables that [init_dgt] requires. *)
Definition dgt_environment (env : Env) : Prop :=
  is_Some (DMLC_K env) /\ is_Some (DMLC_K_MIN env)
  /\ is_Some (ADAPTIVE_K_FLAG env) /\ is_Some (DMLC_UDP_CHANNEL_NUM env).

(** The shards that are sent, each with the rank of its server; [i] is
    the rank of the first shard of the list. *)
Fixpoint sent_shards (i : nat) (sliced : list (bool * KVPairs float))
    : list (nat * KVPairs float) :=
  match sliced with
  | [] => []
  | s :: sliced' =>
      if fst s then (i, snd s) :: sent_shards (S i) sliced'
      else sent_shards (S i) sliced'
  end.

(** Handing the messages [xs] to the van, in order. *)
Definition van_send_all (xs : list Wire) (w : Worker) : Worker :=
  set_world (set_outbox (outbox (world w) ++ xs) (world w)) w.

(** A block of the shard [kvs] of the request [ts] for server [i]: a
    message of type [2] addressed to that server, which carries all keys of
    the shard, the [n] values of the shard from the offset [val_bytes] on,
    and the shard's lengths if it has any, with the byte sizes of keys and
    values in its meta. *)
Definition block_of_shard (env : Env) (ts : Z) (i : nat)
    (kvs : KVPairs float) (key0 : Key) (m : Message.t) : Prop :=
  let mt := Message.meta m in
  Meta.msg_type mt = 2
  /\ Meta.request mt = true
  /\ Meta.timestamp mt = ts
  /\ Meta.recver mt = ServerRankToID env i
  /\ Meta.first_key mt = to_int32 key0
  /\ Meta.total_bytes mt = Z.of_nat (length (vals kvs))
  /\ exists off n : nat,
       Meta.val_bytes mt = Z.of_nat off
       /\ (1 <= n)%nat /\ (off + n <= length (vals kvs))%nat
       /\ Message.data m
          = DKeys (keys kvs) :: DVals (interval (vals kvs) off (off + n))
              :: (if (length (lens kvs) =? 0)%nat then []
                  else [DLens (lens kvs)])
       /\ Meta.keys_len mt = sizeof_Key * Z.of_nat (length (keys kvs))
       /\ Meta.vals_len mt = sizeof_float * Z.of_nat n.

(** No element is followed by a strictly greater one. *)
Definition never_rising (l : list float) : Prop :=
  Sorted (fun a b => F32.gtb b a = false) l.

(** Largest first: every element is at least as large as each of the
    elements after it. *)
Definition descending (l : list float) : Prop :=
  StronglySorted (fun a b => F32.geb a b = true) l.

(** A score that is not below zero; NaN and [+inf] are such scores. *)
Definition not_negative (x : float) : Prop := F32.ltb x F32.zero = false.

(** No block has a negative score; a block without a score counts with
    the [0] that the scorer starts from. *)
Definition scores_not_negative (w : Worker) : Prop :=
  forall key seq : Z, not_negative (contri_at key seq (contri (scores w))).

(** The value a store holds for a key: [0] when it has no entry. *)
Definition stored (st : gmap Key float) (k : Key) : float :=
  default F32.zero (st !! k).

(** What a server that runs the example handle on the store [st] hands to
    its van for the request [req] that came from the node [from]. *)
Definition answer (senv : Env) (st : gmap Key float) (from : Z)
    (req : Message.t) : option (list Wire) :=
  s ← KVServer.Process senv (mkReceived from req)
        (KVServer.mk (Some (KVServerDefaultHandle.mk st)) []);
  Some (KVServer.outbox s).

(** The request [ts] waits for replies: its callback [c] is registered,
    [n] responses are counted, the replies [kvs] are stored, and the
    record of callbacks is [L]. *)
Definition pending (ts : Z) (c : Callback) (n : Z)
    (kvs : list (KVPairs float)) (L : list Event) (w : Worker) : Prop :=
  default [] (recv_kvs_ w !! ts) = kvs
  /\ NumResponse ts w = n
  /\ callbacks_ w !! ts = Some c
  /\ log (world w) = L.

(** The reply of a server to a pull, as the worker stores it. *)
Definition reply_kv (res : KVPairs float) : KVPairs float :=
  mkKV (keys res) (vals res) (lens res) 0.

(** What the server of a shard holds for the keys of the shard. *)
Definition held (stores : nat -> gmap Key float) (js : nat * KVPairs float)
    : list float :=
  map (stored (stores (fst js))) (keys (snd js)).

(** The pull request for a shard, and the response of its server. *)
Definition pull_request (wenv : Env) (ts cmd : Z) (js : nat * KVPairs float)
    : Message.t :=
  pull_msg wenv ts false true cmd (fst js) (snd js) (hd 0 (keys (snd js))).

Definition pull_response (wenv : Env) (senv : nat -> Env)
    (stores : nat -> gmap Key float) (from ts cmd : Z)
    (js : nat * KVPairs float) : Message.t :=
  KVServer.Response_msg (senv (fst js))
    (KVMeta.mk cmd false true from ts (env_customer_id wenv))
    (mkKV (keys (snd js)) (held stores js) [] 0).

(** ** Further scenarios *)

(** The worker of [demo_env] after a step that read the loss [2.0]. *)
Definition loss_worker : Worker :=
  set_rate
    (mkRate (Some tt) (Fin 2) F32.one (Fin 2) (Fin 2)
       (Fin (1 # 2)) (Fin (1 # 2)) (Fin (1 # 10)) 1 4)
    (set_push_op_num 2 ready_worker).

(** The block [first_block] with a NaN for its weight. *)
Definition nan_block : Message.t :=
  Message.mk (Message.meta first_block) [DKeys [0]; DVals [NaN]] F32.zero.

(** The environment [demo_env] in a directory where the loss file cannot
    be opened. *)
Definition nofile_env : Env :=
  mkEnv 0 0 [mkRange 0 4; mkRange 4 8] (fun i => 8 + 2 * Z.of_nat i) 2
    demo_meta (Some (Fin (1 # 2))) (Some (Fin (1 # 10))) (Some 1) (Some 4)
    false 0 (fun i => Z.of_nat i) eq_refl.

(** Two servers for [demo_env]: the first holds [10.0] for key [1], the
    second [50.0] for key [5]. *)
Definition demo_stores (j : nat) : gmap Key float :=
  match j with
  | O => {[ 1 := Fin 10 ]}
  | _ => {[ 5 := Fin 50 ]}
  end.

Definition demo_server : KVServer.t KVServerDefaultHandle.t :=
  KVServer.mk (Some (KVServerDefaultHandle.mk (demo_stores 0))) [].

(** Requests of the node [9] under timestamp [0]: a push, a pull, and
    both at once. *)
Definition demo_push : KVMeta.t := KVMeta.mk 0 true false 9 0 0.
Definition demo_pull : KVMeta.t := KVMeta.mk 0 false true 9 0 0.
Definition demo_push_pull : KVMeta.t := KVMeta.mk 0 true true 9 0 0.

(** The shards of the keys [1; 5] in [demo_env]. *)
Definition demo_shards : list (bool * KVPairs float) :=
  [(true, mkKV [1] [] [] 0); (true, mkKV [5] [] [] 0)].

(** * Properties *)

(** ** Binary search *)

Lemma ascending_nth (ks : list Key) (i j : nat) :
  ascending ks -> (i < j < length ks)%nat -> nth i ks 0 < nth j ks 0.
Proof.
  intros Hs. revert i j. induction Hs as [|x l Hs IH Hx]; intros i j [Hij Hj].
  - simpl in Hj. lia.
  - destruct j as [|j]; [lia|]. simpl in Hj. destruct i as [|i]; simpl.
    + rewrite Forall_forall in Hx. apply Hx. apply list_elem_of_In, nth_In. lia.
    + apply IH. lia.
Qed.

Lemma ascending_nth_le (ks : list Key) (i j : nat) :
  ascending ks -> (i <= j < length ks)%nat -> nth i ks 0 <= nth j ks 0.
Proof.
  intros Hs [Hij Hj]. destruct (decide (i = j)) as [->|Hne]; [lia|].
  assert (nth i ks 0 < nth j ks 0) by (apply ascending_nth; [done|lia]). lia.
Qed.

Lemma lower_bound_loop_spec (a : list Key) (v : Key) :
  ascending a ->
  forall (fuel first len lo hi : nat),
    (len <= fuel)%nat -> (lo <= first)%nat ->
    (first + len <= hi)%nat -> (hi <= length a)%nat ->
    (forall i, (lo <= i < first)%nat -> nth i a 0 < v) ->
    (forall i, (first + len <= i < hi)%nat -> v <= nth i a 0) ->
    let r := lower_bound_loop fuel a first len v in
    (first <= r <= first + len)%nat
    /\ (forall i, (lo <= i < r)%nat -> nth i a 0 < v)
    /\ (forall i, (r <= i < hi)%nat -> v <= nth i a 0).
Proof.
  intros Hs. induction fuel as [|fuel IH]; intros first len lo hi Hf Hlo Hhi Hlen Hlow Hhigh.
  - assert (len = 0%nat) by lia. subst len. simpl.
    split; [lia|]. split; [done|]. intros i Hi. apply Hhigh. lia.
  - cbn [lower_bound_loop]. destruct (Nat.eqb_spec len 0) as [->|Hne].
    + split; [lia|]. split; [done|]. intros i Hi. apply Hhigh. lia.
    + assert (Hhalf : (len / 2 < len)%nat) by (apply Nat.div_lt; lia).
      destruct (Z.ltb_spec (nth (first + len / 2) a 0) v) as [Hlt|Hge].
      * specialize (IH (first + len / 2 + 1)%nat (len - len / 2 - 1)%nat lo hi).
        destruct IH as (Hr & Hl & Hh); try lia.
        -- intros i Hi. destruct (decide (i < first)%nat); [apply Hlow; lia|].
           assert (nth i a 0 <= nth (first + len / 2) a 0)
             by (apply ascending_nth_le; [done|lia]). lia.
        -- intros i Hi. apply Hhigh. lia.
        -- split; [lia|]. split; assumption.
      * specialize (IH first (len / 2)%nat lo hi).
        destruct IH as (Hr & Hl & Hh); try lia.
        -- assumption.
        -- intros i Hi. destruct (decide (first + len <= i)%nat); [apply Hhigh; lia|].
           assert (nth (first + len / 2) a 0 <= nth i a 0)
             by (apply ascending_nth_le; [done|lia]). lia.
        -- split; [lia|]. split; assumption.
Qed.

Lemma lower_bound_spec (a : list Key) (v : Key) (first : nat) :
  ascending a -> (first <= length a)%nat ->
  let r := lower_bound a first (length a) v in
  (first <= r <= length a)%nat
  /\ (forall i, (first <= i < r)%nat -> nth i a 0 < v)
  /\ (forall i, (r <= i < length a)%nat -> v <= nth i a 0).
Proof.
  intros Hs Hf. unfold lower_bound.
  destruct (lower_bound_loop_spec a v Hs (length a - first) first
              (length a - first) first (length a)) as (Hr & Hl & Hh);
    try lia.
  split; [lia|]. split; assumption.
Qed.

(** ** Array slices *)

Lemma interval_nil {A : Type} (a : list A) (p : nat) : interval a p p = [].
Proof. unfold interval. by rewrite Nat.sub_diag. Qed.

Lemma interval_app {A : Type} (a : list A) (p q r : nat) :
  (p <= q <= r)%nat -> interval a p q ++ interval a q r = interval a p r.
Proof.
  intros [Hpq Hqr]. unfold interval.
  replace (drop q a) with (drop (q - p) (drop p a))
    by (rewrite drop_drop; f_equal; lia).
  rewrite take_take_drop. f_equal. lia.
Qed.

Lemma interval_all {A : Type} (a : list A) : interval a 0 (length a) = a.
Proof. unfold interval. rewrite drop_0, Nat.sub_0_r. by apply take_ge. Qed.

Lemma segment_interval {A : Type} (a : list A) (p q : nat) :
  (p <= q <= length a)%nat ->
  segment a (Z.of_nat p) (Z.of_nat q) = Some (interval a p q).
Proof.
  intros [Hpq Hq]. unfold segment, interval.
  destruct (Z.leb_spec 0 (Z.of_nat p)); [|lia].
  destruct (Z.leb_spec (Z.of_nat p) (Z.of_nat q)); [|lia].
  destruct (Z.leb_spec (Z.of_nat q) (Z.of_nat (length a))); [|lia].
  simpl. by rewrite <- Nat2Z.inj_sub, !Nat2Z.id by lia.
Qed.

Lemma segment_interval_Z {A : Type} (a : list A) (b e : Z) :
  0 <= b <= e -> e <= Z.of_nat (length a) ->
  segment a b e = Some (interval a (Z.to_nat b) (Z.to_nat e)).
Proof.
  intros Hb He.
  rewrite <- (Z2Nat.id b), <- (Z2Nat.id e) by lia.
  rewrite segment_interval by lia. by rewrite !Z2Nat.id by lia.
Qed.

(** ** The position vector *)

Lemma lower_bound_all_ge (ks : list Key) (v : Key) (first : nat) :
  ascending ks -> (first <= length ks)%nat ->
  (forall i, (first <= i < length ks)%nat -> v <= nth i ks 0) ->
  lower_bound ks first (length ks) v = first.
Proof.
  intros Hs Hf Hall.
  destruct (lower_bound_spec ks v first Hs Hf) as (Hr & Hl & _).
  destruct (decide (first < lower_bound ks first (length ks) v)%nat) as [Hlt|]; [|lia].
  specialize (Hl first ltac:(lia)). specialize (Hall first ltac:(lia)). lia.
Qed.

Lemma lower_bound_all_lt (ks : list Key) (v : Key) (first : nat) :
  ascending ks -> (first <= length ks)%nat ->
  (forall i, (first <= i < length ks)%nat -> nth i ks 0 < v) ->
  lower_bound ks first (length ks) v = length ks.
Proof.
  intros Hs Hf Hall.
  destruct (lower_bound_spec ks v first Hs Hf) as (Hr & _ & Hh).
  destruct (decide (lower_bound ks first (length ks) v < length ks)%nat) as [Hlt|]; [|lia].
  specialize (Hh _ ltac:(split; [reflexivity|exact Hlt])).
  specialize (Hall (lower_bound ks first (length ks) v) ltac:(lia)). lia.
Qed.

Lemma Forall_nth_lt (ks : list Key) (v : Key) :
  Forall (fun k => k < v) ks -> forall i, (i < length ks)%nat -> nth i ks 0 < v.
Proof.
  intros H i Hi. rewrite Forall_forall in H. apply H, list_elem_of_In, nth_In, Hi.
Qed.

Lemma find_pos_spec (ks : list Key) :
  ascending ks ->
  forall (rs : list Range) (prev : Range) (p : nat),
    (p <= length ks)%nat -> contiguous (prev :: rs) ->
    exists rest,
      find_pos ks prev rs p p = Some rest
      /\ length rest = length rs
      /\ chain p rest (length ks)
      /\ (forall rn, last rs = Some rn -> Forall (fun k => k < r_end rn) ks ->
          last rest = Some (length ks)).
Proof.
  intros Hs. induction rs as [|r rs IH]; intros prev p Hp Hc.
  - exists []. split; [done|]. split; [done|]. split; [exact Hp|].
    intros rn Hrn. discriminate.
  - destruct Hc as [He Hc]. cbn [find_pos]. rewrite He, Z.eqb_refl. simpl.
    destruct (lower_bound_spec ks (r_end r) p Hs Hp) as (Hr & Hl & Hh).
    set (q := lower_bound ks p (length ks) (r_end r)) in *.
    replace (p + (q - p))%nat with q by lia.
    destruct (IH r q ltac:(lia) Hc) as (rest & Hrest & Hlen & Hch & Hlast).
    rewrite Hrest. simpl. exists (q :: rest).
    split; [done|]. split; [simpl; lia|]. split; [simpl; split; [lia|done]|].
    intros rn Hrn Hall. destruct rs as [|r' rs'].
    + simpl in Hrn. injection Hrn as <-.
      assert (rest = []) as -> by (destruct rest; [done|simpl in Hlen; lia]).
      simpl. f_equal. subst q. apply lower_bound_all_lt; [done..|].
      intros i Hi. apply Forall_nth_lt; [done|lia].
    + rewrite last_cons_cons in Hrn. specialize (Hlast rn Hrn Hall).
      rewrite last_cons, Hlast. done.
Qed.

Lemma positions_spec (ks : list Key) (rs : list Range) :
  ascending ks -> contiguous rs ->
  (forall k, k ∈ ks -> in_span rs k) ->
  exists rest,
    positions ks rs = Some (0%nat :: rest)
    /\ length rest = length rs
    /\ chain 0 rest (length ks)
    /\ last (0%nat :: rest) = Some (length ks).
Proof.
  intros Hs Hc Hspan. destruct rs as [|r rs].
  - exists []. split; [done|]. split; [done|]. split; [simpl; lia|].
    destruct ks as [|k ks]; [done|]. destruct (Hspan k); left.
  - cbn [positions].
    assert (Hl0 : lower_bound ks 0 (length ks) (r_begin r) = 0%nat).
    { apply lower_bound_all_ge; [done|lia|]. intros i Hi.
      assert (Hin : nth i ks 0 ∈ ks) by (apply list_elem_of_In, nth_In; lia).
      specialize (Hspan _ Hin). unfold in_span in Hspan.
      destruct (last (r :: rs)); [lia|done]. }
    rewrite Hl0. simpl (0 - 0)%nat. simpl (0 + 0)%nat.
    destruct (lower_bound_spec ks (r_end r) 0 Hs ltac:(lia)) as (Hr & Hl & Hh).
    set (q := lower_bound ks 0 (length ks) (r_end r)) in *.
    replace (0 + (q - 0))%nat with q by lia. replace (q - 0)%nat with q by lia.
    destruct (find_pos_spec ks Hs rs r q ltac:(lia) Hc) as (rest & Hrest & Hlen & Hch & Hlast).
    rewrite Hrest. simpl. exists (q :: rest).
    split; [done|]. split; [simpl; lia|]. split; [simpl; split; [lia|done]|].
    assert (Hall : forall rn, last (r :: rs) = Some rn -> Forall (fun k => k < r_end rn) ks).
    { intros rn Hrn. apply Forall_forall. intros k Hk.
      specialize (Hspan k Hk). unfold in_span in Hspan. rewrite Hrn in Hspan. lia. }
    destruct rs as [|r' rs'].
    + assert (rest = []) as -> by (destruct rest; [done|simpl in Hlen; lia]).
      simpl. f_equal. subst q. apply lower_bound_all_lt; [done|lia|].
      intros i Hi. apply Forall_nth_lt; [by apply Hall|lia].
    + rewrite last_cons_cons in Hall.
      destruct (last (r' :: rs')) as [rn'|] eqn:E; [|by apply last_None in E].
      specialize (Hlast rn' eq_refl (Hall _ eq_refl)).
      rewrite last_cons_cons, last_cons, Hlast. done.
Qed.

Lemma chain_end_last (p : nat) (ps : list nat) :
  last (p :: ps) = Some (chain_end p ps).
Proof.
  revert p. induction ps as [|q ps IH]; intros p; [done|].
  rewrite last_cons_cons. apply IH.
Qed.

Lemma chain_end_bounds (p : nat) (ps : list nat) (n : nat) :
  chain p ps n -> (p <= chain_end p ps <= n)%nat.
Proof.
  revert p. induction ps as [|q ps IH]; intros p H; simpl in *; [lia|].
  destruct H as [Hpq H]. specialize (IH q H). lia.
Qed.

(** ** Partial sums of [lens] *)

Lemma foldl_add_sum (l : list Z) (acc : Z) :
  foldl Z.add acc l = acc + sum_lens l.
Proof.
  unfold sum_lens. revert acc. induction l as [|x l IH]; intros acc; [simpl; lia|].
  cbn [foldl]. rewrite (IH (acc + x)), (IH (0 + x)). lia.
Qed.

Lemma sum_lens_app (l1 l2 : list Z) :
  sum_lens (l1 ++ l2) = sum_lens l1 + sum_lens l2.
Proof. unfold sum_lens at 1. rewrite foldl_app, foldl_add_sum. done. Qed.

Lemma sum_lens_nonneg (l : list Z) : Forall (fun x => 0 <= x) l -> 0 <= sum_lens l.
Proof.
  induction 1 as [|x l Hx Hl IH]; [done|].
  change (x :: l) with ([x] ++ l). rewrite sum_lens_app. unfold sum_lens at 1. simpl. lia.
Qed.

Lemma psum_split (ls : list Z) (p q : nat) :
  (p <= q)%nat -> psum ls q = psum ls p + sum_lens (interval ls p q).
Proof.
  intros Hpq. unfold psum, interval. rewrite <- sum_lens_app, take_take_drop.
  do 2 f_equal. lia.
Qed.

Lemma psum_mono (ls : list Z) (p q : nat) :
  Forall (fun x => 0 <= x) ls -> (p <= q)%nat -> 0 <= psum ls p <= psum ls q.
Proof.
  intros Hls Hpq. rewrite (psum_split ls p q Hpq). split.
  - apply sum_lens_nonneg. unfold psum. by apply Forall_take.
  - assert (0 <= sum_lens (interval ls p q)); [|lia].
    apply sum_lens_nonneg. unfold interval. by apply Forall_take, Forall_drop.
Qed.

Lemma psum_all (ls : list Z) (n : nat) :
  (length ls <= n)%nat -> psum ls n = sum_lens ls.
Proof. intros H. unfold psum. by rewrite take_ge. Qed.

(** ** The slicing loop *)

Section SliceLoop.

Context {Val : Type}.
Variable send : KVPairs Val.

Lemma slice_loop_nolens (k : nat) :
  lens send = [] ->
  length (vals send) = (length (keys send) * k)%nat ->
  forall (ps : list nat) (p : nat) (vb ve : Z),
    chain p ps (length (keys send)) ->
    exists sl,
      slice_loop send k p ps vb ve = Some sl
      /\ length sl = length ps
      /\ concat (map shard_keys sl) = interval (keys send) p (chain_end p ps)
      /\ concat (map shard_vals sl)
         = interval (vals send) (p * k) (chain_end p ps * k)
      /\ concat (map shard_lens sl) = [].
Proof.
  intros Hl Hv. induction ps as [|q ps IH]; intros p vb ve Hc.
  - exists []. simpl. by rewrite !interval_nil.
  - destruct Hc as [Hpq Hc]. cbn [slice_loop chain_end].
    pose proof (chain_end_bounds _ _ _ Hc) as Hb.
    destruct (IH q vb ve Hc) as (sl & Hsl & Hlen & Hk & Hvs & Hls).
    destruct (Nat.eqb_spec q p) as [->|Hne].
    + rewrite Hsl. simpl. exists ((false, empty_kv) :: sl).
      split; [done|]. split; [simpl; lia|]. simpl. done.
    + rewrite (segment_interval (keys send) p q) by lia. simpl.
      rewrite Hl. simpl.
      rewrite (segment_interval (vals send) (p * k) (q * k)) by (rewrite Hv; nia). simpl.
      rewrite Hsl. simpl. eexists. split; [done|]. split; [simpl; lia|].
      cbn [map concat]. unfold shard_keys at 1, shard_vals at 1, shard_lens at 1.
      cbn [snd keys vals lens].
      rewrite Hk, Hvs, Hls, !interval_app by nia. done.
Qed.

Lemma slice_loop_lens (k : nat) :
  lens send <> [] ->
  length (lens send) = length (keys send) ->
  Forall (fun l => 0 <= l) (lens send) ->
  sum_lens (lens send) = Z.of_nat (length (vals send)) ->
  forall (ps : list nat) (p : nat),
    chain p ps (length (keys send)) ->
    exists sl,
      slice_loop send k p ps (psum (lens send) p) (psum (lens send) p) = Some sl
      /\ length sl = length ps
      /\ concat (map shard_keys sl) = interval (keys send) p (chain_end p ps)
      /\ concat (map shard_vals sl)
         = interval (vals send) (Z.to_nat (psum (lens send) p))
             (Z.to_nat (psum (lens send) (chain_end p ps)))
      /\ concat (map shard_lens sl) = interval (lens send) p (chain_end p ps).
Proof.
  intros Hl Hlk Hpos Hsum. induction ps as [|q ps IH]; intros p Hc.
  - exists []. simpl. by rewrite !interval_nil.
  - destruct Hc as [Hpq Hc]. cbn [slice_loop chain_end].
    pose proof (chain_end_bounds _ _ _ Hc) as Hb.
    destruct (IH q Hc) as (sl & Hsl & Hlen & Hk & Hvs & Hls).
    destruct (Nat.eqb_spec q p) as [->|Hne].
    + rewrite Hsl. simpl. exists ((false, empty_kv) :: sl).
      split; [done|]. split; [simpl; lia|]. simpl. done.
    + rewrite (segment_interval (keys send) p q) by lia. simpl.
      destruct (Nat.eqb_spec (length (lens send)) 0) as [H0|_].
      { destruct (lens send); [done|discriminate]. }
      simpl. rewrite (segment_interval (lens send) p q) by lia. simpl.
      rewrite foldl_add_sum, <- psum_split by lia.
      pose proof (psum_mono (lens send) p q Hpos Hpq) as Hm1.
      pose proof (psum_mono (lens send) q (chain_end q ps) Hpos ltac:(lia)) as Hm2.
      pose proof (psum_mono (lens send) (chain_end q ps) (length (lens send)) Hpos ltac:(lia)) as Hm3.
      rewrite (psum_all (lens send) (length (lens send))) in Hm3 by lia.
      rewrite segment_interval_Z by lia. simpl.
      rewrite Hsl. simpl. eexists. split; [done|]. split; [simpl; lia|].
      cbn [map concat]. unfold shard_keys at 1, shard_vals at 1, shard_lens at 1.
      cbn [snd keys vals lens].
      rewrite Hk, Hvs, Hls, !interval_app by lia. done.
Qed.

End SliceLoop.

(** ** Slicer coverage *)

Lemma ascending_NoDup (ks : list Key) : ascending ks -> NoDup ks.
Proof.
  induction 1 as [|x l Hs IH Hx]; constructor; [|done].
  intros Hin. rewrite Forall_forall in Hx. specialize (Hx x Hin). lia.
Qed.

Lemma elem_of_concat {A : Type} (ls : list (list A)) (x : A) :
  x ∈ concat ls <-> exists l, l ∈ ls /\ x ∈ l.
Proof.
  rewrite list_elem_of_In, in_concat. split; intros (l & H1 & H2); exists l.
  - by rewrite !list_elem_of_In.
  - by rewrite <- !list_elem_of_In.
Qed.

Lemma concat_unique_index {A : Type} (ls : list (list A)) (x : A) :
  NoDup (concat ls) ->
  forall (i j : nat) (a b : list A),
    ls !! i = Some a -> ls !! j = Some b -> x ∈ a -> x ∈ b -> i = j.
Proof.
  induction ls as [|l ls IH]; intros Hnd i j a b Hi Hj Ha Hb; [done|].
  simpl in Hnd. apply NoDup_app in Hnd as (Hl & Hdisj & Hrest).
  assert (Hin : forall n c, ls !! n = Some c -> x ∈ c -> x ∈ concat ls).
  { intros n c Hn Hc. apply elem_of_concat. exists c. split; [|done].
    by apply list_elem_of_lookup_2 with n. }
  destruct i as [|i], j as [|j]; simpl in Hi, Hj.
  - done.
  - injection Hi as <-. destruct (Hdisj x Ha). by apply Hin with j b.
  - injection Hj as <-. destruct (Hdisj x Hb). by apply Hin with i a.
  - f_equal. by apply IH with a b.
Qed.

Lemma concat_some_index {A : Type} (ls : list (list A)) (x : A) :
  x ∈ concat ls -> exists i a, ls !! i = Some a /\ x ∈ a.
Proof.
  intros H. apply elem_of_concat in H as (a & Hin & Ha).
  apply list_elem_of_lookup_1 in Hin as (i & Hi). by exists i, a.
Qed.

Lemma concat_map_const_nil {A B C : Type} (f : B -> list C) (b : B) (l : list A) :
  f b = [] -> concat (map f (map (fun _ => b) l)) = [].
Proof. intros Hf. induction l as [|r rs IH]; [done|]. simpl. by rewrite Hf. Qed.

Section SlicerCoverage.

Context {Val : Type}.
Variables (send : KVPairs Val) (ranges : list Range).
Hypothesis Hasc : ascending (keys send).
Hypothesis Hcont : contiguous ranges.
Hypothesis Hspan : forall k, k ∈ keys send -> in_span ranges k.
Hypothesis Hvalid : valid_batch send.

Lemma DefaultSlicer_concat :
  exists sliced,
    DefaultSlicer send ranges = Some sliced
    /\ length sliced = length ranges
    /\ concat (map shard_keys sliced) = keys send
    /\ concat (map shard_vals sliced) = vals send
    /\ concat (map shard_lens sliced) = lens send.
Proof.
  destruct (positions_spec _ _ Hasc Hcont Hspan) as (rest & Hpos & Hlen & Hch & Hlast).
  unfold DefaultSlicer. rewrite Hpos. cbn [mbind option_bind].
  rewrite Hlast. cbn [mbind option_bind]. rewrite Nat.eqb_refl. cbn [CHECK mbind option_bind].
  rewrite chain_end_last in Hlast. injection Hlast as Hend.
  unfold valid_batch in Hvalid.
  destruct (Nat.eqb_spec (length (keys send)) 0) as [Hk0|Hk0].
  - exists (map (fun _ => (false, empty_kv)) ranges).
    split; [done|]. split; [by rewrite length_map|].
    rewrite !concat_map_const_nil by done.
    assert (keys send = []) as Hkn by (by apply length_zero_iff_nil).
    destruct (decide (lens send = [])) as [Hl|Hl].
    + destruct Hvalid as [k Hk]. rewrite Hk0, Nat.mul_0_r in Hk.
      apply length_zero_iff_nil in Hk. by rewrite Hkn, Hk, Hl.
    + destruct Hvalid as (Hll & _). rewrite Hk0 in Hll.
      by apply length_zero_iff_nil in Hll.
  - destruct (decide (lens send = [])) as [Hl|Hl].
    + destruct Hvalid as [k Hk]. rewrite Hl. cbn [length Nat.eqb].
      assert (Hdiv : (length (vals send) / length (keys send))%nat = k)
        by (rewrite Hk; apply Nat.div_mul; lia).
      rewrite Hdiv.
      replace (k * length (keys send) =? length (vals send))%nat with true
        by (symmetry; apply Nat.eqb_eq; lia).
      cbn [CHECK mbind option_bind].
      destruct (slice_loop_nolens send k Hl ltac:(lia) rest 0%nat 0 0 Hch)
        as (sl & Hsl & Hlen' & Hks & Hvs & Hls).
      exists sl. split; [done|]. split; [lia|].
      rewrite Hks, Hvs, Hls, Hend. simpl (0 * k)%nat.
      replace (length (keys send) * k)%nat with (length (vals send)) by lia.
      by rewrite !interval_all.
    + destruct Hvalid as (Hll & Hnn & Hsum).
      destruct (Nat.eqb_spec (length (lens send)) 0) as [H0|_].
      { destruct (lens send); [done|discriminate]. }
      rewrite Hll, Nat.eqb_refl. cbn [CHECK mbind option_bind].
      destruct (slice_loop_lens send 0 Hl Hll Hnn Hsum rest 0%nat Hch)
        as (sl & Hsl & Hlen' & Hks & Hvs & Hls).
      exists sl. split; [done|]. split; [lia|].
      rewrite Hks, Hvs, Hls, Hend.
      rewrite (psum_all (lens send) (length (keys send))) by lia.
      rewrite Hsum, Nat2Z.id. change (psum (lens send) 0) with 0. simpl (Z.to_nat 0).
      rewrite <- Hll at 2. by rewrite !interval_all.
Qed.

End SlicerCoverage.

(** C4. For a batch with ascending unique keys and a contiguous range list
    whose span holds every key, [DefaultSlicer] succeeds with one shard per
    range; the shards' keys, values and lengths, concatenated in range
    order, are the batch's keys, values and lengths; and every key is in
    exactly one shard. *)
Theorem DefaultSlicer_partition {Val : Type} (send : KVPairs Val) (ranges : list Range) :
  ascending (keys send) ->
  contiguous ranges ->
  (forall k, k ∈ keys send -> in_span ranges k) ->
  valid_batch send ->
  exists sliced,
    DefaultSlicer send ranges = Some sliced
    /\ length sliced = length ranges
    /\ concat (map shard_keys sliced) = keys send
    /\ concat (map shard_vals sliced) = vals send
    /\ concat (map shard_lens sliced) = lens send
    /\ (forall k, k ∈ keys send ->
        exists i s, sliced !! i = Some s /\ k ∈ shard_keys s
          /\ forall j s', sliced !! j = Some s' -> k ∈ shard_keys s' -> j = i).
Proof.
  intros Hasc Hcont Hspan Hvalid.
  destruct (DefaultSlicer_concat send ranges Hasc Hcont Hspan Hvalid)
    as (sliced & Hrun & Hlen & Hks & Hvs & Hls).
  exists sliced. repeat (split; [done|]).
  intros k Hk. rewrite <- Hks in Hk.
  destruct (concat_some_index _ _ Hk) as (i & a & Hi & Ha).
  apply list_lookup_fmap_Some in Hi as (s & -> & Hs).
  exists i, s. repeat (split; [done|]).
  intros j s' Hj Hin.
  apply (concat_unique_index (map shard_keys sliced) k) with (shard_keys s') (shard_keys s).
  - rewrite Hks. by apply ascending_NoDup.
  - by apply (list_lookup_fmap_Some_2 shard_keys).
  - by apply (list_lookup_fmap_Some_2 shard_keys).
  - done.
  - done.
Qed.

(** ** The coverage check *)

Lemma find_pos_below (ks : list Key) :
  ascending ks ->
  forall (rs : list Range) (prev : Range) (p : nat) (rest : list nat),
    ordered_ranges rs -> (p <= length ks)%nat ->
    (forall i, (i < p)%nat -> nth i ks 0 < r_end prev) ->
    find_pos ks prev rs p p = Some rest ->
    exists rn, last (prev :: rs) = Some rn
      /\ forall i, (i < chain_end p rest)%nat -> nth i ks 0 < r_end rn.
Proof.
  intros Hs. induction rs as [|r rs IH]; intros prev p rest Hord Hp Hlow Hrun.
  - injection Hrun as <-. by exists prev.
  - cbn [find_pos] in Hrun.
    destruct (Z.eqb_spec (r_end prev) (r_begin r)) as [He|]; [|done].
    cbn [CHECK mbind option_bind] in Hrun.
    destruct (lower_bound_spec ks (r_end r) p Hs Hp) as (Hr & Hl & _).
    set (q := lower_bound ks p (length ks) (r_end r)) in *.
    replace (p + (q - p))%nat with q in Hrun by lia.
    destruct (find_pos ks r rs q q) as [rest'|] eqn:Hrest; [|done].
    injection Hrun as <-. apply Forall_cons in Hord as [Hr0 Hord].
    destruct (IH r q rest' Hord ltac:(lia)) as (rn & Hrn & Hall); [|done|].
    + intros i Hi. destruct (decide (i < p)%nat) as [Hip|Hip].
      * specialize (Hlow i Hip). lia.
      * apply Hl. lia.
    + exists rn. split; [by rewrite last_cons_cons|done].
Qed.

Lemma positions_below (ks : list Key) (rs : list Range) (pos : list nat) (rn : Range) :
  ascending ks -> ordered_ranges rs -> last rs = Some rn ->
  positions ks rs = Some pos ->
  exists pn, last pos = Some pn
    /\ forall i, (i < pn)%nat -> nth i ks 0 < r_end rn.
Proof.
  intros Hs Hord Hrn Hrun. destruct rs as [|r rs]; [done|].
  cbn [positions] in Hrun. rewrite Nat.sub_0_r, Nat.add_0_l in Hrun.
  apply Forall_cons in Hord as [Hr0 Hord].
  destruct (lower_bound_spec ks (r_begin r) 0 Hs ltac:(lia)) as (Hb & Hbl & _).
  set (p0 := lower_bound ks 0 (length ks) (r_begin r)) in *.
  destruct (lower_bound_spec ks (r_end r) p0 Hs ltac:(lia)) as (Hr & Hl & _).
  set (q := lower_bound ks p0 (length ks) (r_end r)) in *.
  replace (p0 + (q - p0))%nat with q in Hrun by lia.
  destruct (find_pos ks r rs q q) as [rest|] eqn:Hrest; [|done].
  injection Hrun as <-.
  destruct (find_pos_below ks Hs rs r q rest Hord ltac:(lia)) as (rn' & Hrn' & Hall); [|done|].
  - intros i Hi. destruct (decide (i < p0)%nat) as [Hip|Hip].
    + specialize (Hbl i ltac:(lia)). lia.
    + apply Hl. lia.
  - rewrite Hrn in Hrn'. injection Hrn' as <-.
    exists (chain_end q rest). split; [|done].
    rewrite last_cons_cons. apply chain_end_last.
Qed.

(** C10 (as amended). With ascending keys and ordered ranges,
    [DefaultSlicer] completes only if every key is below the end of the last
    range: a batch with a key at or above that end fails the check
    [pos[n] == keys.size()]. *)
Theorem DefaultSlicer_fatal_above_span {Val : Type} (send : KVPairs Val)
    (ranges : list Range) (rn : Range) :
  ascending (keys send) ->
  ordered_ranges ranges ->
  last ranges = Some rn ->
  (forall sliced, DefaultSlicer send ranges = Some sliced ->
     forall k, k ∈ keys send -> k < r_end rn)
  /\ ((exists k, k ∈ keys send /\ r_end rn <= k) ->
      DefaultSlicer send ranges = None).
Proof.
  intros Hs Hord Hrn.
  assert (Hkey : forall sliced, DefaultSlicer send ranges = Some sliced ->
                 forall k, k ∈ keys send -> k < r_end rn).
  { intros sliced Hrun k Hk. unfold DefaultSlicer in Hrun.
    destruct (positions (keys send) ranges) as [pos|] eqn:Hpos; [|done].
    cbn [mbind option_bind] in Hrun.
    destruct (positions_below _ _ _ _ Hs Hord Hrn Hpos) as (pn & Hpn & Hall).
    rewrite Hpn in Hrun. cbn [mbind option_bind] in Hrun.
    destruct (Nat.eqb_spec pn (length (keys send))) as [Heq|]; [|done].
    rewrite Heq in Hall.
    apply list_elem_of_lookup_1 in Hk as (i & Hi).
    pose proof (lookup_lt_Some _ _ _ Hi) as Hlt.
    rewrite <- (nth_lookup_Some _ _ 0 _ Hi). exact (Hall i Hlt). }
  split; [exact Hkey|].
  intros (k & Hk & Hge).
  destruct (DefaultSlicer send ranges) as [sliced|] eqn:Hrun; [|done].
  specialize (Hkey sliced eq_refl k Hk). lia.
Qed.

(** ** Contribution scorer *)

Lemma contri_at_store (key seq : Z) (v : float) (m : gmap Z (gmap Z float)) :
  contri_at key seq (contri_store key seq v m) = v.
Proof.
  unfold contri_at, contri_store. rewrite lookup_insert_eq. simpl.
  by rewrite lookup_insert_eq.
Qed.

Lemma contri_at_ensure_key (key seq : Z) (m : gmap Z (gmap Z float)) :
  contri_at key seq
    (if bool_decide (m !! key = None)
     then contri_store key seq F32.zero m else m)
  = contri_at key seq m.
Proof.
  case_bool_decide as H; [|done].
  rewrite contri_at_store. unfold contri_at. by rewrite H.
Qed.

Lemma contri_at_ensure_seq (key seq : Z) (m : gmap Z (gmap Z float)) :
  contri_at key seq
    (if bool_decide (default ∅ (m !! key) !! seq = None)
     then contri_store key seq F32.zero m else m)
  = contri_at key seq m.
Proof.
  case_bool_decide as H; [|done].
  rewrite contri_at_store. unfold contri_at. by rewrite H.
Qed.

Local Ltac map_step :=
  repeat first [ rewrite lookup_insert_eq | progress simpl ].

Lemma Update_contri_max_spec (key seq seq_end : Z) (c : float) (s : Scores) :
  let base := if bool_decide (contri_max s !! key = None) || (seq =? 0)
              then F32.zero else default F32.zero (contri_max s !! key) in
  let s' := Update_contri_max key seq seq_end c s in
  contri s' = contri s
  /\ contri_max s' !! key = Some (F32.max c base)
  /\ pre_contri_max s' !! key
     = Some (if seq =? seq_end then F32.max c base
             else default F32.zero (pre_contri_max s !! key)).
Proof.
  unfold Update_contri_max, F32.max. cbn [contri contri_max pre_contri_max].
  split; [done|].
  assert (Hpre : forall x : float,
             (if bool_decide (pre_contri_max s !! key = None)
              then <[key := x]> (pre_contri_max s) else pre_contri_max s) !! key
             = Some (default x (pre_contri_max s !! key))).
  { intros x. case_bool_decide as Hp.
    - by rewrite lookup_insert_eq, Hp.
    - destruct (pre_contri_max s !! key); done. }
  destruct (bool_decide (contri_max s !! key = None) || (seq =? 0)) eqn:Hreset.
  - map_step. destruct (F32.gtb c F32.zero) eqn:Hgt; map_step.
    + split; [done|]. destruct (seq =? seq_end); map_step; [done|apply Hpre].
    + split; [done|]. destruct (seq =? seq_end); map_step; [done|apply Hpre].
  - apply orb_false_iff in Hreset as [Hsome _].
    apply bool_decide_eq_false in Hsome.
    destruct (contri_max s !! key) as [old|] eqn:Hold; [|done]. simpl.
    destruct (F32.gtb c old) eqn:Hgt; map_step.
    + split; [done|]. destruct (seq =? seq_end); map_step; [done|apply Hpre].
    + rewrite Hold. split; [done|].
      destruct (seq =? seq_end); map_step; [done|apply Hpre].
Qed.

Lemma msg_nlen_vals (msg : Message.t) (ws : list float) :
  Message.data msg !! 1%nat = Some (DVals ws) ->
  msg_nlen msg = Z.of_nat (length ws) /\ msg_weights msg = ws.
Proof.
  intros H. unfold msg_nlen, msg_weights. rewrite H. split; [|done].
  unfold chunk_size, sizeof_float. by rewrite Z.mul_comm, Z.quot_mul.
Qed.

(** C8 (as amended). For a block message of key [key] whose value chunk
    holds the weights [ws], [Evaluate_msg_contri] stores and returns
    [alpha * contri[key][seq] + (1 - alpha) * (N / nlen)], with [0] for an
    absent entry, [N] the sum of the absolute weights and [nlen] their
    count; [contri_max[key]] is first reset to [0] when [seq == 0] (or when
    absent) and is then, in every case, raised to that score when the score
    is greater; when [seq == seq_end], [pre_contri_max[key]] takes the value
    of [contri_max[key]]. *)
Theorem Evaluate_msg_contri_update (key : Z) (msg : Message.t)
    (ws : list float) (w : Worker) :
  Message.data msg !! 1%nat = Some (DVals ws) ->
  let seq := Meta.seq (Message.meta msg) in
  let seq_end := Meta.seq_end (Message.meta msg) in
  let alpha := contri_alpha (cfg w) in
  let old := contri_at key seq (contri (scores w)) in
  let v := F32.add (F32.mul alpha old)
             (F32.mul (F32.sub (F32.of_int 1) alpha)
                (F32.div (sum_abs ws) (F32.of_int (Z.of_nat (length ws))))) in
  let base := if bool_decide (contri_max (scores w) !! key = None) || (seq =? 0)
              then F32.zero
              else default F32.zero (contri_max (scores w) !! key) in
  let r := Evaluate_msg_contri key msg w in
  fst r = v
  /\ (contri (scores (snd r)) !! key) ≫= (fun row => row !! seq) = Some v
  /\ contri_max (scores (snd r)) !! key = Some (F32.max v base)
  /\ pre_contri_max (scores (snd r)) !! key
     = Some (if seq =? seq_end then F32.max v base
             else default F32.zero (pre_contri_max (scores w) !! key)).
Proof.
  intros Hdata seq seq_end alpha old v base r.
  destruct (msg_nlen_vals msg ws Hdata) as [Hn Hw].
  subst r. unfold Evaluate_msg_contri. cbv zeta.
  rewrite Hn, Hw, Nat2Z.id, firstn_all.
  fold seq seq_end alpha.
  rewrite contri_at_ensure_seq, contri_at_ensure_key. fold old. fold v.
  rewrite contri_at_store.
  match goal with
  | |- context [Update_contri_max key seq seq_end v ?s] => set (s1 := s)
  end.
  destruct (Update_contri_max_spec key seq seq_end v s1) as (Hc & Hm & Hp).
  cbn [fst snd scores set_scores]. rewrite Hc, Hm, Hp.
  subst s1. cbn [contri contri_max pre_contri_max]. fold base.
  split; [by rewrite contri_at_store|].
  split; [|done].
  unfold contri_store. rewrite lookup_insert_eq. simpl.
  by rewrite lookup_insert_eq.
Qed.

(** ** Rate controller *)

Lemma gtb_Fin (a b : Q) :
  F32.gtb (Fin a) (Fin b) = match Qcompare a b with Gt => true | _ => false end.
Proof. reflexivity. Qed.

Lemma max_Fin (a b : Q) :
  F32.max (Fin a) (Fin b)
  = Fin (match Qcompare a b with Gt => a | _ => b end).
Proof. unfold F32.max. rewrite gtb_Fin. by destruct (Qcompare a b). Qed.

Lemma Qsel_lower (a b : Q) :
  (b <= match Qcompare a b with Gt => a | _ => b end)%Q.
Proof.
  destruct (Qcompare_spec a b) as [H|H|H]; try apply Qle_refl.
  by apply Qlt_le_weak.
Qed.

Lemma Qsel_mono (a a' b : Q) :
  (a' <= a)%Q ->
  (match Qcompare a' b with Gt => a' | _ => b end
   <= match Qcompare a b with Gt => a | _ => b end)%Q.
Proof.
  intros Hle.
  destruct (Qcompare_spec a' b) as [H'|H'|H'];
    destruct (Qcompare_spec a b) as [H|H|H];
    try apply Qle_refl; try (by apply Qlt_le_weak); try done.
  - exfalso. rewrite H in Hle. by apply (Qlt_not_le _ _ H').
  - exfalso. apply (Qlt_irrefl b).
    eapply Qlt_le_trans; [exact H'|]. eapply Qle_trans; [exact Hle|].
    by apply Qlt_le_weak.
Qed.

Lemma Qscale_mono (ki f r r' : Q) :
  ~ (f == 0)%Q -> (0 <= ki / f)%Q -> (r' <= r)%Q ->
  (ki * (r' / f) <= ki * (r / f))%Q.
Proof.
  intros Hf Hk Hr.
  assert (E : forall x : Q, (ki * (x / f) == ki / f * x)%Q)
    by (intros x; field; exact Hf).
  rewrite !E, !(Qmult_comm (ki / f)). by apply Qmult_le_compat_r.
Qed.

Lemma Qzero_false (q : Q) : ~ (q == 0)%Q -> F32.Qzero q = false.
Proof.
  intros H. unfold F32.Qzero. destruct (Qcompare_spec q 0); [done|done..].
Qed.

Section RateSteps.

Variable env : Env.

(** A step that refreshes the rate leaves everything but the loss
    members and [dmlc_k] as it was. *)
Lemma rate_step_refresh (reading : option float) (w : Worker) :
  fp (rate w) = Some tt -> 1 <= push_op_num w ->
  let cur := default F32.zero reading in
  let first' := if F32.eqb (first_loss (rate w)) F32.zero
                then cur else first_loss (rate w) in
  let k_adapt := F32.max (F32.mul (dmlc_k_init (rate w)) (F32.div cur first'))
                   (dmlc_k_min (rate w)) in
  exists w',
    rate_step env reading w = Some w'
    /\ fp (rate w') = Some tt
    /\ push_op_num w' = push_op_num w + 1
    /\ pre_loss (rate w') = cur
    /\ rt_loss (rate w') = cur
    /\ first_loss (rate w') = first'
    /\ dmlc_k_init (rate w') = dmlc_k_init (rate w)
    /\ dmlc_k_min (rate w') = dmlc_k_min (rate w)
    /\ adaptive_k_flag (rate w') = adaptive_k_flag (rate w)
    /\ dmlc_k (rate w')
       = if negb (adaptive_k_flag (rate w) =? 0) then k_adapt
         else dmlc_k_init (rate w).
Proof.
  intros Hfp Hop cur first' k_adapt.
  unfold rate_step, Send_step_boundary.
  cbn [push_op_num set_push_op_num set_world].
  destruct (Z.ltb_spec 1 (push_op_num w + 1)) as [_|]; [|lia].
  unfold Update_loss_delta.
  cbn [rate set_push_op_num set_world world loss_line set_loss_line].
  rewrite Hfp. cbn [mbind option_bind].
  cbn [rate set_rate adaptive_k_flag].
  replace (match reading with Some x => x | None => F32.zero end) with cur
    by (by destruct reading).
  fold first'.
  destruct (negb (adaptive_k_flag (rate w) =? 0)) eqn:Hflag.
  - eexists. split; [reflexivity|].
    unfold set_dmlc_k, adaptive_k, F32.max. cbn. repeat split; try done.
  - eexists. split; [reflexivity|].
    unfold set_dmlc_k. cbn. repeat split; try done.
Qed.

End RateSteps.

Lemma rate_ready_step (env : Env) (w w' : Worker) :
  rate_ready w ->
  rate_step env None w = Some w' ->
  rate_ready w'
  /\ dmlc_k_init (rate w') = dmlc_k_init (rate w)
  /\ dmlc_k_min (rate w') = dmlc_k_min (rate w)
  /\ adaptive_k_flag (rate w') = adaptive_k_flag (rate w)
  /\ pre_loss (rate w') = F32.zero
  /\ rt_loss (rate w') = F32.zero
  /\ dmlc_k (rate w')
     = if negb (adaptive_k_flag (rate w) =? 0)
       then dmlc_k_min (rate w) else dmlc_k_init (rate w).
Proof.
  intros (Hfp & Hop & Hfirst) Hstep.
  destruct (rate_step_refresh env None w Hfp Hop)
    as (w1 & Hrun & Hfp' & Hop' & Hpre & Hrt & Hf & Hki & Hkm & Hfl & Hk).
  rewrite Hrun in Hstep. injection Hstep as <-.
  rewrite Hfirst in Hf, Hk. cbn [default] in *.
  split; [|repeat (split; [done|])].
  - unfold rate_ready. rewrite Hfp', Hop', Hf. split; [done|]. split; [lia|done].
  - rewrite Hk. destruct (negb (adaptive_k_flag (rate w) =? 0)); [|done].
    change (F32.div F32.zero F32.zero) with NaN.
    by destruct (dmlc_k_init (rate w)), (dmlc_k_min (rate w)).
Qed.

(** C6 (as amended). When the loss file holds no line, every reading is
    taken as [0]; on every step the drop rate is [dmlc_k_init] when the
    adaptive flag is clear, and [dmlc_k_min] when it is set. *)
Theorem absent_feed_rate (env : Env) (w : Worker) (n : nat) :
  rate_ready w ->
  let k := if negb (adaptive_k_flag (rate w) =? 0)
           then dmlc_k_min (rate w) else dmlc_k_init (rate w) in
  (exists w', rate_step env None w = Some w'
     /\ pre_loss (rate w') = F32.zero /\ rt_loss (rate w') = F32.zero
     /\ dmlc_k (rate w') = k)
  /\ rate_run env (replicate n None) w = Some (replicate n k).
Proof.
  intros Hready k. split.
  - destruct Hready as (Hfp & Hop & Hfirst).
    destruct (rate_step_refresh env None w Hfp Hop) as (w1 & Hrun & _).
    destruct (rate_ready_step env w w1 (conj Hfp (conj Hop Hfirst)) Hrun)
      as (_ & _ & _ & _ & Hpre & Hrt & Hk).
    exists w1. by repeat split.
  - subst k. revert w Hready. induction n as [|n IH]; intros w Hready; [done|].
    cbn [replicate rate_run].
    destruct Hready as (Hfp & Hop & Hfirst).
    destruct (rate_step_refresh env None w Hfp Hop) as (w1 & Hrun & _).
    destruct (rate_ready_step env w w1 (conj Hfp (conj Hop Hfirst)) Hrun)
      as (Hready1 & Hki & Hkm & Hfl & _ & _ & Hk).
    rewrite Hrun. cbn [mbind option_bind].
    rewrite (IH w1 Hready1), Hki, Hkm, Hfl. cbn [mbind option_bind].
    by rewrite Hk.
Qed.

Section AdaptiveRate.

Variable env : Env.
Variables ki km f : Q.
Hypothesis Hf : ~ (f == 0)%Q.
Hypothesis Hslope : (0 <= ki / f)%Q.

Lemma k_of_Fin (r : Q) :
  k_of ki km f r = Fin (match Qcompare (ki * (r / f)) km with
                | Gt => ki * (r / f) | _ => km end)%Q.
Proof.
  unfold k_of. cbn [F32.div].
  rewrite Qzero_false by exact Hf.
  cbn [F32.mul]. apply max_Fin.
Qed.

Lemma k_of_lower (r : Q) : F32.le (Fin km) (k_of ki km f r).
Proof. rewrite k_of_Fin. cbn. apply Qsel_lower. Qed.

Lemma k_of_mono (r r' : Q) : (r' <= r)%Q -> F32.le (k_of ki km f r') (k_of ki km f r).
Proof.
  intros H. rewrite !k_of_Fin. cbn. apply Qsel_mono. by apply Qscale_mono.
Qed.

Lemma rate_run_adaptive (rs : list Q) (w : Worker) :
  fp (rate w) = Some tt -> 1 <= push_op_num w ->
  adaptive_k_flag (rate w) <> 0 ->
  dmlc_k_init (rate w) = Fin ki -> dmlc_k_min (rate w) = Fin km ->
  first_loss (rate w) = Fin f ->
  rate_run env (map (fun r => Some (Fin r)) rs) w = Some (map (k_of ki km f) rs).
Proof.
  revert w. induction rs as [|r rs IH]; intros w Hfp Hop Hflag Hi Hm Hfirst; [done|].
  cbn [map rate_run].
  destruct (rate_step_refresh env (Some (Fin r)) w Hfp Hop)
    as (w1 & Hrun & Hfp' & Hop' & _ & _ & Hf' & Hki' & Hkm' & Hfl' & Hk).
  assert (Hnz : F32.eqb (Fin f) F32.zero = false).
  { unfold F32.eqb. cbn. by destruct (Qcompare_spec f 0). }
  rewrite Hfirst, Hnz in Hf', Hk. cbn [default] in Hk.
  rewrite Hrun. cbn [mbind option_bind].
  rewrite (IH w1); try done; try lia; try congruence.
  cbn [mbind option_bind]. rewrite Hk, Hi, Hm.
  destruct (Z.eqb_spec (adaptive_k_flag (rate w)) 0); [done|]. done.
Qed.

End AdaptiveRate.

Lemma non_increasing_map_k_of (ki km f : Q) (rs : list Q) :
  ~ (f == 0)%Q -> (0 <= ki / f)%Q -> non_increasing_Q rs ->
  non_increasing (map (k_of ki km f) rs).
Proof.
  intros Hf Hki Hrs i j x y Hij Hx Hy.
  apply list_lookup_fmap_Some in Hx as (rx & -> & Hx).
  apply list_lookup_fmap_Some in Hy as (ry & -> & Hy).
  apply k_of_mono; [done..|]. by apply (Hrs i j).
Qed.

(** C7 (as amended). With the adaptive flag set, for every run whose
    readings are non-increasing, whose first reading is not zero and for
    which [dmlc_k_init / first_loss] is not negative (a non-negative
    [dmlc_k_init] with a positive first reading), the drop rate of each
    step is [max(dmlc_k_init * (rt_loss / first_loss), dmlc_k_min)], the
    rates are non-increasing across the steps, and each is at least
    [dmlc_k_min]. *)
Theorem adaptive_rate_monotone (env : Env) (w : Worker) (ki km r1 : Q)
    (rs : list Q) :
  rate_ready w ->
  adaptive_k_flag (rate w) <> 0 ->
  dmlc_k_init (rate w) = Fin ki ->
  dmlc_k_min (rate w) = Fin km ->
  ~ (r1 == 0)%Q ->
  (0 <= ki / r1)%Q ->
  non_increasing_Q (r1 :: rs) ->
  exists ks,
    rate_run env (map (fun r => Some (Fin r)) (r1 :: rs)) w = Some ks
    /\ ks = map (fun r => F32.max (F32.mul (Fin ki) (F32.div (Fin r) (Fin r1)))
                           (Fin km)) (r1 :: rs)
    /\ non_increasing ks
    /\ Forall (F32.le (Fin km)) ks.
Proof.
  intros (Hfp & Hop & Hfirst) Hflag Hi Hm Hr1 Hki Hmono.
  exists (map (k_of ki km r1) (r1 :: rs)).
  split; [|split; [done|split]].
  - cbn [map rate_run].
    destruct (rate_step_refresh env (Some (Fin r1)) w Hfp Hop)
      as (w1 & Hrun & Hfp' & Hop' & _ & _ & Hf' & Hki' & Hkm' & Hfl' & Hk).
    rewrite Hfirst in Hf', Hk. cbn [default] in Hf', Hk.
    rewrite Hrun. cbn [mbind option_bind].
    rewrite (rate_run_adaptive env ki km r1 Hr1 rs w1);
      try done; try lia; try congruence.
    cbn [mbind option_bind]. rewrite Hk, Hi, Hm.
    destruct (Z.eqb_spec (adaptive_k_flag (rate w)) 0); [done|]. done.
  - by apply non_increasing_map_k_of.
  - apply Forall_forall. intros k Hk.
    apply list_elem_of_fmap in Hk as (r & -> & _). by apply k_of_lower.
Qed.

(** ** Channel classifier *)

Lemma Qcompare_scaled (r rmin a b C : Z) :
  0 < C ->
  Qcompare (inject_Z r)
    (inject_Z rmin + inject_Z a * inject_Z b / inject_Z C)
  = Z.compare (C * (r - rmin)) (a * b).
Proof.
  intros HC. destruct C as [|p|p]; try lia.
  unfold Qcompare, Qplus, Qdiv, Qmult, Qinv, inject_Z. cbn [Qnum Qden].
  rewrite !Pos.mul_1_l, !Z.mul_1_r.
  rewrite (Z.compare_sub (r * Z.pos p)), (Z.compare_sub (Z.pos p * (r - rmin))).
  f_equal. ring.
Qed.

Lemma geb_scaled (r rmin i D C : Z) :
  0 < C ->
  F32.geb (F32.of_int r)
    (F32.add (F32.of_int rmin)
       (F32.div (F32.mul (F32.of_int i) (F32.of_int D)) (F32.of_int C)))
  = (i * D <=? C * (r - rmin)).
Proof.
  intros HC. unfold F32.of_int. cbn [F32.mul F32.div].
  replace (F32.Qzero (inject_Z C)) with false
    by (destruct C; try lia; reflexivity).
  cbn [F32.add]. unfold F32.geb. cbn [F32.compare].
  rewrite Qcompare_scaled by done. unfold Z.leb.
  rewrite (Z.compare_antisym (C * (r - rmin)) (i * D)).
  by destruct (C * (r - rmin) ?= i * D).
Qed.

Lemma ltb_scaled (r rmin i D C : Z) :
  0 < C ->
  F32.ltb (F32.of_int r)
    (F32.add (F32.of_int rmin)
       (F32.div (F32.mul (F32.of_int i) (F32.of_int D)) (F32.of_int C)))
  = (C * (r - rmin) <? i * D).
Proof.
  intros HC. unfold F32.of_int. cbn [F32.mul F32.div].
  replace (F32.Qzero (inject_Z C)) with false
    by (destruct C; try lia; reflexivity).
  cbn [F32.add]. unfold F32.ltb. cbn [F32.compare].
  rewrite Qcompare_scaled by done. unfold Z.ltb.
  by destruct (C * (r - rmin) ?= i * D).
Qed.

Section Classifier.

Variables (r rmin R C : Z).
Hypothesis HC : 0 < C.
Hypothesis HD : 0 < R - rmin.
Hypothesis Hr : rmin <= r.

Lemma Get_channel_loop_segment (n : nat) (i : Z) :
  r < R ->
  0 <= i <= C * (r - rmin) / (R - rmin) ->
  C * (r - rmin) / (R - rmin) < i + Z.of_nat n ->
  Get_channel_loop n i r rmin R C = Some (1 + C * (r - rmin) / (R - rmin)).
Proof.
  intros HrR. set (i0 := C * (r - rmin) / (R - rmin)).
  assert (Hi0 : i0 * (R - rmin) <= C * (r - rmin) < (i0 + 1) * (R - rmin)).
  { pose proof (Z.div_mod (C * (r - rmin)) (R - rmin) ltac:(lia)) as Hdm.
    pose proof (Z.mod_pos_bound (C * (r - rmin)) (R - rmin) HD) as Hmb.
    subst i0. nia. }
  revert i. induction n as [|n IH]; intros i Hi Hn; [lia|].
  cbn [Get_channel_loop].
  destruct (Z.ltb_spec 0 (R - rmin)) as [_|]; [|lia].
  rewrite geb_scaled, ltb_scaled by done.
  destruct (decide (i = i0)) as [->|Hne].
  - destruct (Z.leb_spec (i0 * (R - rmin)) (C * (r - rmin))); [|lia].
    destruct (Z.ltb_spec (C * (r - rmin)) ((i0 + 1) * (R - rmin))); [|lia].
    cbn. f_equal. lia.
  - destruct (Z.ltb_spec (C * (r - rmin)) ((i + 1) * (R - rmin))) as [Hlt|_].
    + exfalso. assert ((i + 1) * (R - rmin) <= i0 * (R - rmin)) by nia. lia.
    + rewrite andb_false_r. apply IH; lia.
Qed.

Lemma Get_channel_loop_last (n : nat) (i : Z) :
  r = R -> 0 <= i -> i + Z.of_nat n <= C ->
  Get_channel_loop n i r rmin R C = None.
Proof.
  intros -> . revert i. induction n as [|n IH]; intros i Hi Hn; [done|].
  cbn [Get_channel_loop].
  destruct (Z.ltb_spec 0 (R - rmin)) as [_|]; [|lia].
  rewrite geb_scaled, ltb_scaled by done.
  destruct (Z.ltb_spec (C * (R - rmin)) ((i + 1) * (R - rmin))) as [Hlt|_].
  - exfalso. nia.
  - rewrite andb_false_r. apply IH; lia.
Qed.

End Classifier.

(** C2 (as amended). For a rank [0 <= r <= R] and a channel count
    [C >= 1], [Get_channel] takes for [r_min] the [int] that it gets from
    [round(k * (R + 1))], the product being a [float].  When this minimum
    index is not negative and [C * (R + 1) <= 2^22], so that the bounds of
    the segments are exact in [float], it returns [0] when [r < r_min];
    otherwise [1] when [R <= r_min]; otherwise
    [1 + floor(C * (r - r_min) / (R - r_min))] when [r < R]; and for the
    last rank [r = R] the pseudo-random channel [rand() % C + 1], which lies
    in [1, C]. *)
Theorem Get_channel_cases (env : Env) (r R C : Z) (k : float) :
  0 <= r <= R -> 1 <= C -> 0 <= rand env ->
  let r_min := min_index R k in
  0 <= r_min -> C * (R + 1) <= 2 ^ 22 ->
  Get_channel env r R C k
  = (if r <? r_min then Some 0
     else if R <=? r_min then Some 1
     else if r <? R then Some (1 + C * (r - r_min) / (R - r_min))
     else Some (Z.rem (rand env) C + 1))
  /\ 1 <= Z.rem (rand env) C + 1 <= C.
Proof.
  intros Hr HC Hrand r_min Hmin Hsize. split.
  - unfold Get_channel. fold r_min.
    destruct (Z.ltb_spec r r_min) as [|Hge]; [done|].
    destruct (Z.leb_spec R r_min) as [Hle|Hgt].
    + destruct (Z.to_nat C) as [|n] eqn:Hn; [lia|]. cbn [Get_channel_loop].
      destruct (Z.ltb_spec 0 (R - r_min)); [lia|]. done.
    + destruct (Z.ltb_spec r R) as [HrR|HrR].
      * rewrite (Get_channel_loop_segment r r_min R C); try lia; [done|..].
        -- split; [lia|]. apply Z.div_pos; [nia|lia].
        -- rewrite Z2Nat.id by lia. apply Z.div_lt_upper_bound; [lia|nia].
      * rewrite (Get_channel_loop_last r r_min R C); try lia.
        destruct (Z.eqb_spec C 0); [lia|done].
  - pose proof (Z.rem_bound_pos (rand env) C Hrand ltac:(lia)). lia.
Qed.

(** ** The send path *)

Lemma scoring_only_refl (w : Worker) : scoring_only w w.
Proof. by repeat split. Qed.

Lemma scoring_only_trans (w1 w2 w3 : Worker) :
  scoring_only w1 w2 -> scoring_only w2 w3 -> scoring_only w1 w3.
Proof.
  intros (A1 & A2 & A3 & A4 & A5 & A6 & A7) (B1 & B2 & B3 & B4 & B5 & B6 & B7).
  repeat split; congruence.
Qed.

Lemma Evaluate_msg_contri_frame (key : Z) (msg : Message.t) (w : Worker) :
  scoring_only w (snd (Evaluate_msg_contri key msg w))
  /\ msg_vector (snd (Evaluate_msg_contri key msg w)) = msg_vector w.
Proof. by repeat split. Qed.

Lemma set_msg_vector_frame (v : list Message.t) (w : Worker) :
  scoring_only w (set_msg_vector v w).
Proof. by repeat split. Qed.

Section SendFrames.

Variable env : Env.

Lemma block_loop_frame (fuel : nat) (ts : Z) (push pull : bool) (cmd : Z)
    (i : nat) (kvs : KVPairs float) (key0 : Key) (total seq_num : Z) :
  forall (remain val_bytes seq : Z) (w w' : Worker),
    block_loop env fuel ts push pull cmd i kvs key0 total seq_num
      remain val_bytes seq w = Some w' ->
    scoring_only w w'.
Proof.
  induction fuel as [|fuel IH]; intros remain val_bytes seq w w' Hrun;
    cbn [block_loop] in Hrun.
  - destruct (remain =? 0); [|done]. injection Hrun as <-.
    apply scoring_only_refl.
  - destruct (remain =? 0); [injection Hrun as <-; apply scoring_only_refl|].
    destruct (segment (vals kvs) val_bytes _) as [tmp_val|]; [|done].
    cbn [mbind option_bind] in Hrun.
    destruct (Evaluate_msg_contri _ _ w) as [c w1] eqn:He.
    pose proof (Evaluate_msg_contri_frame (to_int32 key0)
                  (block_msg env ts push pull cmd i kvs key0 total val_bytes
                     seq seq_num tmp_val w) w) as [Hf _].
    rewrite He in Hf. cbn [snd] in Hf.
    apply IH in Hrun. eapply scoring_only_trans; [exact Hf|].
    eapply scoring_only_trans; [|exact Hrun].
    destruct (negb (clear_zero (cfg w1) =? 0));
      [destruct (_ || _)|]; try apply set_msg_vector_frame.
    apply scoring_only_refl.
Qed.

Lemma dispatch_loop_emits (ms : list Message.t) :
  forall (j size : Z) (w w' : Worker),
    dispatch_loop env j size ms w = Some w' ->
    exists new,
      outbox (world w') = outbox (world w) ++ new
      /\ Forall terminal_on_channel_0 new
      /\ Forall2 (fun x m => exists c, wire_msg x = Message.set_channel c m)
           new ms
      /\ cfg w' = cfg w /\ rate w' = rate w.
Proof.
  induction ms as [|m ms IH]; intros j size w w' Hrun; cbn [dispatch_loop] in Hrun.
  - injection Hrun as <-. exists []. rewrite app_nil_r. by repeat split.
  - destruct (Get_channel env j (size - 1) _ _) as [c|]; [|done].
    cbn [mbind option_bind] in Hrun.
    apply IH in Hrun as (new & Hout & Hall & Hmsgs & Hcfg & Hrate).
    set (last_block := Meta.seq (Message.meta (Message.set_channel c m))
                       =? Meta.seq_end (Message.meta (Message.set_channel c m))) in *.
    set (m1 := if last_block
               then Message.set_channel 0 (Message.set_channel c m)
               else Message.set_channel c m) in *.
    assert (Hterm : Meta.seq (Message.meta m1) = Meta.seq_end (Message.meta m1) ->
                    Meta.channel (Message.meta m1) = 0).
    { subst m1. destruct last_block eqn:Hlb; [done|].
      intros Heq. apply Z.eqb_neq in Hlb. contradiction. }
    assert (Hm1 : exists c', m1 = Message.set_channel c' m).
    { subst m1. destruct last_block; [by exists 0|by exists c]. }
    destruct (negb (enable_dgt (cfg w) =? 0)) eqn:Hdgt.
    + exists (VanClassifier m1 (Meta.channel (Message.meta m1)) 0 :: new).
      cbn in Hout |- *. rewrite Hout, <- app_assoc. split; [done|].
      split; [|split; [by constructor|done]].
      constructor; [|done]. intros _ Hseq. cbn. by rewrite (Hterm Hseq).
    + exists (VanSendOn m1 0 0 :: new).
      cbn in Hout |- *. rewrite Hout, <- app_assoc. split; [done|].
      split; [|split; [by constructor|done]].
      constructor; [|done]. intros _ Hseq. cbn. by rewrite (Hterm Hseq).
Qed.

End SendFrames.

Section SendEmits.

Variable env : Env.

Lemma Send_step_boundary_outbox (w w' : Worker) :
  Send_step_boundary env w = Some w' ->
  outbox (world w') = outbox (world w).
Proof.
  unfold Send_step_boundary. intros Hrun.
  destruct (1 <? push_op_num (set_push_op_num (push_op_num w + 1) w)).
  - unfold Update_loss_delta in Hrun.
    destruct (fp (rate (set_push_op_num (push_op_num w + 1) w))); [|done].
    cbn [mbind option_bind] in Hrun.
    destruct (negb _) in Hrun; by injection Hrun as <-.
  - unfold init_dgt, Open_loss_file in Hrun.
    destruct (DMLC_K env), (DMLC_K_MIN env), (ADAPTIVE_K_FLAG env),
      (DMLC_UDP_CHANNEL_NUM env); try done.
    cbn [mbind option_bind] in Hrun. injection Hrun as <-.
    by destruct (fopen_ok env).
Qed.

Lemma call_outbox (c : Callback) (w w' : Worker) :
  call c w = Some w' -> outbox (world w') = outbox (world w).
Proof.
  destruct c as [id|ts ks vb lb cb]; cbn [call]; intros Hrun.
  - by injection Hrun as <-.
  - unfold pull_callback in Hrun.
    destruct (pull_check _ _ _ _ _) as [[tk tv]|]; [|done].
    cbn [mbind option_bind] in Hrun.
    destruct (CHECK (tk =? length ks)%nat); [|done].
    cbn [mbind option_bind] in Hrun.
    destruct (if (length vb =? 0)%nat then _ else _) as [vb'|]; [|done].
    cbn [mbind option_bind] in Hrun.
    destruct (match lb with Some _ => _ | None => _ end) as [lb'|]; [|done].
    cbn [mbind option_bind] in Hrun.
    destruct cb; by injection Hrun as <-.
Qed.

Lemma RunCallback_outbox (ts : Z) (w w' : Worker) :
  RunCallback ts w = Some w' -> outbox (world w') = outbox (world w).
Proof.
  unfold RunCallback. intros Hrun.
  destruct (callbacks_ w !! ts) as [c|]; [|by injection Hrun as <-].
  destruct (call c _) as [w1|] eqn:Hc; [|done].
  cbn [mbind option_bind] in Hrun. injection Hrun as <-.
  apply call_outbox in Hc. cbn [world set_callbacks_]. by rewrite Hc.
Qed.

Lemma block_push_emits (ts : Z) (push pull : bool) (cmd : Z) (i : nat)
    (kvs : KVPairs float) (key0 : Key) (w w' : Worker) :
  block_push env ts push pull cmd i kvs key0 w = Some w' ->
  exists new,
    outbox (world w') = outbox (world w) ++ new
    /\ Forall terminal_on_channel_0 new.
Proof.
  unfold block_push. intros Hrun.
  set (w0 := if enable_block (cfg w) =? 0 then _ else w) in *.
  assert (Hw0 : world w0 = world w)
    by (subst w0; destruct (enable_block (cfg w) =? 0); reflexivity).
  destruct (CHECK (negb (block_size w0 =? 0))); [|done].
  cbn [mbind option_bind] in Hrun.
  destruct (CHECK (0 <=? udp_channel_num (rate w0) + 1)); [|done].
  cbn [mbind option_bind] in Hrun.
  destruct (block_loop env _ _ _ _ _ _ _ _ _ _ _ _ _ w0) as [w1|] eqn:Hloop; [|done].
  cbn [mbind option_bind] in Hrun.
  apply block_loop_frame in Hloop as (_ & _ & _ & _ & _ & _ & Hw1).
  destruct (rank_blocks env w1) as [ranked|]; [|done].
  cbn [mbind option_bind] in Hrun.
  destruct (dispatch_loop env 0 _ ranked _) as [w2|] eqn:Hd; [|done].
  cbn [mbind option_bind] in Hrun. injection Hrun as <-.
  apply dispatch_loop_emits in Hd as (new & Hout & Hall & _).
  exists new. split; [|done]. cbn in Hout |- *. by rewrite Hout, Hw1, Hw0.
Qed.

Lemma Send_shard_emits (ts : Z) (push pull : bool) (cmd : Z) (i : nat)
    (kvs : KVPairs float) (w w' : Worker) :
  Send_shard env ts push pull cmd i kvs w = Some w' ->
  exists new,
    outbox (world w') = outbox (world w) ++ new
    /\ Forall terminal_on_channel_0 new.
Proof.
  unfold Send_shard. intros Hrun.
  destruct (head (keys kvs)) as [key0|]; [|done].
  cbn [mbind option_bind] in Hrun. destruct push.
  - destruct (if key0 =? 0 then _ else _) as [w1|] eqn:Hb; [|done].
    cbn [mbind option_bind] in Hrun.
    assert (Hw1 : outbox (world w1) = outbox (world w)).
    { destruct (key0 =? 0); [by apply Send_step_boundary_outbox|].
      by injection Hb as <-. }
    destruct (push_op_num w1 =? 1).
    + injection Hrun as <-. eexists. cbn. rewrite Hw1. split; [done|].
      constructor; [|done]. unfold terminal_on_channel_0, first_push_msg, AddData_kv.
      cbn. destruct (length (keys kvs) =? 0)%nat; [cbn; lia|].
      destruct (length (lens kvs) =? 0)%nat; cbn; lia.
    + apply block_push_emits in Hrun as (new & Hout & Hall).
      exists new. by rewrite Hout, Hw1.
  - injection Hrun as <-. eexists. cbn. split; [done|].
    constructor; [|done]. unfold terminal_on_channel_0, pull_msg, AddData_kv.
    cbn. destruct (length (keys kvs) =? 0)%nat; [cbn; lia|].
    destruct (length (lens kvs) =? 0)%nat; cbn; lia.
Qed.

Lemma Send_loop_emits (ts : Z) (push pull : bool) (cmd : Z)
    (sliced : list (bool * KVPairs float)) :
  forall (i : nat) (w w' : Worker),
    Send_loop env ts push pull cmd i sliced w = Some w' ->
    exists new,
      outbox (world w') = outbox (world w) ++ new
      /\ Forall terminal_on_channel_0 new.
Proof.
  induction sliced as [|s sliced IH]; intros i w w' Hrun; cbn [Send_loop] in Hrun.
  - injection Hrun as <-. exists []. by rewrite app_nil_r.
  - destruct (negb (fst s)); [by apply IH in Hrun|].
    destruct (Send_shard env ts push pull cmd i (snd s) w) as [w1|] eqn:Hs; [|done].
    cbn [mbind option_bind] in Hrun.
    apply Send_shard_emits in Hs as (new1 & Hout1 & Hall1).
    apply IH in Hrun as (new2 & Hout2 & Hall2).
    exists (new1 ++ new2). rewrite Hout2, Hout1, app_assoc. split; [done|].
    by apply Forall_app.
Qed.

End SendEmits.

(** C1. Whatever [Send] hands to the van, every block-push message whose
    [seq] equals its [seq_end] leaves with channel [0], both in its
    [meta.channel] and in the channel passed to the van; the score of the
    block and the channel [Get_channel] gave it play no part. *)
Theorem Send_terminal_block_channel_0 (env : Env) (ts : Z) (push pull : bool)
    (cmd : Z) (kvs : KVPairs float) (w w' : Worker) :
  Send env ts push pull cmd kvs w = Some w' ->
  exists new,
    outbox (world w') = outbox (world w) ++ new
    /\ forall x, x ∈ new ->
       Meta.msg_type (Message.meta (wire_msg x)) = 2 ->
       Meta.seq (Message.meta (wire_msg x))
       = Meta.seq_end (Message.meta (wire_msg x)) ->
       wire_channel x = 0 /\ Meta.channel (Message.meta (wire_msg x)) = 0.
Proof.
  unfold Send. intros Hrun.
  destruct (DefaultSlicer kvs (GetServerKeyRanges env)) as [sliced|]; [|done].
  cbn [mbind option_bind] in Hrun.
  destruct (if (count_skipped sliced =? length sliced)%nat then _ else _)
    as [w1|] eqn:Hcb; [|done].
  cbn [mbind option_bind] in Hrun.
  assert (Hw1 : outbox (world w1) = outbox (world w)).
  { destruct (count_skipped sliced =? length sliced)%nat.
    - apply RunCallback_outbox in Hcb. by rewrite Hcb.
    - by injection Hcb as <-. }
  apply Send_loop_emits in Hrun as (new & Hout & Hall).
  exists new. rewrite Hout, Hw1. split; [done|].
  intros x Hx. rewrite Forall_forall in Hall. exact (Hall x Hx).
Qed.

(** ** Fragmentation *)

Lemma ceil_div_step (remain b : Z) :
  0 < b -> 0 < remain ->
  ceil_div remain b = 1 + ceil_div (remain - Z.min remain b) b.
Proof.
  intros Hb Hr. unfold ceil_div.
  destruct (Z.le_gt_cases b remain) as [Hge|Hlt].
  - rewrite Z.min_r by lia.
    replace (remain + b - 1) with ((remain - b + b - 1) + 1 * b) by ring.
    rewrite Z.div_add by lia. lia.
  - rewrite Z.min_l by lia.
    replace (remain - remain + b - 1) with (b - 1) by ring.
    rewrite (Z.div_small (b - 1)) by lia.
    assert (Hq : (remain + b - 1) / b = 1); [|lia].
    symmetry. apply (Z.div_unique _ _ 1 (remain - 1)); lia.
Qed.

Lemma ceil_div_0 (b : Z) : 0 < b -> ceil_div 0 b = 0.
Proof. intros Hb. unfold ceil_div. apply Z.div_small. lia. Qed.

Lemma ceil_div_pos (remain b : Z) : 0 < b -> 0 <= remain -> 0 <= ceil_div remain b.
Proof. intros Hb Hr. unfold ceil_div. apply Z.div_pos; lia. Qed.

Lemma seq_num_ceil (total b : Z) :
  0 < b -> 0 <= total ->
  (if Z.rem total b =? 0 then Z.quot total b else Z.quot total b + 1)
  = ceil_div total b.
Proof.
  intros Hb Ht. rewrite Z.rem_mod_nonneg, Z.quot_div_nonneg by lia.
  unfold ceil_div.
  pose proof (Z.div_mod total b ltac:(lia)) as Hdm.
  pose proof (Z.mod_pos_bound total b Hb) as Hmb.
  destruct (Z.eqb_spec (total mod b) 0) as [H0|Hn0].
  - apply (Z.div_unique _ _ _ (b - 1)); lia.
  - apply (Z.div_unique _ _ _ (total mod b - 1)); lia.
Qed.

Lemma expected_blocks_cons (b total first count : Z) :
  0 <= count ->
  expected_blocks b total first (1 + count)
  = (first, first * b, Z.min b (total - first * b))
      :: expected_blocks b total (first + 1) count.
Proof.
  intros Hc. unfold expected_blocks.
  rewrite seqZ_cons by lia. cbn [map]. do 3 f_equal; lia.
Qed.

Lemma sum_expected_blocks (b total : Z) (n : nat) :
  0 < b ->
  forall first : Z,
    0 <= total - first * b ->
    Z.of_nat n = ceil_div (total - first * b) b ->
    sum_Z (map snd (expected_blocks b total first (Z.of_nat n)))
    = total - first * b.
Proof.
  intros Hb. induction n as [|n IH]; intros first Hr Hn.
  - change (Z.of_nat 0) with 0 in *. unfold expected_blocks. rewrite seqZ_nil by lia.
    cbn. destruct (decide (total - first * b = 0)) as [|Hne]; [lia|].
    rewrite ceil_div_step in Hn by lia.
    pose proof (ceil_div_pos (total - first * b - Z.min (total - first * b) b) b
                  Hb ltac:(lia)). lia.
  - destruct (decide (total - first * b = 0)) as [H0|Hne].
    { rewrite H0, ceil_div_0 in Hn by lia. lia. }
    rewrite ceil_div_step in Hn by lia.
    replace (Z.of_nat (S n)) with (1 + Z.of_nat n) by lia.
    rewrite expected_blocks_cons by lia. cbn [map snd sum_Z foldr].
    destruct (Z.le_gt_cases b (total - first * b)) as [Hge|Hlt].
    + rewrite Z.min_r in Hn by lia. rewrite Z.min_l by lia.
      fold (sum_Z (map snd (expected_blocks b total (first + 1) (Z.of_nat n)))).
      rewrite IH; [lia|lia|].
      replace (total - (first + 1) * b) with (total - first * b - b) by ring. lia.
    + rewrite Z.min_l in Hn by lia. rewrite Z.min_r by lia.
      rewrite Z.sub_diag, ceil_div_0 in Hn by lia.
      assert (n = 0%nat) as -> by lia.
      change (Z.of_nat 0) with 0. unfold expected_blocks. rewrite seqZ_nil by lia.
      cbn. lia.
Qed.

Lemma sum_Z_Permutation (l1 l2 : list Z) :
  Permutation l1 l2 -> sum_Z l1 = sum_Z l2.
Proof. unfold sum_Z. induction 1; cbn in *; lia. Qed.

(** ** Sorting gives a permutation *)

Lemma insert_by_Permutation {A : Type} (lt : A -> A -> bool) (x : A) (l : list A) :
  Permutation (insert_by lt x l) (x :: l).
Proof.
  induction l as [|y l IH]; cbn; [done|].
  destruct (lt y x); [|done]. rewrite IH. apply perm_swap.
Qed.

Lemma sort_by_Permutation {A : Type} (lt : A -> A -> bool) (l : list A) :
  Permutation (sort_by lt l) l.
Proof.
  induction l as [|x l IH]; cbn; [done|].
  rewrite insert_by_Permutation. by constructor.
Qed.

Lemma imap_snd {A B : Type} (f : nat -> B) (l : list A) :
  map snd (imap (fun i x => (f i, x)) l) = l.
Proof.
  revert f. induction l as [|x l IH]; intros f; cbn; [done|].
  f_equal. apply (IH (f ∘ S)).
Qed.

Lemma shuffle_by_Permutation {A : Type} (rank : nat -> Z) (l : list A) :
  Permutation (shuffle_by rank l) l.
Proof.
  unfold shuffle_by. rewrite sort_by_Permutation. by rewrite imap_snd.
Qed.

Lemma interval_length_Z {A : Type} (a : list A) (vb l : Z) :
  0 <= vb -> 0 <= l -> vb + l <= Z.of_nat (length a) ->
  Z.of_nat (length (interval a (Z.to_nat vb) (Z.to_nat (vb + l)))) = l.
Proof.
  intros Hvb Hl Hle. unfold interval. rewrite length_take, length_drop. lia.
Qed.

Section BlockLoop.

Variable env : Env.
Variables (ts : Z) (push pull : bool) (cmd : Z) (i : nat).
Variables (kvs : KVPairs float) (key0 : Key).
Variables (total seq_num b : Z).
Hypothesis Hkeys : keys kvs <> [].
Hypothesis Htotal : total = Z.of_nat (length (vals kvs)).
Hypothesis Hb : 0 < b.

Lemma block_msg_view (val_bytes seq : Z) (tmp_val : list float) (c : float)
    (w : Worker) :
  let m := Message.set_contri c
             (block_msg env ts push pull cmd i kvs key0 total val_bytes seq
                seq_num tmp_val w) in
  block_view m = (seq, val_bytes, Z.of_nat (length tmp_val))
  /\ block_meta_ok (seq_num - 1) total m.
Proof.
  unfold block_msg, AddData_kv, block_view, block_meta_ok, msg_weights.
  destruct (Nat.eqb_spec (length (keys kvs)) 0) as [H0|_].
  { by apply length_zero_iff_nil in H0. }
  destruct (length (lens kvs) =? 0)%nat; cbn; done.
Qed.

Lemma block_loop_frames (fuel : nat) :
  forall (remain val_bytes seq : Z) (w : Worker),
    clear_zero (cfg w) = 0 -> block_size w = b ->
    0 <= remain -> 0 <= val_bytes -> val_bytes + remain = total ->
    (remain <> 0 -> val_bytes = seq * b) ->
    (Z.to_nat remain <= fuel)%nat ->
    exists w' frames,
      block_loop env fuel ts push pull cmd i kvs key0 total seq_num
        remain val_bytes seq w = Some w'
      /\ scoring_only w w'
      /\ msg_vector w' = msg_vector w ++ frames
      /\ map block_view frames = expected_blocks b total seq (ceil_div remain b)
      /\ Forall (block_meta_ok (seq_num - 1) total) frames.
Proof.
  induction fuel as [|fuel IH];
    intros remain val_bytes seq w Hcz Hbs Hrem Hvb0 Hsum Hvb Hfuel.
  - assert (remain = 0) as -> by lia. cbn [block_loop]. cbn.
    exists w, []. rewrite app_nil_r, ceil_div_0 by done.
    split; [done|]. split; [apply scoring_only_refl|]. by repeat split.
  - cbn [block_loop]. destruct (Z.eqb_spec remain 0) as [->|Hne].
    { exists w, []. rewrite app_nil_r, ceil_div_0 by done.
      split; [done|]. split; [apply scoring_only_refl|]. by repeat split. }
    rewrite Hbs. set (l := Z.min remain b).
    assert (Hl : 0 < l <= remain) by (subst l; lia).
    rewrite segment_interval_Z by lia. cbn [mbind option_bind].
    set (tmp_val := interval (vals kvs) (Z.to_nat val_bytes) (Z.to_nat (val_bytes + l))).
    set (msg := block_msg env ts push pull cmd i kvs key0 total val_bytes seq
                  seq_num tmp_val w).
    destruct (Evaluate_msg_contri (to_int32 key0) msg w) as [c w1] eqn:He.
    pose proof (Evaluate_msg_contri_frame (to_int32 key0) msg w) as [Hf Hmv].
    rewrite He in Hf, Hmv. cbn [snd] in Hf, Hmv.
    assert (Hcz1 : clear_zero (cfg w1) = 0)
      by (destruct Hf as (-> & _); exact Hcz).
    rewrite Hcz1. cbn [Z.eqb negb].
    set (w2 := set_msg_vector (msg_vector w1 ++ [Message.set_contri c msg]) w1).
    destruct (IH (remain - l) (val_bytes + l) (seq + 1) w2)
      as (w' & frames & Hrun & Hfr & Hvec & Hview & Hmeta); try lia.
    + subst w2. cbn. exact Hcz1.
    + subst w2. cbn. destruct Hf as (_ & -> & _). exact Hbs.
    + exists w', (Message.set_contri c msg :: frames).
      split; [exact Hrun|]. split.
      { eapply scoring_only_trans; [exact Hf|].
        eapply scoring_only_trans; [apply set_msg_vector_frame|exact Hfr]. }
      split. { rewrite Hvec. subst w2. cbn. by rewrite Hmv, <- app_assoc. }
      destruct (block_msg_view val_bytes seq tmp_val c w) as [Hv Hm].
      fold msg in Hv, Hm. split; [|by constructor].
      cbn [map]. rewrite Hv, Hview, (ceil_div_step remain b) by lia.
      rewrite expected_blocks_cons by (apply ceil_div_pos; lia).
      fold l. subst tmp_val. rewrite interval_length_Z by lia.
      rewrite (Hvb Hne). do 2 f_equal. subst l. lia.
Qed.

End BlockLoop.

Section Dispatch.

Variable env : Env.

Lemma Get_channel_is_Some (index max_index C : Z) (k : float) :
  C <> 0 -> is_Some (Get_channel env index max_index C k).
Proof.
  intros HC. unfold Get_channel.
  destruct (index <? _); [done|].
  destruct (Get_channel_loop _ _ _ _ _ _); [done|].
  by destruct (Z.eqb_spec C 0).
Qed.

Lemma dispatch_loop_total (ms : list Message.t) :
  forall (j size : Z) (w : Worker),
    udp_channel_num (rate w) <> 0 ->
    is_Some (dispatch_loop env j size ms w).
Proof.
  induction ms as [|m ms IH]; intros j size w HC; cbn [dispatch_loop]; [done|].
  destruct (Get_channel_is_Some j (size - 1) _ (dmlc_k (rate w)) HC) as [c ->].
  cbn [mbind option_bind]. apply IH.
  by destruct (negb (enable_dgt (cfg w) =? 0)).
Qed.

Lemma rank_blocks_Permutation (w : Worker) :
  msg_vector w <> [] ->
  exists ranked,
    rank_blocks env w = Some ranked /\ Permutation ranked (msg_vector w).
Proof.
  intros Hne. unfold rank_blocks.
  destruct (Nat.eqb_spec (length (msg_vector w)) 0) as [H0|_].
  { by apply length_zero_iff_nil in H0. }
  destruct (negb (set_random (cfg w) =? 0)); eexists; (split; [done|]).
  - rewrite shuffle_by_Permutation. by rewrite take_drop.
  - rewrite sort_by_Permutation. by rewrite take_drop.
Qed.

End Dispatch.

Lemma block_view_set_channel (c : Z) (m : Message.t) :
  block_view (Message.set_channel c m) = block_view m.
Proof. reflexivity. Qed.

Lemma block_meta_ok_set_channel (c se t : Z) (m : Message.t) :
  block_meta_ok se t (Message.set_channel c m) <-> block_meta_ok se t m.
Proof. reflexivity. Qed.

Lemma emitted_views (new : list Wire) (ms : list Message.t) :
  Forall2 (fun x m => exists c, wire_msg x = Message.set_channel c m) new ms ->
  map (fun x => block_view (wire_msg x)) new = map block_view ms
  /\ forall se t, Forall (block_meta_ok se t) ms ->
       Forall (fun x => block_meta_ok se t (wire_msg x)) new.
Proof.
  induction 1 as [|x m new ms (c & Hx) Hrest [IHv IHm]]; [by split|].
  split.
  - cbn [map]. by rewrite Hx, block_view_set_channel, IHv.
  - intros se t Hall. apply Forall_cons in Hall as [Hm Hall].
    constructor; [|by apply IHm]. rewrite Hx. by apply block_meta_ok_set_channel.
Qed.

(** A pushed shard whose first key is not [0] goes block-wise unless the
    worker is in its first step. *)
Lemma Send_shard_block_path (env : Env) (ts : Z) (pull : bool) (cmd : Z)
    (i : nat) (kvs : KVPairs float) (key0 : Key) (w : Worker) :
  head (keys kvs) = Some key0 -> key0 <> 0 -> push_op_num w <> 1 ->
  Send_shard env ts true pull cmd i kvs w
  = block_push env ts true pull cmd i kvs key0 w.
Proof.
  intros Hk H0 Hop. unfold Send_shard. rewrite Hk. cbn [mbind option_bind].
  destruct (Z.eqb_spec key0 0); [done|]. cbn [mbind option_bind].
  by destruct (Z.eqb_spec (push_op_num w) 1).
Qed.

(** C3 (as amended). For a non-empty shard with a non-empty payload, sent
    block-wise with an effective block size [b > 0], the zero-contribution
    filter off and at least one lossy channel, the emitted block-push
    messages carry exactly the sequence numbers [0..seq_end] with
    [seq_end = ceil(total_bytes / b) - 1]; the block of sequence number [s]
    starts at offset [s * b] and holds [min(b, total_bytes - s * b)]
    values; and the lengths of the value slices add up to the shard's
    [|vals|]. *)
Theorem block_push_fragments (env : Env) (ts : Z) (push pull : bool) (cmd : Z)
    (i : nat) (kvs : KVPairs float) (key0 : Key) (w : Worker) :
  keys kvs <> [] ->
  msg_vector w = [] ->
  clear_zero (cfg w) = 0 ->
  let total := Z.of_nat (length (vals kvs)) in
  let b := effective_block_size w total in
  0 < b -> 0 < total -> 1 <= udp_channel_num (rate w) ->
  exists w' new,
    block_push env ts push pull cmd i kvs key0 w = Some w'
    /\ outbox (world w') = outbox (world w) ++ new
    /\ Permutation (map (fun x => block_view (wire_msg x)) new)
         (expected_blocks b total 0 (ceil_div total b - 1 + 1))
    /\ Forall (fun x => block_meta_ok (ceil_div total b - 1) total (wire_msg x)) new
    /\ sum_Z (map (fun x => Z.of_nat (length (msg_weights (wire_msg x)))) new)
       = total
    /\ msg_vector w' = [].
Proof.
  intros Hkeys Hmv Hcz total b Hb Htot HC.
  unfold block_push. fold total.
  set (w0 := if enable_block (cfg w) =? 0 then set_block_size total w else w).
  assert (Hw0 : cfg w0 = cfg w /\ rate w0 = rate w /\ world w0 = world w
                /\ msg_vector w0 = msg_vector w /\ block_size w0 = b).
  { subst w0 b. unfold effective_block_size.
    destruct (enable_block (cfg w) =? 0); by repeat split. }
  destruct Hw0 as (Hcfg0 & Hrate0 & Hworld0 & Hmv0 & Hbs0).
  rewrite Hbs0. destruct (Z.eqb_spec b 0) as [|_]; [lia|].
  cbn [negb CHECK mbind option_bind].
  rewrite Hrate0. destruct (Z.leb_spec 0 (udp_channel_num (rate w) + 1)); [|lia].
  cbn [CHECK mbind option_bind].
  rewrite seq_num_ceil by lia.
  destruct (block_loop_frames env ts push pull cmd i kvs key0 total
              (ceil_div total b) b Hkeys eq_refl Hb (Z.to_nat total)
              total 0 0 w0)
    as (w1 & frames & Hloop & Hfr & Hvec & Hview & Hmeta); try lia.
  { by rewrite Hcfg0. }
  rewrite Hloop. cbn [mbind option_bind].
  rewrite Hmv0, Hmv, app_nil_l in Hvec.
  assert (Hcnt : 0 < ceil_div total b).
  { rewrite (ceil_div_step total b) by lia.
    pose proof (ceil_div_pos (total - Z.min total b) b Hb ltac:(lia)). lia. }
  assert (Hne : msg_vector w1 <> []).
  { rewrite Hvec. intros ->. cbn in Hview. unfold expected_blocks in Hview.
    rewrite seqZ_cons in Hview by lia. discriminate. }
  destruct (rank_blocks_Permutation env w1 Hne) as (ranked & Hrank & Hperm).
  rewrite Hrank. cbn [mbind option_bind].
  destruct Hfr as (Hcfg1 & _ & Hrate1 & _ & _ & _ & Hworld1).
  destruct (dispatch_loop_total env ranked 0 (Z.of_nat (length ranked))
              (set_msg_vector ranked w1)) as [w2 Hd].
  { cbn. rewrite Hrate1, Hrate0. lia. }
  rewrite Hd. cbn [mbind option_bind].
  apply dispatch_loop_emits in Hd as (new & Hout & _ & Hmsgs & _).
  destruct (emitted_views new ranked Hmsgs) as [Hviews Hmetas].
  exists (set_msg_vector [] w2), new. split; [done|].
  split. { cbn in Hout |- *. by rewrite Hout, Hworld1, Hworld0. }
  assert (Hpv : Permutation (map (fun x => block_view (wire_msg x)) new)
                  (expected_blocks b total 0 (ceil_div total b - 1 + 1))).
  { rewrite Hviews, Hperm, Hvec, Hview. by replace (ceil_div total b - 1 + 1)
      with (ceil_div total b) by lia. }
  split; [exact Hpv|]. split.
  { apply Hmetas. rewrite Hperm, Hvec. exact Hmeta. }
  split; [|done].
  replace (map (fun x => Z.of_nat (length (msg_weights (wire_msg x)))) new)
    with (map snd (map (fun x => block_view (wire_msg x)) new))
    by (rewrite map_map; reflexivity).
  rewrite (sum_Z_Permutation _ _ (Permutation_map snd Hpv)).
  replace (ceil_div total b - 1 + 1) with (Z.of_nat (Z.to_nat (ceil_div total b))) by lia.
  rewrite sum_expected_blocks; try lia.
  replace (total - 0 * b) with total by lia. lia.
Qed.

(** ** Pull reassembly *)

Section SortUnique.

Context {A : Type}.
Variable key : A -> Z.

Lemma insert_by_place (x : A) (s1 s2 : list A) :
  Forall (fun y => key y < key x) s1 ->
  Forall (fun y => key x < key y) s2 ->
  insert_by (fun a b => key a <? key b) x (s1 ++ s2) = s1 ++ x :: s2.
Proof.
  intros H1 H2. induction H1 as [|y s1 Hy H1 IH]; cbn.
  - destruct H2 as [|z s2 Hz H2]; [done|]. cbn.
    destruct (Z.ltb_spec (key z) (key x)); [lia|done].
  - destruct (Z.ltb_spec (key y) (key x)); [|lia]. by rewrite IH.
Qed.

Lemma sort_by_unique (l : list A) :
  forall sorted : list A,
    StronglySorted (fun a b => key a < key b) sorted ->
    Permutation l sorted ->
    sort_by (fun a b => key a <? key b) l = sorted.
Proof.
  induction l as [|x l IH]; intros sorted Hs Hp.
  - apply Permutation_nil in Hp. by subst.
  - assert (Hx : x ∈ sorted) by (rewrite <- Hp; left).
    apply list_elem_of_split in Hx as (s1 & s2 & ->).
    apply Permutation_cons_app_inv in Hp.
    apply StronglySorted_app in Hs as (H12 & Hs1 & Hs2).
    apply StronglySorted_cons in Hs2 as [Hx2 Hs2].
    cbn [sort_by]. rewrite (IH (s1 ++ s2)).
    + apply insert_by_place; [|done].
      apply Forall_forall. intros y Hy. apply H12; [done|left].
    + apply StronglySorted_app_2; [|done..].
      intros a b Ha Hb. apply H12; [done|by right].
    + done.
Qed.

End SortUnique.

Lemma ordered_fronts_sorted (ordered : list (KVPairs float)) :
  ascending (concat (map keys ordered)) ->
  Forall (fun s => keys s <> []) ordered ->
  StronglySorted (fun a b => front_key a < front_key b) ordered.
Proof.
  induction ordered as [|s rest IH]; intros Hasc Hne; [constructor|].
  apply Forall_cons in Hne as [Hs Hne]. cbn in Hasc.
  apply StronglySorted_app in Hasc as (H12 & _ & Hrest).
  constructor; [by apply IH|].
  apply Forall_forall. intros b Hb. apply H12.
  - unfold front_key. destruct (keys s); [done|left].
  - apply elem_of_concat. exists (keys b). split.
    + apply list_elem_of_fmap. by exists b.
    + rewrite Forall_forall in Hne. specialize (Hne b Hb).
      unfold front_key. destruct (keys b); [done|left].
Qed.

Lemma length_concat_Permutation {A B : Type} (f : A -> list B) (l1 l2 : list A) :
  Permutation l1 l2 ->
  length (concat (map f l1)) = length (concat (map f l2)).
Proof.
  induction 1; cbn; rewrite ?length_app; cbn in *; rewrite ?length_app in *; lia.
Qed.

Lemma nth_middle_segment (pre mid post : list Key) (j : nat) :
  (j < length mid)%nat ->
  nth (length pre + j) (pre ++ mid ++ post) 0 = nth j mid 0.
Proof.
  intros Hj. rewrite app_nth2_plus. by apply app_nth1.
Qed.

Lemma FindRange_segment (pre mid post : list Key) (front back : Key) :
  ascending (pre ++ mid ++ post) ->
  head mid = Some front -> last mid = Some back ->
  FindRange (pre ++ mid ++ post) front (back + 1)
  = (length pre, (length pre + length mid)%nat).
Proof.
  intros Hasc Hfront Hback. set (ks := pre ++ mid ++ post) in *.
  assert (Hmid : (0 < length mid)%nat) by (destruct mid; [done|cbn; lia]).
  assert (Hlen : length ks = (length pre + length mid + length post)%nat)
    by (subst ks; rewrite !length_app; lia).
  assert (Hnf : nth (length pre) ks 0 = front).
  { replace (length pre) with (length pre + 0)%nat by lia.
    subst ks. rewrite nth_middle_segment by done. by destruct mid; inversion Hfront. }
  assert (Hnb : nth (length pre + (length mid - 1)) ks 0 = back).
  { subst ks. rewrite nth_middle_segment by lia.
    rewrite last_lookup in Hback. apply nth_lookup_Some with (d := 0) in Hback.
    by replace (length mid - 1)%nat with (pred (length mid)) by lia. }
  assert (Hfb : front <= back).
  { rewrite <- Hnf, <- Hnb. apply ascending_nth_le; [done|lia]. }
  unfold FindRange. destruct (Z.leb_spec (back + 1) front); [lia|].
  destruct (lower_bound_spec ks front 0 Hasc ltac:(lia)) as (_ & Hl1 & Hh1).
  destruct (lower_bound_spec ks (back + 1) 0 Hasc ltac:(lia)) as (Hr2 & Hl2 & Hh2).
  set (r1 := lower_bound ks 0 (length ks) front) in *.
  set (r2 := lower_bound ks 0 (length ks) (back + 1)) in *.
  f_equal.
  - destruct (Nat.lt_trichotomy r1 (length pre)) as [Hlt|[Heq|Hgt]]; [|done|].
    + specialize (Hh1 r1 ltac:(lia)).
      assert (nth r1 ks 0 < nth (length pre) ks 0)
        by (apply ascending_nth; [done|lia]). lia.
    + specialize (Hl1 (length pre) ltac:(lia)). lia.
  - destruct (Nat.lt_trichotomy r2 (length pre + length mid)) as [Hlt|[Heq|Hgt]];
      [|done|].
    + specialize (Hh2 (length pre + (length mid - 1))%nat ltac:(lia)). lia.
    + specialize (Hl2 (length pre + length mid)%nat ltac:(lia)).
      assert (nth (length pre + (length mid - 1)) ks 0
              < nth (length pre + length mid) ks 0)
        by (apply ascending_nth; [done|lia]). lia.
Qed.

Lemma pull_check_ok (ks : list Key) (has_lens : bool) (l : list (KVPairs float)) :
  ascending ks ->
  Key_max ∉ ks ->
  Forall (fun s => keys s <> []
                   /\ (exists pre post, ks = pre ++ keys s ++ post)
                   /\ (has_lens = true -> length (lens s) = length (keys s))) l ->
  forall tk tv : nat,
    pull_check ks has_lens l tk tv
    = Some ((tk + length (concat (map keys l)))%nat,
            (tv + length (concat (map vals l)))%nat).
Proof.
  intros Hasc Hmax Hall.
  induction Hall as [|s l (Hne & (pre & post & Hseg) & Hlens) Hall IH];
    intros tk tv.
  - cbn. by rewrite !Nat.add_0_r.
  - cbn [pull_check].
    destruct (head (keys s)) as [front|] eqn:Hfront;
      [|by destruct (keys s)].
    destruct (last (keys s)) as [back|] eqn:Hback;
      [|by apply last_None in Hback].
    cbn [mbind option_bind].
    assert (Hsucc : key_succ back = back + 1).
    { unfold key_succ. destruct (Z.eqb_spec back Key_max) as [->|]; [|done].
      exfalso. apply Hmax. rewrite Hseg.
      apply last_Some in Hback as [l' Hl']. rewrite Hl', !elem_of_app.
      right; left; right. by left. }
    rewrite Hsucc. rewrite Hseg in Hasc |- *.
    rewrite (FindRange_segment pre (keys s) post front back Hasc Hfront Hback).
    cbn [fst snd].
    replace (Z.of_nat (length pre + length (keys s)) - Z.of_nat (length pre)
             =? Z.of_nat (length (keys s))) with true
      by (symmetry; apply Z.eqb_eq; lia).
    cbn [CHECK mbind option_bind].
    rewrite <- Hseg in *.
    assert (Hl : (if has_lens
                  then CHECK (length (lens s) =? length (keys s))%nat
                  else Some tt) = Some tt).
    { destruct has_lens; [|done]. by rewrite Hlens, Nat.eqb_refl. }
    rewrite Hl. cbn [mbind option_bind]. rewrite IH by done.
    cbn [map concat]. rewrite !length_app. do 2 f_equal; lia.
Qed.

Lemma covers_segment (ordered : list (KVPairs float)) (s : KVPairs float) :
  s ∈ ordered ->
  exists pre post, concat (map keys ordered) = pre ++ keys s ++ post.
Proof.
  intros Hs. apply list_elem_of_split in Hs as (o1 & o2 & ->).
  exists (concat (map keys o1)), (concat (map keys o2)).
  by rewrite map_app, concat_app.
Qed.

Lemma memcpy_take {A : Type} (dst src : list A) (off : nat) :
  (off <= length dst)%nat ->
  take (off + length src) (memcpy dst off src) = take off dst ++ src.
Proof.
  intros H. unfold memcpy. rewrite app_assoc.
  apply take_app_length'. rewrite length_app, length_take. lia.
Qed.

Lemma memcpy_drop {A : Type} (dst src : list A) (off n : nat) :
  (off <= length dst)%nat ->
  drop (off + length src + n) (memcpy dst off src)
  = drop (off + length src + n) dst.
Proof.
  intros H. unfold memcpy. rewrite app_assoc, drop_app_ge
    by (rewrite length_app, length_take; lia).
  rewrite length_app, length_take, drop_drop. f_equal. lia.
Qed.

Lemma memcpy_length {A : Type} (dst src : list A) (off : nat) :
  (off + length src <= length dst)%nat ->
  length (memcpy dst off src) = length dst.
Proof.
  intros H. unfold memcpy. rewrite !length_app, length_take, length_drop. lia.
Qed.

Lemma pull_fill_vals (l : list (KVPairs float)) :
  forall (vb : list float) (p : nat) (lb : option (list Z)) (q : nat),
    (p + length (concat (map vals l)) <= length vb)%nat ->
    fst (pull_fill l vb p lb q)
    = take p vb ++ concat (map vals l)
        ++ drop (p + length (concat (map vals l))) vb.
Proof.
  induction l as [|s l IH]; intros vb p lb q Hlen.
  - cbn. rewrite Nat.add_0_r. by rewrite take_drop.
  - cbn [map concat] in Hlen |- *. rewrite length_app in Hlen |- *.
    cbn [pull_fill].
    assert (Hstep : forall lb' q',
               fst (pull_fill l (memcpy vb p (vals s)) (p + length (vals s)) lb' q')
               = take p vb ++ (vals s ++ concat (map vals l))
                   ++ drop (p + (length (vals s) + length (concat (map vals l)))) vb).
    { intros lb' q'. rewrite IH by (rewrite memcpy_length; lia).
      rewrite memcpy_take, memcpy_drop by lia.
      rewrite <- !app_assoc. do 4 f_equal. lia. }
    destruct lb; apply Hstep.
Qed.

Lemma pull_fill_lens (l : list (KVPairs float)) :
  forall (vb : list float) (p : nat) (lb : list Z) (q : nat),
    (q + length (concat (map lens l)) <= length lb)%nat ->
    snd (pull_fill l vb p (Some lb) q)
    = Some (take q lb ++ concat (map lens l)
              ++ drop (q + length (concat (map lens l))) lb).
Proof.
  induction l as [|s l IH]; intros vb p lb q Hlen.
  - cbn. rewrite Nat.add_0_r. by rewrite take_drop.
  - cbn [map concat] in Hlen |- *. rewrite length_app in Hlen |- *.
    cbn [pull_fill]. rewrite IH by (rewrite memcpy_length; lia).
    rewrite memcpy_take, memcpy_drop by lia.
    rewrite <- !app_assoc. do 5 f_equal. lia.
Qed.

Lemma pull_fill_no_lens (l : list (KVPairs float)) :
  forall (vb : list float) (p q : nat), snd (pull_fill l vb p None q) = None.
Proof. induction l as [|s l IH]; intros vb p q; cbn; [done|apply IH]. Qed.

Lemma fill_whole {A : Type} (buf data : list A) :
  length buf = length data ->
  take 0 buf ++ data ++ drop (0 + length data) buf = data.
Proof.
  intros H. cbn. rewrite drop_ge by lia. by rewrite app_nil_r.
Qed.


(** ** Callback registry *)

Lemma fired_log_event (ts : Z) (e : Event) (w : Worker) :
  fired ts (log_event e w)
  = (fired ts w + if decide (e = EvCallback ts) then 1 else 0)%nat.
Proof.
  unfold fired, log_event. cbn. rewrite filter_app, length_app. f_equal.
  rewrite filter_cons, filter_nil. by destruct (decide (e = EvCallback ts)).
Qed.

Lemma call_registry (c : Callback) (w w' : Worker) :
  call c w = Some w' ->
  callbacks_ w' = callbacks_ w /\ forall ts, fired ts w' = fired ts w.
Proof.
  destruct c as [id|ts0 ks vb lb cb]; cbn [call]; intros Hrun.
  - injection Hrun as <-. split; [done|]. intros ts.
    rewrite fired_log_event. destruct (decide _); [done|lia].
  - unfold pull_callback in Hrun.
    destruct (pull_check _ _ _ _ _) as [[tk tv]|]; [|done].
    cbn [mbind option_bind] in Hrun.
    destruct (CHECK (tk =? length ks)%nat); [|done].
    cbn [mbind option_bind] in Hrun.
    destruct (if (length vb =? 0)%nat then _ else _) as [vb'|]; [|done].
    cbn [mbind option_bind] in Hrun.
    destruct (match lb with Some _ => _ | None => _ end) as [lb'|]; [|done].
    cbn [mbind option_bind] in Hrun.
    destruct cb as [id|]; injection Hrun as <-; (split; [done|]); intros ts.
    + rewrite fired_log_event. destruct (decide _); [done|]. unfold fired. cbn. lia.
    + done.
Qed.

Lemma RunCallback_unknown (ts : Z) (w : Worker) :
  callbacks_ w !! ts = None -> RunCallback ts w = Some w.
Proof. intros H. unfold RunCallback. by rewrite H. Qed.

Lemma RunCallback_registered (ts : Z) (c : Callback) (w w' : Worker) :
  callbacks_ w !! ts = Some c ->
  RunCallback ts w = Some w' ->
  callbacks_ w' = delete ts (callbacks_ w)
  /\ forall ts', fired ts' w' = (fired ts' w + if decide (ts' = ts) then 1 else 0)%nat.
Proof.
  intros Hc Hrun. unfold RunCallback in Hrun. rewrite Hc in Hrun.
  destruct (call c _) as [w1|] eqn:Hcall; [|done].
  cbn [mbind option_bind] in Hrun. injection Hrun as <-.
  apply call_registry in Hcall as [Hcb Hf]. cbn in Hcb.
  split; [cbn; by rewrite Hcb|].
  intros ts'. change (fired ts' (set_callbacks_ _ w1)) with (fired ts' w1).
  rewrite Hf, fired_log_event.
  destruct (decide (EvCallback ts = EvCallback ts')) as [He|He];
    destruct (decide (ts' = ts)) as [Ht|Ht]; try done; congruence.
Qed.

Lemma RunCallback_user_total (ts id : Z) (w : Worker) :
  callbacks_ w !! ts = Some (UserCb id) ->
  RunCallback ts w
  = Some (set_callbacks_ (delete ts (callbacks_ w))
            (log_event (EvUser id) (log_event (EvCallback ts) w))).
Proof. intros H. unfold RunCallback. by rewrite H. Qed.

Lemma RunCallback_ts_step (ts ts' : Z) (w w' : Worker) :
  RunCallback ts' w = Some w' -> ts_step ts w w'.
Proof.
  intros Hrun. destruct (callbacks_ w !! ts') as [c'|] eqn:Hc'.
  - destruct (RunCallback_registered ts' c' w w' Hc' Hrun) as [Hcb Hf].
    destruct (decide (ts = ts')) as [->|Hne].
    + right. rewrite Hcb, lookup_delete_eq, Hf.
      destruct (decide (ts' = ts')); [|done]. split; [by exists c'|]. split; [done|lia].
    + left. rewrite Hcb, lookup_delete_ne, Hf by done.
      destruct (decide (ts = ts')); [done|]. split; [done|lia].
  - rewrite (RunCallback_unknown ts' w Hc') in Hrun. injection Hrun as <-. by left.
Qed.

Lemma registry_same_refl (w : Worker) : registry_same w w.
Proof. by split. Qed.

Lemma registry_same_trans (w1 w2 w3 : Worker) :
  registry_same w1 w2 -> registry_same w2 w3 -> registry_same w1 w3.
Proof. intros [A1 A2] [B1 B2]. split; congruence. Qed.

Lemma registry_same_ts_step (ts : Z) (w w' : Worker) :
  registry_same w w' -> ts_step ts w w'.
Proof. intros [Hcb Hlog]. left. unfold fired. by rewrite Hcb, Hlog. Qed.

Lemma ts_step_trans (ts : Z) (w1 w2 w3 : Worker) :
  ts_step ts w1 w2 -> ts_step ts w2 w3 -> ts_step ts w1 w3.
Proof.
  intros [[A1 A2]|(A0 & A1 & A2)] [[B1 B2]|(B0 & B1 & B2)].
  - left. split; congruence.
  - right. rewrite <- A1, <- A2. by repeat split.
  - right. split; [done|]. split; congruence.
  - destruct B0 as [c Hc]. congruence.
Qed.

Lemma scoring_only_registry (w w' : Worker) :
  scoring_only w w' -> registry_same w w'.
Proof. intros (_ & _ & _ & _ & _ & Hcb & Hw). split; [done|by rewrite Hw]. Qed.

Section SendRegistry.

Variable env : Env.

Lemma Send_step_boundary_registry (w w' : Worker) :
  Send_step_boundary env w = Some w' -> registry_same w w'.
Proof.
  unfold Send_step_boundary. intros Hrun.
  destruct (1 <? push_op_num (set_push_op_num (push_op_num w + 1) w)).
  - unfold Update_loss_delta in Hrun.
    destruct (fp (rate (set_push_op_num (push_op_num w + 1) w))); [|done].
    cbn [mbind option_bind] in Hrun.
    destruct (negb _) in Hrun; by injection Hrun as <-.
  - unfold init_dgt, Open_loss_file in Hrun.
    destruct (DMLC_K env), (DMLC_K_MIN env), (ADAPTIVE_K_FLAG env),
      (DMLC_UDP_CHANNEL_NUM env); try done.
    cbn [mbind option_bind] in Hrun. injection Hrun as <-.
    by destruct (fopen_ok env).
Qed.

Lemma dispatch_loop_registry (ms : list Message.t) :
  forall (j size : Z) (w w' : Worker),
    dispatch_loop env j size ms w = Some w' -> registry_same w w'.
Proof.
  induction ms as [|m ms IH]; intros j size w w' Hrun; cbn [dispatch_loop] in Hrun.
  - injection Hrun as <-. apply registry_same_refl.
  - destruct (Get_channel env j (size - 1) _ _) as [c|]; [|done].
    cbn [mbind option_bind] in Hrun. apply IH in Hrun.
    eapply registry_same_trans; [|exact Hrun].
    by destruct (negb (enable_dgt (cfg w) =? 0)).
Qed.

Lemma block_push_registry (ts : Z) (push pull : bool) (cmd : Z) (i : nat)
    (kvs : KVPairs float) (key0 : Key) (w w' : Worker) :
  block_push env ts push pull cmd i kvs key0 w = Some w' -> registry_same w w'.
Proof.
  unfold block_push. intros Hrun.
  set (w0 := if enable_block (cfg w) =? 0 then _ else w) in *.
  assert (Hw0 : registry_same w w0)
    by (subst w0; destruct (enable_block (cfg w) =? 0); by split).
  destruct (CHECK (negb (block_size w0 =? 0))); [|done].
  cbn [mbind option_bind] in Hrun.
  destruct (CHECK (0 <=? udp_channel_num (rate w0) + 1)); [|done].
  cbn [mbind option_bind] in Hrun.
  destruct (block_loop env _ _ _ _ _ _ _ _ _ _ _ _ _ w0) as [w1|] eqn:Hloop; [|done].
  cbn [mbind option_bind] in Hrun.
  apply block_loop_frame, scoring_only_registry in Hloop.
  destruct (rank_blocks env w1) as [ranked|]; [|done].
  cbn [mbind option_bind] in Hrun.
  destruct (dispatch_loop env 0 _ ranked _) as [w2|] eqn:Hd; [|done].
  cbn [mbind option_bind] in Hrun. injection Hrun as <-.
  apply dispatch_loop_registry in Hd.
  eapply registry_same_trans; [exact Hw0|].
  eapply registry_same_trans; [exact Hloop|].
  eapply registry_same_trans; [|split; reflexivity].
  eapply registry_same_trans; [|exact Hd]. by split.
Qed.

Lemma Send_shard_registry (ts : Z) (push pull : bool) (cmd : Z) (i : nat)
    (kvs : KVPairs float) (w w' : Worker) :
  Send_shard env ts push pull cmd i kvs w = Some w' -> registry_same w w'.
Proof.
  unfold Send_shard. intros Hrun.
  destruct (head (keys kvs)) as [key0|]; [|done].
  cbn [mbind option_bind] in Hrun. destruct push.
  - destruct (if key0 =? 0 then _ else _) as [w1|] eqn:Hb; [|done].
    cbn [mbind option_bind] in Hrun.
    assert (Hw1 : registry_same w w1).
    { destruct (key0 =? 0); [by apply Send_step_boundary_registry|].
      injection Hb as <-. apply registry_same_refl. }
    eapply registry_same_trans; [exact Hw1|].
    destruct (push_op_num w1 =? 1).
    + injection Hrun as <-. by split.
    + by apply block_push_registry in Hrun.
  - injection Hrun as <-. by split.
Qed.

Lemma Send_loop_registry (ts : Z) (push pull : bool) (cmd : Z)
    (sliced : list (bool * KVPairs float)) :
  forall (i : nat) (w w' : Worker),
    Send_loop env ts push pull cmd i sliced w = Some w' -> registry_same w w'.
Proof.
  induction sliced as [|s sliced IH]; intros i w w' Hrun; cbn [Send_loop] in Hrun.
  - injection Hrun as <-. apply registry_same_refl.
  - destruct (negb (fst s)); [by apply IH in Hrun|].
    destruct (Send_shard env ts push pull cmd i (snd s) w) as [w1|] eqn:Hs; [|done].
    cbn [mbind option_bind] in Hrun.
    apply Send_shard_registry in Hs. apply IH in Hrun.
    by eapply registry_same_trans.
Qed.

Lemma Send_loop_all_skipped (ts : Z) (push pull : bool) (cmd : Z)
    (sliced : list (bool * KVPairs float)) :
  forall (i : nat) (w : Worker),
    count_skipped sliced = length sliced ->
    Send_loop env ts push pull cmd i sliced w = Some w.
Proof.
  unfold count_skipped.
  induction sliced as [|s sliced IH]; intros i w Hall; [done|].
  cbn [Send_loop]. rewrite filter_cons in Hall.
  pose proof (length_filter (fun s => fst s = false) sliced) as Hle.
  destruct (decide (fst s = false)) as [Hs|Hs].
  - rewrite Hs. cbn [negb]. apply IH. cbn in Hall. lia.
  - cbn in Hall. lia.
Qed.

Lemma act_ts_step (ts : Z) (a : Action) (w w' : Worker) :
  act env a w = Some w' -> ts_step ts w w'.
Proof.
  intros Hrun. destruct a as [ts' push pull cmd kvs|msg|ts']; cbn [act] in Hrun.
  - unfold Send in Hrun.
    destruct (DefaultSlicer kvs (GetServerKeyRanges env)) as [sliced|]; [|done].
    cbn [mbind option_bind] in Hrun.
    destruct (if (count_skipped sliced =? length sliced)%nat then _ else _)
      as [w1|] eqn:Hcb; [|done].
    cbn [mbind option_bind] in Hrun.
    apply Send_loop_registry in Hrun.
    apply (ts_step_trans ts w w1 w'); [|by apply registry_same_ts_step].
    apply (ts_step_trans ts w
             (AddResponse ts' (Z.of_nat (count_skipped sliced)) w) w1);
      [by left|].
    destruct (count_skipped sliced =? length sliced)%nat.
    + by apply (RunCallback_ts_step ts ts').
    + injection Hcb as <-. by left.
  - unfold Receiving in Hrun.
    destruct (Process env msg w) as [w1|] eqn:Hp; [|done].
    cbn [mbind option_bind] in Hrun. injection Hrun as <-.
    apply (ts_step_trans ts w w1 _); [|by left].
    unfold Process in Hp. destruct (Meta.simple_app (Message.meta msg)).
    { injection Hp as <-. by left. }
    destruct (if Meta.pull (Message.meta msg) then _ else _) as [w0|] eqn:Hst; [|done].
    cbn [mbind option_bind] in Hp.
    assert (H0 : ts_step ts w w0).
    { destruct (Meta.pull (Message.meta msg)); [|injection Hst as <-; by left].
      destruct (CHECK _) in Hst; [|done]. cbn [mbind option_bind] in Hst.
      destruct (Message.data msg !! 0%nat); [|done].
      cbn [mbind option_bind] in Hst.
      destruct (Message.data msg !! 1%nat); [|done].
      cbn [mbind option_bind] in Hst. injection Hst as <-. by left. }
    apply (ts_step_trans ts w w0 w1 H0).
    destruct (NumResponse _ w0 =? num_servers env - 1).
    + by apply (RunCallback_ts_step ts (Meta.timestamp (Message.meta msg))).
    + injection Hp as <-. by left.
  - by apply (RunCallback_ts_step ts ts').
Qed.

Lemma run_ts_step (ts : Z) (acts : list Action) :
  forall (w w' : Worker), run env acts w = Some w' -> ts_step ts w w'.
Proof.
  induction acts as [|a acts IH]; intros w w' Hrun; cbn [run] in Hrun.
  - injection Hrun as <-. by left.
  - destruct (act env a w) as [w1|] eqn:Ha; [|done].
    cbn [mbind option_bind] in Hrun.
    apply (ts_step_trans ts w w1 w'); [by apply (act_ts_step ts a)|by apply IH].
Qed.

End SendRegistry.

(** C9. For a timestamp [ts] with a registered callback: whatever the
    worker does next (sends, deliveries, calls of [RunCallback]), the
    request is either still pending with no firing, or retired after
    exactly one firing; [RunCallback(ts)] fires the callback and removes
    the entry of [ts] from [callbacks_], after which [ts] stays unknown and
    [RunCallback(ts)] does nothing; the callback is run by [Process] when
    the response count has reached [num_servers - 1], and by [Send] at once
    when every sliced shard is empty. *)
Theorem callback_fires_once (env : Env) (ts : Z) (c : Callback) (w : Worker) :
  callbacks_ w !! ts = Some c ->
  (forall acts w',
      run env acts w = Some w' -> pending_or_retired ts c (fired ts w) w')
  /\ (forall w',
        RunCallback ts w = Some w' ->
        fired ts w' = S (fired ts w)
        /\ callbacks_ w' !! ts = None
        /\ RunCallback ts w' = Some w'
        /\ forall acts w'',
             run env acts w' = Some w'' ->
             fired ts w'' = S (fired ts w) /\ callbacks_ w'' !! ts = None)
  /\ (forall msg w',
        Meta.simple_app (Message.meta msg) = false ->
        Meta.timestamp (Message.meta msg) = ts ->
        NumResponse ts w = num_servers env - 1 ->
        Process env msg w = Some w' ->
        fired ts w' = S (fired ts w) /\ callbacks_ w' !! ts = None)
  /\ (forall push pull cmd kvs sliced,
        DefaultSlicer kvs (GetServerKeyRanges env) = Some sliced ->
        count_skipped sliced = length sliced ->
        Send env ts push pull cmd kvs w
        = RunCallback ts (AddResponse ts (Z.of_nat (length sliced)) w)).
Proof.
  intros Hc.
  assert (Hfire : forall w0 w',
             callbacks_ w0 = callbacks_ w -> fired ts w0 = fired ts w ->
             RunCallback ts w0 = Some w' ->
             fired ts w' = S (fired ts w) /\ callbacks_ w' !! ts = None).
  { intros w0 w' Hcb Hf Hrun.
    destruct (RunCallback_registered ts c w0 w') as [Hcb' Hf'];
      [by rewrite Hcb|done|].
    rewrite Hcb', lookup_delete_eq, Hf', Hf.
    destruct (decide (ts = ts)); [|done]. split; [lia|done]. }
  split; [|split; [|split]].
  - intros acts w' Hrun.
    destruct (run_ts_step env ts acts w w' Hrun) as [[H1 H2]|(_ & H1 & H2)].
    + left. by rewrite H1, H2.
    + by right.
  - intros w' Hrun. destruct (Hfire w w' eq_refl eq_refl Hrun) as [Hf Hnone].
    split; [done|]. split; [done|]. split; [by apply RunCallback_unknown|].
    intros acts w'' Hrun'.
    destruct (run_ts_step env ts acts w' w'' Hrun') as [[H1 H2]|([c' Hc'] & _)].
    + by rewrite H1, H2.
    + congruence.
  - intros msg w' Hsa Hts Hnum Hp. unfold Process in Hp. rewrite Hsa, Hts in Hp.
    destruct (if Meta.pull (Message.meta msg) then _ else _) as [w0|] eqn:Hst; [|done].
    cbn [mbind option_bind] in Hp.
    assert (H0 : callbacks_ w0 = callbacks_ w /\ fired ts w0 = fired ts w
                 /\ NumResponse ts w0 = NumResponse ts w).
    { destruct (Meta.pull (Message.meta msg)); [|by injection Hst as <-].
      destruct (CHECK _) in Hst; [|done]. cbn [mbind option_bind] in Hst.
      destruct (Message.data msg !! 0%nat); [|done].
      cbn [mbind option_bind] in Hst.
      destruct (Message.data msg !! 1%nat); [|done].
      cbn [mbind option_bind] in Hst. by injection Hst as <-. }
    destruct H0 as (Hcb & Hf & Hnr). rewrite Hnr, Hnum, Z.eqb_refl in Hp.
    by apply (Hfire w0 w').
  - intros push pull cmd kvs sliced Hslice Hall. unfold Send.
    rewrite Hslice. cbn [mbind option_bind]. rewrite Hall, Nat.eqb_refl.
    destruct (RunCallback ts _) as [w1|]; [|done]. cbn [mbind option_bind].
    by apply Send_loop_all_skipped.
Qed.

(** * Scenarios and instances *)

Local Ltac prove_ascending :=
  unfold ascending; repeat (constructor; [|repeat constructor; lia]); constructor.

Local Ltac each_elem H :=
  repeat (apply elem_of_cons in H as [->|H]); [..|by apply elem_of_nil in H].

(** S1: the slicer splits evenly. *)
Example slicer_S1 :
  DefaultSlicer S1_batch S1_ranges
  = Some [(true, mkKV [1; 3] [10; 11; 12; 13] [] 0);
          (true, mkKV [5; 7] [14; 15; 16; 17] [] 0)].
Proof. reflexivity. Qed.

(** S2: the slicer with variable lengths. *)
Example slicer_S2 :
  DefaultSlicer S2_batch S2_ranges
  = Some [(true, mkKV [1] [10; 11; 12] [3] 0);
          (true, mkKV [2] [13] [1] 0)].
Proof. reflexivity. Qed.

(** The first step of a fresh worker in [demo_env] leaves [ready_worker]. *)
Example first_step_ready :
  Send_step_boundary demo_env (KVWorker default_config 0) = Some ready_worker.
Proof. reflexivity. Qed.

(** An instance of C4: scenario S1. *)
Lemma DefaultSlicer_partition_S1 :
  exists sliced,
    DefaultSlicer S1_batch S1_ranges = Some sliced
    /\ length sliced = length S1_ranges
    /\ concat (map shard_keys sliced) = keys S1_batch
    /\ concat (map shard_vals sliced) = vals S1_batch
    /\ concat (map shard_lens sliced) = lens S1_batch
    /\ (forall k, k ∈ keys S1_batch ->
        exists i s, sliced !! i = Some s /\ k ∈ shard_keys s
          /\ forall j s', sliced !! j = Some s' -> k ∈ shard_keys s' -> j = i).
Proof.
  apply DefaultSlicer_partition.
  - prove_ascending.
  - cbn. by split.
  - intros k Hk. cbn in Hk. each_elem Hk; cbn; lia.
  - unfold valid_batch. cbn. by exists 2%nat.
Defined.

(** The claim C10 fails for a key below the first range: the batch is
    sliced without a fatal check, and the key [1] is in no shard. *)
Lemma DefaultSlicer_key_below_span_passes :
  (1 ∈ keys (mkKV [1; 5] [10; 11] [] 0 : KVPairs Z) /\ 1 < r_begin (mkRange 4 8))
  /\ DefaultSlicer (mkKV [1; 5] [10; 11] [] 0 : KVPairs Z) [mkRange 4 8]
     = Some [(true, mkKV [5] [11] [] 0)].
Proof. split; [split; [left|cbn; lia]|reflexivity]. Qed.

(** An instance of C10 (as amended): key [9] is not below the end of the
    last range. *)
Lemma DefaultSlicer_fatal_above_span_instance :
  DefaultSlicer (mkKV [1; 9] [10; 11] [] 0 : KVPairs Z) S1_ranges = None.
Proof.
  apply (proj2 (DefaultSlicer_fatal_above_span
                  (mkKV [1; 9] [10; 11] [] 0 : KVPairs Z) S1_ranges
                  (mkRange 4 8) ltac:(prove_ascending)
                  ltac:(repeat constructor; cbn; lia) eq_refl)).
  exists 9. split; [right; left|cbn; lia].
Defined.

(** Instances of C2 (as amended), four channels.  Rank [6] of [0..8] at
    the rate [0.5]: the product [4.5] gives [r_min = 5], and the rank lies
    in the second of the four segments of [5..8].  Rank [3] of [0..4] at
    the rate [0.7f]: the product with [5] is rounded to [3.5], so
    [r_min = 4] and the rank is below it. *)
Lemma Get_channel_cases_instance :
  (Get_channel demo_env 6 8 4 (Fin (1 # 2)) = Some 2
   /\ 1 <= Z.rem (rand demo_env) 4 + 1 <= 4)
  /\ (Get_channel demo_env 3 4 4 (Fin (11744051 # 16777216)) = Some 0
      /\ 1 <= Z.rem (rand demo_env) 4 + 1 <= 4).
Proof.
  split.
  - apply (Get_channel_cases demo_env 6 8 4 (Fin (1 # 2)));
      [lia|lia|cbn; lia|by vm_compute|by vm_compute].
  - apply (Get_channel_cases demo_env 3 4 4 (Fin (11744051 # 16777216)));
      [lia|lia|cbn; lia|by vm_compute|by vm_compute].
Defined.

(** The claim C2 fails at the last rank: with [r = R = 1], [C = 1] and
    [k = 0] the minimum index is [0 < R], the claimed channel is
    [1 + floor(1 * (1 - 0) / (1 - 0)) = 2], and the code returns [1]. *)
Lemma Get_channel_last_rank_differs :
  F32.Qround_away (0 * inject_Z (1 + 1)) = 0
  /\ 1 + 1 * (1 - 0) / (1 - 0) = 2
  /\ Get_channel demo_env 1 1 1 (Fin 0) = Some 1.
Proof. repeat split. Qed.

(** With [R = r_min] the code returns channel [1], whatever [rand()]
    gives. *)
Example Get_channel_edge_is_1 :
  Get_channel demo_env 2 2 4 (Fin 1) = Some 0
  /\ Get_channel demo_env 2 2 4 (Fin (2 # 3)) = Some 1.
Proof. split; reflexivity. Qed.

(** The minimum index comes from the rounded product: [0.7f * 5] and
    [0x1.aaaaaap-1 * 3] are rounded to [3.5] and [2.5], and a product
    beyond the range of [int] gives the indefinite value.  The default
    [contri_alpha] is [0.3f]. *)
Example min_index_rounds :
  min_index 4 (Fin (11744051 # 16777216)) = 4
  /\ min_index 2 (Fin (13981013 # 16777216)) = 3
  /\ Get_channel demo_env 2 2 4 (Fin (13981013 # 16777216)) = Some 0
  /\ min_index 2 (Fin 1000000000) = - 2 ^ 31
  /\ F32.single (3 # 10) = contri_alpha default_config.
Proof. repeat split. Qed.

Lemma ready_worker_ready : rate_ready ready_worker.
Proof. by repeat split. Qed.

(** An instance of C6 (as amended): three steps without a reading, the
    adaptive flag set. *)
Lemma absent_feed_rate_instance :
  (exists w', rate_step demo_env None ready_worker = Some w'
     /\ pre_loss (rate w') = F32.zero /\ rt_loss (rate w') = F32.zero
     /\ dmlc_k (rate w') = Fin (1 # 10))
  /\ rate_run demo_env (replicate 3 None) ready_worker
     = Some (replicate 3 (Fin (1 # 10))).
Proof. exact (absent_feed_rate demo_env ready_worker 3 ready_worker_ready). Defined.

(** The claim C6 fails with the adaptive flag set: without a reading the
    rate of the step is [dmlc_k_min = 0.1], not [dmlc_k_init = 0.5]. *)
Lemma absent_feed_adaptive_rate_is_k_min :
  adaptive_k_flag (rate ready_worker) = 1
  /\ dmlc_k_init (rate ready_worker) = Fin (1 # 2)
  /\ rate_run demo_env [None] ready_worker = Some [Fin (1 # 10)].
Proof. repeat split. Qed.

Lemma readings_4_2_1 : non_increasing_Q [4; 2; 1]%Q.
Proof.
  intros i j x y Hij Hx Hy.
  destruct i as [|[|[|i]]], j as [|[|[|j]]]; cbn in Hx, Hy;
    try lia; try discriminate;
    injection Hx as <-; injection Hy as <-; by cbv.
Qed.

(** An instance of C7 (as amended): the readings [4, 2, 1]. *)
Lemma adaptive_rate_monotone_instance :
  exists ks,
    rate_run demo_env [Some (Fin 4); Some (Fin 2); Some (Fin 1)] ready_worker
    = Some ks
    /\ ks = map (fun r => F32.max (F32.mul (Fin (1 # 2)) (F32.div (Fin r) (Fin 4)))
                           (Fin (1 # 10))) [4; 2; 1]%Q
    /\ non_increasing ks
    /\ Forall (F32.le (Fin (1 # 10))) ks.
Proof.
  apply (adaptive_rate_monotone demo_env ready_worker (1 # 2) (1 # 10) 4 [2; 1]%Q
           ready_worker_ready).
  - by cbv.
  - reflexivity.
  - reflexivity.
  - by cbv.
  - by cbv.
  - apply readings_4_2_1.
Defined.

(** The claim C7 fails for negative readings: after [-1] and then [-2]
    the rate rises from [0.5] to [1]. *)
Lemma adaptive_rate_rises_on_negative_readings :
  (-2 <= -1)%Q
  /\ exists k1 k2,
       rate_run demo_env [Some (Fin (-1)); Some (Fin (-2))] ready_worker
       = Some [k1; k2]
       /\ F32.ltb k1 k2 = true.
Proof. split; [by cbv|]. by eexists _, _. Qed.

(** An instance of C8 (as amended): the first block of an operation. *)
Lemma Evaluate_msg_contri_update_instance :
  let r := Evaluate_msg_contri 0 first_block ready_worker in
  let v := F32.add (F32.mul (contri_alpha default_config) F32.zero)
             (F32.mul (F32.sub (F32.of_int 1) (contri_alpha default_config))
                (F32.div (sum_abs [Fin 1]) (F32.of_int 1))) in
  fst r = v
  /\ (contri (scores (snd r)) !! 0) ≫= (fun row => row !! 0) = Some v
  /\ contri_max (scores (snd r)) !! 0 = Some (F32.max v F32.zero)
  /\ pre_contri_max (scores (snd r)) !! 0 = Some F32.zero.
Proof.
  exact (Evaluate_msg_contri_update 0 first_block [Fin 1] ready_worker eq_refl).
Defined.

(** The claim C8 fails for the block with [seq == 0]: [contri_max[key]] is
    not left at [0], it ends at the block's score. *)
Lemma contri_max_after_first_block :
  Meta.seq (Message.meta first_block) = 0
  /\ exists v,
       contri_max (scores (snd (Evaluate_msg_contri 0 first_block ready_worker)))
         !! 0 = Some v
       /\ v = fst (Evaluate_msg_contri 0 first_block ready_worker)
       /\ F32.gtb v F32.zero = true.
Proof. split; [done|]. by eexists. Qed.

(** S4: a shard of 250 values cut every 100 values gives the blocks
    [(seq, val_bytes, len) = (0,0,100), (1,100,100), (2,200,50)] with
    [seq_end = 2], and the block with [seq = 2] on channel [0]. *)
Example fragmentation_S4 :
  (w ← block_push demo_env 0 true false 0 0 (ones_shard 250) 1
         (block_worker 100 0);
   Some (map (fun x => (block_view (wire_msg x),
                        Meta.seq_end (Message.meta (wire_msg x)),
                        wire_channel x))
           (outbox (world w))))
  = Some [((0, 0, 100), 2, 0); ((1, 100, 100), 2, 0); ((2, 200, 50), 2, 0)].
Proof. vm_compute. reflexivity. Qed.

(** An instance of C3 (as amended): five values cut every two values. *)
Lemma block_push_fragments_instance :
  exists w' new,
    block_push demo_env 0 true false 0 0 (ones_shard 5) 1 (block_worker 2 0)
    = Some w'
    /\ outbox (world w') = outbox (world (block_worker 2 0)) ++ new
    /\ Permutation (map (fun x => block_view (wire_msg x)) new)
         [(0, 0, 2); (1, 2, 2); (2, 4, 1)]
    /\ Forall (fun x => block_meta_ok 2 5 (wire_msg x)) new
    /\ sum_Z (map (fun x => Z.of_nat (length (msg_weights (wire_msg x)))) new) = 5
    /\ msg_vector w' = [].
Proof.
  apply (block_push_fragments demo_env 0 true false 0 0 (ones_shard 5) 1
           (block_worker 2 0)); try reflexivity; cbn; (done || lia).
Defined.

(** The claim C3 fails when the zero-contribution filter is on: of the
    two blocks of the payload [0.0, 5.0] only the last is emitted, so the
    sequence number [0] is missing and the slices hold one value of two. *)
Lemma clear_zero_drops_a_block :
  clear_zero (cfg (block_worker 1 1)) = 1
  /\ Z.of_nat (length (vals (mkKV [1] [Fin 0; Fin 5] [] 0 : KVPairs float))) = 2
  /\ (w ← block_push demo_env 0 true false 0 0 (mkKV [1] [Fin 0; Fin 5] [] 0) 1
            (block_worker 1 1);
      Some (map (fun x => block_view (wire_msg x)) (outbox (world w))))
     = Some [(1, 1, 1)].
Proof. repeat split. Qed.

(** An instance of C1: a push of five values in blocks of two. *)
Lemma Send_terminal_block_channel_0_instance :
  exists w' new,
    Send demo_env 0 true false 0 (ones_shard 5) (block_worker 2 0) = Some w'
    /\ outbox (world w') = outbox (world (block_worker 2 0)) ++ new
    /\ forall x, x ∈ new ->
       Meta.msg_type (Message.meta (wire_msg x)) = 2 ->
       Meta.seq (Message.meta (wire_msg x))
       = Meta.seq_end (Message.meta (wire_msg x)) ->
       wire_channel x = 0 /\ Meta.channel (Message.meta (wire_msg x)) = 0.
Proof.
  destruct (Send demo_env 0 true false 0 (ones_shard 5) (block_worker 2 0))
    as [w'|] eqn:Hrun; [|vm_compute in Hrun; discriminate].
  destruct (Send_terminal_block_channel_0 demo_env 0 true false 0
              (ones_shard 5) (block_worker 2 0) w' Hrun) as (new & Hout & Hall).
  exists w', new. split; [reflexivity|]. split; [exact Hout|exact Hall].
Defined.

(** What that push hands to the van. *)
Example Send_blocks_of_two :
  (w ← Send demo_env 0 true false 0 (ones_shard 5) (block_worker 2 0);
   Some (map (fun x => (Meta.seq (Message.meta (wire_msg x)),
                        Meta.msg_type (Message.meta (wire_msg x)),
                        wire_channel x))
           (outbox (world w))))
  = Some [(0, 2, 0); (1, 2, 0); (2, 2, 0)].
Proof. vm_compute. reflexivity. Qed.



(** An instance of C9: a registered user callback. *)
Lemma callback_fires_once_instance :
  exists w',
    RunCallback 7 (AddCallback 7 (Some (UserCb 1)) ready_worker) = Some w'
    /\ fired 7 w' = 1%nat
    /\ callbacks_ w' !! 7 = None
    /\ RunCallback 7 w' = Some w'.
Proof.
  destruct (callback_fires_once demo_env 7 (UserCb 1)
              (AddCallback 7 (Some (UserCb 1)) ready_worker) eq_refl)
    as (_ & Hrun & _).
  eexists. split; [reflexivity|].
  destruct (Hrun _ eq_refl) as (Hf & Hnone & Hnoop & _).
  by repeat split.
Defined.

(** A pull with keys in no server range is answered at once: every
    shard is skipped and [Send] itself runs the callback. *)
Example Send_all_skipped_fires :
  (r ← ZPull demo_env [] [] None 0 (Some 1) 0 ready_worker;
   Some (log (world (snd r)), callbacks_ (snd r) !! fst r))
  = Some ([EvCallback 0; EvUser 1], None).
Proof. vm_compute. reflexivity. Qed.

(** S3: the first push of a fresh worker sends one message per non-empty
    shard, of type [1], with [seq = 0 = seq_end], on the reliable lane and
    carrying the whole shard. *)
Example first_push_S3 :
  (r ← ZPush demo_env [0; 5] [Fin 1; Fin 2; Fin 3; Fin 4] [] 0 None 0
         (KVWorker default_config 0);
   Some (map (fun x => (Meta.msg_type (Message.meta (wire_msg x)),
                        Meta.seq (Message.meta (wire_msg x)),
                        Meta.seq_end (Message.meta (wire_msg x)),
                        wire_channel x,
                        Message.data (wire_msg x)))
           (outbox (world (snd r)))))
  = Some [(1, 0, 0, 0, [DKeys [0]; DVals [Fin 1; Fin 2]]);
          (1, 0, 0, 0, [DKeys [5]; DVals [Fin 3; Fin 4]])].
Proof. vm_compute. reflexivity. Qed.

(** S5 on the code: the blocks are ranked [0, 2, 1, 3]; the minimum index
    is [round(0.5 * 4) = 2], so the ranks [0] and [1] go to channel [0], the
    rank [2] to channel [1], and the terminal block to channel [0]. *)
Example ranking_S5 :
  (ranked ← rank_blocks demo_env S5_worker;
   w ← dispatch_loop demo_env 0 (Z.of_nat (length ranked)) ranked S5_worker;
   Some (map (fun x => (Meta.seq (Message.meta (wire_msg x)), wire_channel x))
           (outbox (world w))))
  = Some [(0, 0); (2, 0); (1, 1); (3, 0)].
Proof. vm_compute. reflexivity. Qed.

(** * Further properties *)

(** ** The slicer: ranges, empty batches and failing checks *)

Lemma interval_elem (ks : list Key) (p q : nat) (x : Key) :
  x ∈ interval ks p q ->
  exists i, (p <= i < q)%nat /\ (i < length ks)%nat /\ nth i ks 0 = x.
Proof.
  unfold interval. intros Hx.
  apply list_elem_of_lookup in Hx as [j Hj].
  apply lookup_take_Some in Hj as [Hj Hlt].
  rewrite lookup_drop in Hj.
  exists (p + j)%nat. split; [lia|]. split.
  - by apply lookup_lt_Some in Hj.
  - by apply nth_lookup_Some with (d := 0) in Hj.
Qed.

Lemma positions_as_find_pos (ks : list Key) (r : Range) (rs : list Range) :
  positions ks (r :: rs)
  = (let p0 := lower_bound ks 0 (length ks) (r_begin r) in
     rest ← find_pos ks (mkRange (r_begin r) (r_begin r)) (r :: rs) p0 p0;
     Some (p0 :: rest)).
Proof.
  unfold positions. cbn [find_pos r_end]. rewrite Z.eqb_refl.
  cbn [CHECK mbind option_bind]. rewrite Nat.sub_0_r, Nat.add_0_l.
  by destruct (find_pos _ _ _ _ _).
Qed.

Lemma find_pos_contiguous (ks : list Key) (rs : list Range) :
  forall (prev : Range) (b p : nat) (rest : list nat),
    find_pos ks prev rs b p = Some rest -> contiguous (prev :: rs).
Proof.
  induction rs as [|r rs IH]; intros prev b p rest Hrun; [done|].
  cbn [find_pos] in Hrun.
  destruct (Z.eqb_spec (r_end prev) (r_begin r)) as [Heq|]; [|done].
  cbn [CHECK mbind option_bind] in Hrun.
  destruct (find_pos ks r rs _ _) as [rest'|] eqn:Hrest; [|done].
  split; [done|]. by eapply IH.
Qed.

Lemma positions_contiguous (ks : list Key) (rs : list Range) (pos : list nat) :
  positions ks rs = Some pos -> contiguous rs.
Proof.
  destruct rs as [|r rs]; [done|]. rewrite positions_as_find_pos. cbn zeta.
  destruct (find_pos _ _ _ _ _) as [rest|] eqn:Hrest; [|done]. intros _.
  apply find_pos_contiguous in Hrest. destruct rs; [done|]. apply Hrest.
Qed.

Section SliceRanges.

Context {Val : Type}.
Variable send : KVPairs Val.
Hypothesis Hasc : ascending (keys send).

Lemma slice_loop_in_range (k : nat) (rs : list Range) :
  forall (prev : Range) (p : nat) (rest : list nat) (vb ve : Z)
         (sl : SlicedKVs),
    (p <= length (keys send))%nat ->
    (forall i, (p <= i < length (keys send))%nat ->
               r_end prev <= nth i (keys send) 0) ->
    find_pos (keys send) prev rs p p = Some rest ->
    slice_loop send k p rest vb ve = Some sl ->
    Forall2 shard_in_range sl rs.
Proof.
  induction rs as [|r rs IH]; intros prev p rest vb ve sl Hp Hlow Hpos Hsl.
  - cbn in Hpos. injection Hpos as <-. cbn in Hsl. injection Hsl as <-.
    constructor.
  - cbn [find_pos] in Hpos.
    destruct (Z.eqb_spec (r_end prev) (r_begin r)) as [Heq|]; [|done].
    cbn [CHECK mbind option_bind] in Hpos.
    destruct (lower_bound_spec (keys send) (r_end r) p Hasc Hp)
      as (Hq & Hlt & Hge).
    set (q := lower_bound (keys send) p (length (keys send)) (r_end r)) in *.
    replace (p + (q - p))%nat with q in Hpos by lia.
    destruct (find_pos (keys send) r rs q q) as [rest'|] eqn:Hrest; [|done].
    cbn [mbind option_bind] in Hpos. injection Hpos as <-.
    cbn [slice_loop] in Hsl.
    destruct (Nat.eqb_spec q p) as [Hqp|Hqp].
    + destruct (slice_loop send k q rest' vb ve) as [sl'|] eqn:Hsl'; [|done].
      cbn [mbind option_bind] in Hsl. injection Hsl as <-.
      constructor; [|by eapply (IH r q rest' vb ve); try done; lia].
      split; [done|constructor].
    + rewrite (segment_interval (keys send) p q) in Hsl by lia.
      cbn [mbind option_bind] in Hsl.
      assert (Hhead : forall (vs : list Val) (ls : list Z),
                 shard_in_range
                   (true, mkKV (interval (keys send) p q) vs ls 0) r).
      { intros vs ls. split; cbn.
        - split; [|done]. intros _ Hnil.
          apply (f_equal length) in Hnil. unfold interval in Hnil.
          rewrite length_take, length_drop in Hnil. cbn in Hnil. lia.
        - apply Forall_forall. intros x Hx.
          apply interval_elem in Hx as (i & Hi & Hil & <-).
          split; [rewrite <- Heq; apply Hlow; lia|apply Hlt; lia]. }
      destruct (negb (length (lens send) =? 0)%nat).
      * destruct (segment (lens send) _ _) as [kv_lens|]; [|done].
        cbn [mbind option_bind] in Hsl.
        destruct (segment (vals send) _ _) as [kv_vals|]; [|done].
        cbn [mbind option_bind] in Hsl.
        destruct (slice_loop send k q rest' _ _) as [sl'|] eqn:Hsl'; [|done].
        cbn [mbind option_bind] in Hsl. injection Hsl as <-.
        constructor; [apply Hhead|].
        eapply (IH r q rest'); try done; lia.
      * destruct (segment (vals send) _ _) as [kv_vals|]; [|done].
        cbn [mbind option_bind] in Hsl.
        destruct (slice_loop send k q rest' _ _) as [sl'|] eqn:Hsl'; [|done].
        cbn [mbind option_bind] in Hsl. injection Hsl as <-.
        constructor; [apply Hhead|].
        eapply (IH r q rest'); try done; lia.
Qed.

End SliceRanges.

Lemma DefaultSlicer_Forall2 {Val : Type} (send : KVPairs Val)
    (ranges : list Range) (sliced : SlicedKVs) :
  ascending (keys send) ->
  DefaultSlicer send ranges = Some sliced ->
  Forall2 shard_in_range sliced ranges.
Proof.
  intros Hasc Hrun. unfold DefaultSlicer in Hrun.
  destruct (positions (keys send) ranges) as [pos|] eqn:Hpos; [|done].
  cbn [mbind option_bind] in Hrun.
  destruct (last pos) as [pn|]; [|done]. cbn [mbind option_bind] in Hrun.
  destruct (pn =? length (keys send))%nat; [|done].
  cbn [CHECK mbind option_bind] in Hrun.
  destruct (length (keys send) =? 0)%nat.
  { injection Hrun as <-. clear. induction ranges; constructor; [|done].
    split; [done|constructor]. }
  destruct (if (length (lens send) =? 0)%nat then _ else _) as [k|]; [|done].
  cbn [mbind option_bind] in Hrun.
  destruct ranges as [|r rs].
  { cbn in Hpos. injection Hpos as <-. cbn in Hrun. injection Hrun as <-.
    constructor. }
  rewrite positions_as_find_pos in Hpos. cbn zeta in Hpos.
  destruct (lower_bound_spec (keys send) (r_begin r) 0 Hasc ltac:(lia))
    as (Hq & _ & Hge).
  set (p0 := lower_bound (keys send) 0 (length (keys send)) (r_begin r)) in *.
  destruct (find_pos _ _ _ p0 p0) as [rest|] eqn:Hrest; [|done].
  cbn [mbind option_bind] in Hpos. injection Hpos as <-.
  eapply (slice_loop_in_range send Hasc k (r :: rs)
            (mkRange (r_begin r) (r_begin r)) p0 rest 0 0);
    [lia|exact Hge|exact Hrest|exact Hrun].
Qed.

(** X1. The slicer keeps its promise about the shards ("[sliced[i]] should
    only contain keys in [ranges[i]]"): whenever it returns for a batch of
    ascending keys, there is one shard per range, the shard of a range is
    marked for sending exactly when it has keys, and each of its keys lies
    in that range, [begin <= key < end]. *)
Theorem DefaultSlicer_shards_in_range {Val : Type} (send : KVPairs Val)
    (ranges : list Range) (sliced : SlicedKVs) :
  ascending (keys send) ->
  DefaultSlicer send ranges = Some sliced ->
  Forall2 shard_in_range sliced ranges.
Proof. apply DefaultSlicer_Forall2. Qed.

Lemma segment_sub {A : Type} (a l : list A) (b e : Z) :
  segment a b e = Some l -> forall x, x ∈ l -> x ∈ a.
Proof.
  unfold segment. destruct (_ && _); [|done]. intros [= <-] x Hx.
  apply elem_of_take in Hx as (j & Hj & _).
  rewrite lookup_drop in Hj. apply list_elem_of_lookup. by eexists.
Qed.

Lemma slice_loop_sub {Val : Type} (send : KVPairs Val) (k : nat)
    (ps : list nat) :
  forall (p : nat) (vb ve : Z) (sl : SlicedKVs),
    slice_loop send k p ps vb ve = Some sl ->
    Forall (fun s => forall x, x ∈ keys (snd s) -> x ∈ keys send) sl.
Proof.
  induction ps as [|q ps IH]; intros p vb ve sl Hsl; cbn [slice_loop] in Hsl.
  - injection Hsl as <-. constructor.
  - destruct (q =? p)%nat.
    + destruct (slice_loop send k q ps vb ve) as [sl'|] eqn:Hsl'; [|done].
      cbn [mbind option_bind] in Hsl. injection Hsl as <-.
      constructor; [|by eapply IH]. cbn. intros x Hx. by apply elem_of_nil in Hx.
    + destruct (segment (keys send) _ _) as [kv_keys|] eqn:Hk; [|done].
      cbn [mbind option_bind] in Hsl.
      pose proof (segment_sub _ _ _ _ Hk) as Hsub.
      destruct (negb (length (lens send) =? 0)%nat).
      * destruct (segment (lens send) _ _) as [kv_lens|]; [|done].
        cbn [mbind option_bind] in Hsl.
        destruct (segment (vals send) _ _) as [kv_vals|]; [|done].
        cbn [mbind option_bind] in Hsl.
        destruct (slice_loop send k q ps _ _) as [sl'|] eqn:Hsl'; [|done].
        cbn [mbind option_bind] in Hsl. injection Hsl as <-.
        constructor; [exact Hsub|by eapply IH].
      * destruct (segment (vals send) _ _) as [kv_vals|]; [|done].
        cbn [mbind option_bind] in Hsl.
        destruct (slice_loop send k q ps _ _) as [sl'|] eqn:Hsl'; [|done].
        cbn [mbind option_bind] in Hsl. injection Hsl as <-.
        constructor; [exact Hsub|by eapply IH].
Qed.

Lemma DefaultSlicer_sub {Val : Type} (send : KVPairs Val)
    (ranges : list Range) (sliced : SlicedKVs) :
  DefaultSlicer send ranges = Some sliced ->
  Forall (fun s => forall x, x ∈ keys (snd s) -> x ∈ keys send) sliced.
Proof.
  intros Hrun. unfold DefaultSlicer in Hrun.
  destruct (positions (keys send) ranges) as [pos|] eqn:Hpos; [|done].
  cbn [mbind option_bind] in Hrun.
  destruct (last pos) as [pn|]; [|done]. cbn [mbind option_bind] in Hrun.
  destruct (pn =? length (keys send))%nat; [|done].
  cbn [CHECK mbind option_bind] in Hrun.
  destruct (length (keys send) =? 0)%nat.
  { injection Hrun as <-. apply Forall_forall. intros s Hs.
    apply list_elem_of_fmap in Hs as (r & -> & _). cbn.
    intros x Hx. by apply elem_of_nil in Hx. }
  destruct (if (length (lens send) =? 0)%nat then _ else _) as [k|]; [|done].
  cbn [mbind option_bind] in Hrun.
  destruct pos as [|p0 ps]; [done|]. by eapply slice_loop_sub.
Qed.

(** With no keys the lower bounds are all [0]. *)
Lemma find_pos_nil (rs : list Range) :
  forall prev : Range,
    contiguous (prev :: rs) ->
    find_pos [] prev rs 0 0 = Some (replicate (length rs) 0%nat).
Proof.
  induction rs as [|r rs IH]; intros prev Hc; [done|].
  destruct Hc as [Heq Hc]. cbn [find_pos]. rewrite Heq, Z.eqb_refl.
  cbn [CHECK mbind option_bind]. change (lower_bound [] 0 (length []) (r_end r)) with 0%nat.
  cbn [Nat.sub Nat.add]. rewrite (IH r Hc). done.
Qed.

Lemma last_cons_replicate (n : nat) : last (0%nat :: replicate n 0%nat) = Some 0%nat.
Proof. induction n as [|n IH]; [done|]. cbn [replicate]. by rewrite last_cons_cons. Qed.

Lemma DefaultSlicer_no_keys {Val : Type} (vs : list Val) (ls : list Z)
    (prio : Z) (ranges : list Range) :
  contiguous ranges ->
  DefaultSlicer (mkKV [] vs ls prio) ranges
  = Some (map (fun _ => (false, empty_kv)) ranges).
Proof.
  intros Hc. unfold DefaultSlicer. cbn [keys].
  assert (Hpos : exists pos, positions [] ranges = Some pos
                             /\ last pos = Some 0%nat).
  { destruct ranges as [|r rs]; [by eexists|].
    rewrite positions_as_find_pos. cbn zeta.
    change (lower_bound [] 0 (length []) (r_begin r)) with 0%nat.
    rewrite (find_pos_nil (r :: rs)) by (split; [done|exact Hc]).
    eexists. split; [done|]. apply (last_cons_replicate (length (r :: rs))). }
  destruct Hpos as (pos & -> & Hlast). cbn [mbind option_bind].
  rewrite Hlast. done.
Qed.

Lemma count_skipped_all (l : list Range) :
  count_skipped (map (fun _ => (false, @empty_kv float)) l) = length l.
Proof.
  unfold count_skipped. induction l as [|r l IH]; [done|].
  cbn [map]. rewrite filter_cons_True by done. cbn. by rewrite IH.
Qed.

Lemma Send_no_keys (env : Env) (ts : Z) (push pull : bool) (cmd : Z)
    (vs : list float) (ls : list Z) (prio : Z) (w : Worker) :
  contiguous (GetServerKeyRanges env) ->
  Send env ts push pull cmd (mkKV [] vs ls prio) w
  = RunCallback ts
      (AddResponse ts (Z.of_nat (length (GetServerKeyRanges env))) w).
Proof.
  intros Hc. unfold Send. rewrite (DefaultSlicer_no_keys vs ls prio _ Hc).
  cbn [mbind option_bind].
  rewrite count_skipped_all, length_map, Nat.eqb_refl.
  destruct (RunCallback ts _) as [w1|]; [|done]. cbn [mbind option_bind].
  apply Send_loop_all_skipped.
  by rewrite count_skipped_all, length_map.
Qed.

(** X3. A batch without keys is not sent at all: whatever values or lengths it
    carries, [Send] counts every server as having responded and runs the
    callback of the request at once, and the van gets nothing. *)
Theorem Send_empty_batch (env : Env) (ts : Z) (push pull : bool) (cmd : Z)
    (vs : list float) (ls : list Z) (prio : Z) (w : Worker) :
  contiguous (GetServerKeyRanges env) ->
  Send env ts push pull cmd (mkKV [] vs ls prio) w
  = RunCallback ts
      (AddResponse ts (Z.of_nat (length (GetServerKeyRanges env))) w)
  /\ forall w', Send env ts push pull cmd (mkKV [] vs ls prio) w = Some w' ->
       outbox (world w') = outbox (world w).
Proof.
  intros Hc. split; [by apply Send_no_keys|].
  intros w' Hrun. rewrite Send_no_keys in Hrun by done.
  by apply RunCallback_outbox in Hrun.
Qed.

Lemma positions_None_DefaultSlicer {Val : Type} (send : KVPairs Val)
    (ranges : list Range) :
  positions (keys send) ranges = None -> DefaultSlicer send ranges = None.
Proof. intros Hpos. unfold DefaultSlicer. by rewrite Hpos. Qed.

(** X2. The checks of the slicer are fatal: key ranges that are not
    contiguous, values that do not divide evenly among the keys of a batch
    without [lens], and a [lens] array that has not one entry per key. *)
Theorem DefaultSlicer_failing_checks {Val : Type} (send : KVPairs Val)
    (ranges : list Range) :
  ~ contiguous ranges
  \/ (keys send <> [] /\ lens send = []
      /\ (length (vals send) mod length (keys send))%nat <> 0%nat)
  \/ (keys send <> [] /\ lens send <> []
      /\ length (lens send) <> length (keys send)) ->
  DefaultSlicer send ranges = None.
Proof.
  intros [Hc|[(Hk & Hl & Hmod)|(Hk & Hl & Hlen)]].
  - destruct (positions (keys send) ranges) as [pos|] eqn:Hpos.
    + exfalso. apply Hc. by eapply positions_contiguous.
    + by apply positions_None_DefaultSlicer.
  - unfold DefaultSlicer.
    destruct (positions (keys send) ranges) as [pos|]; [|done].
    cbn [mbind option_bind]. destruct (last pos) as [pn|]; [|done].
    cbn [mbind option_bind].
    destruct (pn =? length (keys send))%nat; [|done].
    cbn [CHECK mbind option_bind].
    destruct (Nat.eqb_spec (length (keys send)) 0) as [H0|H0].
    { by apply length_zero_iff_nil in H0. }
    rewrite Hl. cbn [length Nat.eqb].
    destruct (Nat.eqb_spec
                (length (vals send) / length (keys send) * length (keys send))
                (length (vals send))) as [Heq|_]; [|done].
    exfalso. apply Hmod.
    pose proof (Nat.div_mod_eq (length (vals send)) (length (keys send))).
    lia.
  - unfold DefaultSlicer.
    destruct (positions (keys send) ranges) as [pos|]; [|done].
    cbn [mbind option_bind]. destruct (last pos) as [pn|]; [|done].
    cbn [mbind option_bind].
    destruct (pn =? length (keys send))%nat; [|done].
    cbn [CHECK mbind option_bind].
    destruct (Nat.eqb_spec (length (keys send)) 0) as [H0|H0].
    { by apply length_zero_iff_nil in H0. }
    destruct (Nat.eqb_spec (length (lens send)) 0) as [H1|H1].
    { by apply length_zero_iff_nil in H1. }
    destruct (Nat.eqb_spec (length (keys send)) (length (lens send)));
      [congruence|done].
Qed.

(** ** The channel classifier: range, order and the full rate *)

Lemma Get_channel_loop_range (n : nat) :
  forall (i index min_index max_index C c : Z),
    Get_channel_loop n i index min_index max_index C = Some c ->
    i + 1 <= c <= i + Z.of_nat n.
Proof.
  induction n as [|n IH]; intros i index min_index max_index C c Hrun; [done|].
  cbn [Get_channel_loop] in Hrun.
  destruct (0 <? max_index - min_index).
  - destruct (_ && _).
    + injection Hrun as <-. lia.
    + apply IH in Hrun. lia.
  - injection Hrun as <-. lia.
Qed.

(** X10. [Get_channel] never names a channel that does not exist: with at least
    one lossy channel it returns, for every index, every index bound and
    every rate (NaN and the infinities included), a channel between [0]
    and [C]. *)
Theorem Get_channel_in_range (env : Env) (index max_index C : Z) (k : float) :
  1 <= C -> 0 <= rand env ->
  exists c, Get_channel env index max_index C k = Some c /\ 0 <= c <= C.
Proof.
  intros HC Hrand. unfold Get_channel.
  destruct (index <? _); [exists 0; split; [done|lia]|].
  destruct (Get_channel_loop _ _ _ _ _ _) as [c|] eqn:Hloop.
  - exists c. split; [done|]. apply Get_channel_loop_range in Hloop. lia.
  - destruct (Z.eqb_spec C 0); [lia|]. eexists. split; [done|].
    pose proof (Z.rem_bound_pos (rand env) C Hrand ltac:(lia)). lia.
Qed.



(** *** Rounding to the format *)

Lemma Zle_inject (z : Z) (x : Q) :
  (inject_Z z <= x)%Q <-> z * Zpos (Qden x) <= Qnum x.
Proof. unfold Qle. cbn. by rewrite Z.mul_1_r. Qed.

Lemma Zlt_inject (z : Z) (x : Q) :
  (x < inject_Z z)%Q <-> Qnum x < z * Zpos (Qden x).
Proof. unfold Qlt. cbn. by rewrite Z.mul_1_r. Qed.

Lemma Qlog2_spec (x : Q) :
  (1 <= x)%Q ->
  0 <= F32.Qlog2 x
  /\ (inject_Z (2 ^ F32.Qlog2 x) <= x)%Q
  /\ (x < inject_Z (2 ^ (F32.Qlog2 x + 1)))%Q.
Proof.
  intros Hx. change 1%Q with (inject_Z 1) in Hx. apply Zle_inject in Hx.
  rewrite Zle_inject, Zlt_inject. unfold F32.Qlog2.
  set (n := Qnum x) in *. set (d := Zpos (Qden x)) in *.
  assert (Hd : 0 < d) by (subst d; lia).
  destruct (Z.log2_spec n ltac:(lia)) as [Hn1 Hn2].
  destruct (Z.log2_spec d Hd) as [Hd1 Hd2].
  pose proof (Z.log2_nonneg d) as Hb.
  pose proof (Z.log2_le_mono d n ltac:(lia)) as Hab.
  set (a := Z.log2 n) in *. set (b := Z.log2 d) in *.
  assert (Hpa : 2 ^ a = 2 ^ (a - b) * 2 ^ b)
    by (rewrite <- Z.pow_add_r by lia; f_equal; lia).
  assert (Hpos : 0 < 2 ^ (a - b)) by (apply Z.pow_pos_nonneg; lia).
  assert (Hpb : 0 < 2 ^ b) by (apply Z.pow_pos_nonneg; lia).
  unfold F32.pow2. destruct (Z.leb_spec 0 (a - b)) as [_|]; [|lia].
  destruct (Qle_bool (inject_Z (2 ^ (a - b))) x) eqn:Hle.
  - apply Qle_bool_iff, Zle_inject in Hle. fold n d in Hle.
    split; [lia|]. split; [done|].
    rewrite Z.pow_add_r by lia. change (2 ^ 1) with 2.
    rewrite Z.pow_succ_r in Hn2 by lia. nia.
  - assert (Hlt : n < 2 ^ (a - b) * d).
    { destruct (Z.lt_ge_cases n (2 ^ (a - b) * d)) as [|Hge]; [done|].
      exfalso. apply Zle_inject, Qle_bool_iff in Hge. congruence. }
    assert (Hab1 : 1 <= a - b).
    { destruct (decide (a - b = 0)) as [H0|]; [|lia].
      rewrite H0 in Hlt. change (2 ^ 0) with 1 in Hlt. lia. }
    replace (a - b - 1 + 1) with (a - b) by lia.
    split; [lia|]. split; [|done].
    assert (Hp1 : 2 ^ (a - b) = 2 * 2 ^ (a - b - 1)).
    { rewrite <- Z.pow_succ_r by lia. f_equal. lia. }
    rewrite Z.pow_succ_r in Hd2 by lia. nia.
Qed.

Lemma Qround_even_ge (K : Z) (y : Q) :
  (inject_Z K <= y)%Q -> K <= F32.Qround_even y.
Proof.
  intros Hy. apply Qfloor_resp_le in Hy. rewrite Qfloor_Z in Hy.
  unfold F32.Qround_even.
  destruct (Qcompare _ _); [destruct (Z.even _)|..]; lia.
Qed.

Lemma Qround_even_le (K : Z) (y : Q) :
  (y <= inject_Z K)%Q -> F32.Qround_even y <= K.
Proof.
  intros Hy. pose proof (Qfloor_resp_le _ _ Hy) as Hf. rewrite Qfloor_Z in Hf.
  unfold F32.Qround_even.
  destruct (decide (Qfloor y = K)) as [HK|HK].
  - assert (Hz : (y - inject_Z (Qfloor y) < 1 # 2)%Q).
    { rewrite HK. lra. }
    destruct (Qcompare_spec (y - inject_Z (Qfloor y)) (1 # 2)) as [H|H|H];
      [exfalso; lra|lia|exfalso; lra].
  - destruct (Qcompare _ _); [destruct (Z.even _)|..]; lia.
Qed.

Lemma pow2_pos (k : Z) : (0 < F32.pow2 k)%Q.
Proof.
  unfold F32.pow2. destruct (Z.leb_spec 0 k).
  - change 0%Q with (inject_Z 0). rewrite <- Zlt_Qlt.
    apply Z.pow_pos_nonneg; lia.
  - apply Qinv_lt_0_compat. change 0%Q with (inject_Z 0). rewrite <- Zlt_Qlt.
    apply Z.pow_pos_nonneg; lia.
Qed.

Lemma pow2_mul (s k : Z) :
  0 <= s -> k <= s ->
  (inject_Z (2 ^ (s - k)) * F32.pow2 k == inject_Z (2 ^ s))%Q.
Proof.
  intros Hs Hk. unfold F32.pow2. destruct (Z.leb_spec 0 k).
  - rewrite <- inject_Z_mult, <- Z.pow_add_r by lia.
    by replace (s - k + k) with s by lia.
  - replace (s - k) with (s + - k) by lia.
    rewrite Z.pow_add_r, inject_Z_mult by lia.
    assert (H0 : ~ (inject_Z (2 ^ (- k)) == 0)%Q).
    { intros H0. change 0%Q with (inject_Z 0) in H0.
      rewrite inject_Z_injective in H0.
      pose proof (Z.pow_pos_nonneg 2 (- k) ltac:(lia) ltac:(lia)). lia. }
    field. exact H0.
Qed.

Lemma scale_eq (c P S : Z) (u : Q) :
  (inject_Z P * u == inject_Z S)%Q ->
  (inject_Z (c * P) * u == inject_Z (c * S))%Q.
Proof.
  intros H. rewrite !inject_Z_mult.
  transitivity (inject_Z c * (inject_Z P * u))%Q; [ring|]. by rewrite H.
Qed.

(** Rounding keeps a number between the values of the format that
    enclose it. *)
Lemma single_sandwich (x : Q) (c1 s1 c2 s2 : Z) :
  1 <= c1 < 2 ^ 24 -> 0 <= s1 -> 1 <= c2 < 2 ^ 24 -> 0 <= s2 <= 100 ->
  (inject_Z (c1 * 2 ^ s1) <= x)%Q -> (x <= inject_Z (c2 * 2 ^ s2))%Q ->
  exists r,
    F32.single x = Fin r
    /\ (inject_Z (c1 * 2 ^ s1) <= r)%Q /\ (r <= inject_Z (c2 * 2 ^ s2))%Q.
Proof.
  intros Hc1 Hs1 Hc2 Hs2 Hlo Hhi.
  assert (Hp1 : 0 < 2 ^ s1) by (apply Z.pow_pos_nonneg; lia).
  assert (Hp2 : 0 < 2 ^ s2) by (apply Z.pow_pos_nonneg; lia).
  assert (Hx1 : (1 <= x)%Q).
  { eapply Qle_trans; [|exact Hlo]. change 1%Q with (inject_Z 1).
    rewrite <- Zle_Qle. nia. }
  destruct (Qlog2_spec x Hx1) as (He & Hel & Heu).
  set (e := F32.Qlog2 x) in *.
  unfold F32.single.
  assert (Hz : F32.Qzero x = false).
  { unfold F32.Qzero. destruct (Qcompare_spec x 0) as [H0| |]; [|done..].
    exfalso. lra. }
  assert (Hn : F32.Qneg x = false).
  { unfold F32.Qneg. destruct (Qcompare_spec x 0) as [|H0|]; [done| |done].
    exfalso. lra. }
  assert (Ha : Qabs x = x).
  { destruct x as [a b]. unfold Qabs. f_equal. apply Z.abs_eq.
    unfold Qle in Hx1. cbn in Hx1. lia. }
  rewrite Hz, Hn, Ha. fold e. rewrite Z.max_l by lia.
  set (u := F32.pow2 (e - 23)).
  pose proof (pow2_pos (e - 23)) as Hu. fold u in Hu.
  set (m := F32.Qround_even (x / u)).
  (* the lower bound *)
  assert (Hrlo : (inject_Z (c1 * 2 ^ s1) <= inject_Z m * u)%Q).
  { destruct (Z.le_gt_cases (e - 23) s1) as [Hk|Hk].
    - pose proof (pow2_mul s1 (e - 23) Hs1 Hk) as Hm. fold u in Hm.
      apply (scale_eq c1) in Hm.
      assert (HK : c1 * 2 ^ (s1 - (e - 23)) <= m).
      { apply Qround_even_ge. apply Qle_shift_div_l; [done|]. lra. }
      assert ((inject_Z (c1 * 2 ^ (s1 - (e - 23))) * u <= inject_Z m * u)%Q).
      { apply Qmult_le_compat_r; [by rewrite <- Zle_Qle|by apply Qlt_le_weak]. }
      lra.
    - pose proof (pow2_mul e (e - 23) He ltac:(lia)) as Hm. fold u in Hm.
      replace (e - (e - 23)) with 23 in Hm by lia.
      assert (HK : 2 ^ 23 <= m).
      { apply Qround_even_ge. apply Qle_shift_div_l; [done|]. lra. }
      assert ((inject_Z (2 ^ 23) * u <= inject_Z m * u)%Q).
      { apply Qmult_le_compat_r; [by rewrite <- Zle_Qle|by apply Qlt_le_weak]. }
      assert ((inject_Z (c1 * 2 ^ s1) <= inject_Z (2 ^ e))%Q).
      { rewrite <- Zle_Qle.
        assert (2 ^ e = 2 ^ (e - 24 - s1) * (2 ^ 24 * 2 ^ s1)).
        { rewrite <- !Z.pow_add_r by lia. f_equal. lia. }
        assert (0 < 2 ^ (e - 24 - s1)) by (apply Z.pow_pos_nonneg; lia).
        nia. }
      lra. }
  (* the upper bound *)
  assert (Hrhi : (inject_Z m * u <= inject_Z (c2 * 2 ^ s2))%Q).
  { destruct (Z.le_gt_cases (e - 23) s2) as [Hk|Hk].
    - pose proof (pow2_mul s2 (e - 23) ltac:(lia) Hk) as Hm. fold u in Hm.
      apply (scale_eq c2) in Hm.
      assert (HK : m <= c2 * 2 ^ (s2 - (e - 23))).
      { apply Qround_even_le. apply Qle_shift_div_r; [done|]. lra. }
      assert ((inject_Z m * u <= inject_Z (c2 * 2 ^ (s2 - (e - 23))) * u)%Q).
      { apply Qmult_le_compat_r; [by rewrite <- Zle_Qle|by apply Qlt_le_weak]. }
      lra.
    - exfalso.
      assert (Hle : (inject_Z (2 ^ e) <= inject_Z (c2 * 2 ^ s2))%Q) by lra.
      rewrite <- Zle_Qle in Hle.
      assert (2 ^ e = 2 ^ (e - 24 - s2) * (2 ^ 24 * 2 ^ s2)).
      { rewrite <- !Z.pow_add_r by lia. f_equal. lia. }
      assert (0 < 2 ^ (e - 24 - s2)) by (apply Z.pow_pos_nonneg; lia).
      nia. }
  assert (Hov : Qle_bool (F32.pow2 128) (inject_Z m * u) = false).
  { destruct (Qle_bool _ _) eqn:Hb; [|done]. exfalso.
    apply Qle_bool_iff in Hb. change (F32.pow2 128) with (inject_Z (2 ^ 128)) in Hb.
    assert (Hle : (inject_Z (2 ^ 128) <= inject_Z (c2 * 2 ^ s2))%Q) by lra.
    rewrite <- Zle_Qle in Hle.
    assert (2 ^ 128 = 2 ^ (104 - s2) * (2 ^ 24 * 2 ^ s2)).
    { rewrite <- !Z.pow_add_r by lia. f_equal. lia. }
    assert (0 < 2 ^ (104 - s2)) by (apply Z.pow_pos_nonneg; lia).
    nia. }
  rewrite Hov. eexists. split; [reflexivity|].
  rewrite Qred_correct. by split.
Qed.

Lemma Qneg_false (q : Q) : (0 <= q)%Q -> F32.Qneg q = false.
Proof.
  intros Hq. unfold F32.Qneg.
  destruct (Qcompare_spec q 0) as [| Hlt |]; [done| |done].
  exfalso. by apply (Qlt_not_le _ _ Hlt).
Qed.

(** At a rate between [1] and [64] the minimum index is above every index
    of fewer than [2^24] blocks. *)
Lemma min_index_full_rate (R : Z) (q : Q) :
  (1 <= q)%Q -> (q <= 64)%Q -> 0 <= R -> R + 1 < 2 ^ 24 ->
  R + 1 <= min_index R (Fin q).
Proof.
  intros Hq1 Hq2 HR Hsize. unfold min_index, F32.of_int.
  set (n := R + 1) in *. cbn [F32.rnd].
  destruct (single_sandwich (inject_Z n) n 0 n 0) as (r1 & -> & Hl1 & Hu1);
    [lia|lia|lia|lia|rewrite Z.pow_0_r, Z.mul_1_r; apply Qle_refl..|].
  rewrite Z.pow_0_r, Z.mul_1_r in Hl1, Hu1.
  cbn [F32.mul F32.rnd].
  assert (Hn1 : (1 <= inject_Z n)%Q)
    by (change 1%Q with (inject_Z 1); rewrite <- Zle_Qle; lia).
  assert (Hn2 : (inject_Z n <= inject_Z (2 ^ 24 - 1))%Q)
    by (rewrite <- Zle_Qle; lia).
  assert (Hlo : (inject_Z (n * 2 ^ 0) <= q * r1)%Q).
  { rewrite Z.pow_0_r, Z.mul_1_r.
    apply (Qle_trans _ (1 * r1)); [lra|].
    apply Qmult_le_compat_r; [done|lra]. }
  assert (Hhi : (q * r1 <= inject_Z ((2 ^ 24 - 1) * 2 ^ 6))%Q).
  { rewrite inject_Z_mult.
    apply (Qle_trans _ (q * inject_Z (2 ^ 24 - 1))).
    - rewrite !(Qmult_comm q). apply Qmult_le_compat_r; lra.
    - rewrite (Qmult_comm q). apply Qmult_le_l.
      + change 0%Q with (inject_Z 0). by rewrite <- Zlt_Qlt.
      + exact Hq2. }
  destruct (single_sandwich (q * r1) n 0 (2 ^ 24 - 1) 6) as (r2 & -> & Hl2 & Hu2);
    [lia|lia|lia|lia|done..|].
  rewrite Z.pow_0_r, Z.mul_1_r in Hl2.
  cbn [F32.round]. unfold F32.Qround_away.
  rewrite Qneg_false by lra.
  set (z := Qfloor (r2 + (1 # 2))).
  assert (Hz1 : n <= z).
  { rewrite <- (Qfloor_Z n). apply Qfloor_resp_le. lra. }
  assert (Hz2 : z <= (2 ^ 24 - 1) * 2 ^ 6).
  { change ((2 ^ 24 - 1) * 2 ^ 6)
      with (Qfloor (inject_Z ((2 ^ 24 - 1) * 2 ^ 6) + (1 # 2))).
    apply Qfloor_resp_le. lra. }
  unfold F32.to_int. cbn [inject_Z Qnum Qden]. rewrite Z.quot_1_r.
  destruct (Z.leb_spec (- 2 ^ 31) z); [|lia].
  destruct (Z.ltb_spec z (2 ^ 31)); [|lia].
  done.
Qed.

Lemma Get_channel_full_rate (env : Env) (r R C : Z) (q : Q) :
  (1 <= q)%Q -> (q <= 64)%Q -> r <= R -> 0 <= R -> R + 1 < 2 ^ 24 ->
  Get_channel env r R C (Fin q) = Some 0.
Proof.
  intros Hq1 Hq2 Hr HR Hsize. unfold Get_channel.
  pose proof (min_index_full_rate R q Hq1 Hq2 HR Hsize).
  destruct (Z.ltb_spec r (min_index R (Fin q))); [done|lia].
Qed.

Lemma block_loop_length (env : Env) (fuel : nat) (ts : Z) (push pull : bool)
    (cmd : Z) (i : nat) (kvs : KVPairs float) (key0 : Key)
    (total seq_num : Z) :
  forall (remain val_bytes seq : Z) (w w' : Worker),
    block_loop env fuel ts push pull cmd i kvs key0 total seq_num
      remain val_bytes seq w = Some w' ->
    (length (msg_vector w') <= length (msg_vector w) + fuel)%nat.
Proof.
  induction fuel as [|fuel IH]; intros remain val_bytes seq w w' Hrun;
    cbn [block_loop] in Hrun.
  - destruct (remain =? 0); [|done]. injection Hrun as <-. lia.
  - destruct (remain =? 0); [injection Hrun as <-; lia|].
    destruct (segment (vals kvs) val_bytes _) as [tmp_val|]; [|done].
    cbn [mbind option_bind] in Hrun.
    destruct (Evaluate_msg_contri _ _ w) as [c w1] eqn:He.
    pose proof (Evaluate_msg_contri_frame (to_int32 key0)
                  (block_msg env ts push pull cmd i kvs key0 total val_bytes
                     seq seq_num tmp_val w) w) as [_ Hv].
    rewrite He in Hv. cbn [snd] in Hv.
    apply IH in Hrun. rewrite <- Hv.
    destruct (negb (clear_zero (cfg w1) =? 0)); [destruct (_ || _)|];
      cbn in Hrun; rewrite ?length_app in Hrun; cbn in Hrun; lia.
Qed.

Lemma dispatch_loop_full_rate (env : Env) (q : Q) (ms : list Message.t) :
  (1 <= q)%Q -> (q <= 64)%Q ->
  forall (j size : Z) (w w' : Worker),
    dmlc_k (rate w) = Fin q ->
    0 <= j -> j + Z.of_nat (length ms) <= size -> size < 2 ^ 24 ->
    dispatch_loop env j size ms w = Some w' ->
    exists new,
      outbox (world w') = outbox (world w) ++ new
      /\ Forall (fun x => wire_channel x = 0
                          /\ Meta.channel (Message.meta (wire_msg x)) = 0) new.
Proof.
  intros Hq1 Hq2.
  induction ms as [|m ms IH]; intros j size w w' Hk Hj Hsize Hmax Hrun;
    cbn [dispatch_loop] in Hrun.
  - injection Hrun as <-. exists []. by rewrite app_nil_r.
  - cbn [length] in Hsize.
    rewrite Hk, (Get_channel_full_rate env j (size - 1)) in Hrun
      by (done || lia).
    cbn [mbind option_bind] in Hrun.
    set (m1 := if Meta.seq (Message.meta (Message.set_channel 0 m))
                  =? Meta.seq_end (Message.meta (Message.set_channel 0 m))
               then Message.set_channel 0 (Message.set_channel 0 m)
               else Message.set_channel 0 m) in *.
    assert (Hm1 : Meta.channel (Message.meta m1) = 0)
      by (subst m1; by destruct (Meta.seq _ =? Meta.seq_end _)).
    clearbody m1.
    destruct (negb (enable_dgt (cfg w) =? 0)).
    + apply IH in Hrun as (new & Hout & Hall); [|done|lia..].
      exists (VanClassifier m1 (Meta.channel (Message.meta m1)) 0 :: new).
      cbn in Hout. rewrite Hout, <- app_assoc. split; [done|].
      constructor; [|done]. split; exact Hm1.
    + apply IH in Hrun as (new & Hout & Hall); [|done|lia..].
      exists (VanSendOn m1 0 0 :: new).
      cbn in Hout. rewrite Hout, <- app_assoc. split; [done|].
      constructor; [|done]. split; [done|exact Hm1].
Qed.

(** X8. At a drop rate from [1] to [64], [1] being the rate a worker has
    until the rate is first refreshed, a block-wise push of fewer than
    [2^24] blocks puts every block on the reliable channel [0]: no block
    is handed to a lossy channel. *)
Theorem block_push_full_rate_reliable (env : Env) (ts : Z) (push pull : bool)
    (cmd : Z) (i : nat) (kvs : KVPairs float) (key0 : Key) (q : Q)
    (w w' : Worker) :
  dmlc_k (rate w) = Fin q -> (1 <= q <= 64)%Q ->
  Z.of_nat (length (msg_vector w)) + Z.of_nat (length (vals kvs)) < 2 ^ 24 ->
  block_push env ts push pull cmd i kvs key0 w = Some w' ->
  exists new,
    outbox (world w') = outbox (world w) ++ new
    /\ Forall (fun x => wire_channel x = 0
                        /\ Meta.channel (Message.meta (wire_msg x)) = 0) new.
Proof.
  intros Hk [Hq1 Hq2] Hsize Hrun. unfold block_push in Hrun.
  set (w0 := if enable_block (cfg w) =? 0
             then set_block_size (Z.of_nat (length (vals kvs))) w else w) in *.
  assert (Hw0 : rate w0 = rate w /\ world w0 = world w
                /\ msg_vector w0 = msg_vector w)
    by (subst w0; by destruct (enable_block (cfg w) =? 0)).
  destruct Hw0 as (Hrate0 & Hworld0 & Hvec0).
  destruct (negb (block_size w0 =? 0)); [|done].
  cbn [CHECK mbind option_bind] in Hrun.
  destruct (0 <=? _); [|done]. cbn [CHECK mbind option_bind] in Hrun.
  destruct (block_loop _ _ _ _ _ _ _ _ _ _ _ _ _ _ w0) as [w1|] eqn:Hloop;
    [|done].
  cbn [mbind option_bind] in Hrun.
  pose proof (block_loop_length _ _ _ _ _ _ _ _ _ _ _ _ _ _ _ _ Hloop) as Hlen.
  apply block_loop_frame in Hloop as (_ & _ & Hrate & _ & _ & _ & Hworld).
  destruct (rank_blocks env w1) as [ranked|] eqn:Hrank; [|done].
  cbn [mbind option_bind] in Hrun.
  destruct (dispatch_loop _ _ _ _ _) as [w2|] eqn:Hdisp; [|done].
  cbn [mbind option_bind] in Hrun. injection Hrun as <-.
  assert (Hne : msg_vector w1 <> []).
  { intros Hnil. unfold rank_blocks in Hrank. by rewrite Hnil in Hrank. }
  destruct (rank_blocks_Permutation env w1 Hne) as (ranked' & Hr' & Hperm).
  rewrite Hrank in Hr'. injection Hr' as <-.
  apply Permutation_length in Hperm. rewrite Hvec0 in Hlen.
  apply (dispatch_loop_full_rate env q ranked Hq1 Hq2) in Hdisp
    as (new & Hout & Hall); [| |lia..].
  - exists new. split; [|done]. cbn in Hout |- *.
    by rewrite Hout, Hworld, Hworld0.
  - cbn. by rewrite Hrate, Hrate0.
Qed.

(** ** The rate controller: what a run keeps, and how it fails *)

Lemma rate_step_open (env : Env) (reading : option float) (w w' : Worker) :
  1 <= push_op_num w -> rate_step env reading w = Some w' ->
  fp (rate w) = Some tt.
Proof.
  intros Hop Hrun. unfold rate_step, Send_step_boundary in Hrun.
  cbn [push_op_num set_push_op_num set_world] in Hrun.
  destruct (Z.ltb_spec 1 (push_op_num w + 1)) as [_|]; [|lia].
  unfold Update_loss_delta in Hrun.
  cbn [rate set_push_op_num set_world] in Hrun.
  by destruct (fp (rate w)) as [[]|].
Qed.

(** X12. The reference loss is taken once.  From the step on which
    [first_loss] is not zero, no step of a run changes it, whatever the
    later readings are, a missing line or a NaN included; the rate
    parameters read by [init_dgt] stay as well, and every step counts one
    push operation. *)
Theorem first_loss_latched (env : Env) (readings : list (option float))
    (w w' : Worker) :
  1 <= push_op_num w ->
  F32.eqb (first_loss (rate w)) F32.zero = false ->
  rate_steps env readings w = Some w' ->
  first_loss (rate w') = first_loss (rate w)
  /\ dmlc_k_init (rate w') = dmlc_k_init (rate w)
  /\ dmlc_k_min (rate w') = dmlc_k_min (rate w)
  /\ adaptive_k_flag (rate w') = adaptive_k_flag (rate w)
  /\ push_op_num w' = push_op_num w + Z.of_nat (length readings).
Proof.
  revert w. induction readings as [|r readings IH]; intros w Hop Hfirst Hrun.
  - cbn in Hrun. injection Hrun as <-. cbn. repeat split; lia.
  - cbn [rate_steps] in Hrun.
    destruct (rate_step env r w) as [w1|] eqn:Hstep; [|done].
    cbn [mbind option_bind] in Hrun.
    pose proof (rate_step_open env r w w1 Hop Hstep) as Hfp.
    destruct (rate_step_refresh env r w Hfp Hop)
      as (w1' & Hrun1 & _ & Hop1 & _ & _ & Hf & Hki & Hkm & Hfl & _).
    rewrite Hstep in Hrun1. injection Hrun1 as <-.
    rewrite Hfirst in Hf.
    destruct (IH w1) as (Hf' & Hki' & Hkm' & Hfl' & Hop'); [lia|congruence|done|].
    cbn [length]. repeat split; try congruence. lia.
Qed.

Lemma max_not_NaN (a b : float) : b <> NaN -> F32.max a b <> NaN.
Proof.
  intros Hb. unfold F32.max, F32.gtb.
  destruct (F32.compare a b) as [[]|] eqn:Hc; try done.
  intros ->. by destruct b.
Qed.

(** X13. The drop rate cannot be poisoned: if the configured [dmlc_k_init] and
    [dmlc_k_min] are numbers, then after any run of steps, whatever was
    read from the loss file (no line, zero, NaN, an infinity), [dmlc_k] is
    not NaN. *)
Theorem rate_never_NaN (env : Env) (readings : list (option float))
    (w w' : Worker) :
  1 <= push_op_num w ->
  dmlc_k (rate w) <> NaN ->
  dmlc_k_init (rate w) <> NaN ->
  dmlc_k_min (rate w) <> NaN ->
  rate_steps env readings w = Some w' ->
  dmlc_k (rate w') <> NaN.
Proof.
  revert w. induction readings as [|r readings IH];
    intros w Hop Hk Hki Hkm Hrun.
  - cbn in Hrun. by injection Hrun as <-.
  - cbn [rate_steps] in Hrun.
    destruct (rate_step env r w) as [w1|] eqn:Hstep; [|done].
    cbn [mbind option_bind] in Hrun.
    pose proof (rate_step_open env r w w1 Hop Hstep) as Hfp.
    destruct (rate_step_refresh env r w Hfp Hop)
      as (w1' & Hrun1 & _ & Hop1 & _ & _ & _ & Hki1 & Hkm1 & _ & Hk1).
    rewrite Hstep in Hrun1. injection Hrun1 as <-.
    apply (IH w1); [lia| |congruence|congruence|done].
    rewrite Hk1. destruct (negb (adaptive_k_flag (rate w) =? 0)); [|done].
    by apply max_not_NaN.
Qed.

Lemma Send_step_boundary_first (env : Env) (w : Worker) :
  push_op_num w = 0 ->
  Send_step_boundary env w = init_dgt env (set_push_op_num 1 w).
Proof.
  intros Hop. unfold Send_step_boundary. cbv zeta.
  cbn [push_op_num set_push_op_num]. by rewrite Hop.
Qed.

(** X14. The first step initialises DGT.  It goes through exactly when the four
    environment variables of [init_dgt] are set, whether or not the loss
    file could be opened; when it could not, the stream stays null and the
    second step, which reads the loss from it, ends the process. *)
Theorem first_step_and_loss_file (env : Env) (w : Worker) :
  push_op_num w = 0 ->
  (is_Some (Send_step_boundary env w) <-> dgt_environment env)
  /\ (fopen_ok env = false ->
      forall w1, Send_step_boundary env w = Some w1 ->
                 Send_step_boundary env w1 = None).
Proof.
  intros Hop. rewrite (Send_step_boundary_first env w Hop).
  unfold init_dgt, dgt_environment. split.
  - destruct (DMLC_K env), (DMLC_K_MIN env), (ADAPTIVE_K_FLAG env),
      (DMLC_UDP_CHANNEL_NUM env); cbn [mbind option_bind];
      (split; [intros Hs|intros (H1 & H2 & H3 & H4)]);
      try (by destruct Hs); try (by destruct H1); try (by destruct H2);
      try (by destruct H3); try (by destruct H4).
  - intros Hfo w1 Hrun. unfold Open_loss_file in Hrun. rewrite Hfo in Hrun.
    destruct (DMLC_K env), (DMLC_K_MIN env), (ADAPTIVE_K_FLAG env),
      (DMLC_UDP_CHANNEL_NUM env); try done.
    cbn [mbind option_bind] in Hrun. injection Hrun as <-.
    reflexivity.
Qed.

(** ** The send path: pulls and the first iteration *)

Lemma van_send_all_nil (w : Worker) : van_send_all [] w = w.
Proof.
  destruct w as [? ? ? ? ? ? ? ? []]. unfold van_send_all. cbn.
  by rewrite app_nil_r.
Qed.

Lemma van_send_all_cons (x : Wire) (xs : list Wire) (w : Worker) :
  van_send_all xs (van_send x w) = van_send_all (x :: xs) w.
Proof. unfold van_send_all, van_send. cbn. by rewrite <- app_assoc. Qed.

Section SendWhole.

Variable env : Env.
Variables (ts : Z) (pull : bool) (cmd : Z).

Lemma Send_loop_pull (sliced : list (bool * KVPairs float)) :
  forall (i : nat) (w : Worker),
    Forall (fun s => fst s = true -> keys (snd s) <> []) sliced ->
    Send_loop env ts false pull cmd i sliced w
    = Some (van_send_all
              (map (fun js => VanSend (pull_msg env ts false pull cmd (fst js)
                                         (snd js) (hd 0 (keys (snd js)))))
                 (sent_shards i sliced)) w).
Proof.
  induction sliced as [|[b kvs] sliced IH]; intros i w Hne.
  - cbn. by rewrite van_send_all_nil.
  - apply Forall_cons in Hne as [Hb Hne]. cbn [Send_loop sent_shards fst snd].
    destruct b; cbn [negb]; [|by apply IH].
    unfold Send_shard. cbn in Hb.
    destruct (keys kvs) as [|key0 ks] eqn:Hk; [by destruct Hb|].
    cbn [head mbind option_bind].
    rewrite (IH (S i) _ Hne), van_send_all_cons. cbn [map fst snd].
    by rewrite Hk.
Qed.

Lemma Send_loop_first_iteration (sliced : list (bool * KVPairs float)) :
  forall (i : nat) (w : Worker),
    push_op_num w = 1 ->
    Forall (fun s => fst s = true ->
                     keys (snd s) <> [] /\ 0 ∉ keys (snd s)) sliced ->
    Send_loop env ts true pull cmd i sliced w
    = Some (van_send_all
              (map (fun js => VanSend (first_push_msg env ts true pull cmd
                                         (fst js) (snd js)
                                         (hd 0 (keys (snd js))) w))
                 (sent_shards i sliced)) w).
Proof.
  induction sliced as [|[b kvs] sliced IH]; intros i w Hop Hne.
  - cbn. by rewrite van_send_all_nil.
  - apply Forall_cons in Hne as [Hb Hne]. cbn [Send_loop sent_shards fst snd].
    destruct b; cbn [negb]; [|by apply IH].
    unfold Send_shard. cbn in Hb. destruct (Hb eq_refl) as [Hk H0].
    destruct (keys kvs) as [|key0 ks] eqn:Hkeys; [done|].
    cbn [head mbind option_bind].
    destruct (Z.eqb_spec key0 0) as [->|Hkey]; [exfalso; apply H0; left|].
    cbn [mbind option_bind]. rewrite Hop. cbn [Z.eqb Pos.eqb].
    cbn [mbind option_bind].
    rewrite IH; [|exact Hop|exact Hne].
    rewrite van_send_all_cons. cbn [map fst snd]. by rewrite Hkeys.
Qed.

End SendWhole.

Lemma sent_shards_nonempty (sliced : list (bool * KVPairs float))
    (ranges : list Range) :
  Forall2 shard_in_range sliced ranges ->
  Forall (fun s => fst s = true -> keys (snd s) <> []) sliced.
Proof.
  induction 1 as [|s r sliced ranges [Hs _] _ IH]; constructor; [|done].
  apply Hs.
Qed.

Lemma Send_not_all_skipped (env : Env) (ts : Z) (push pull : bool) (cmd : Z)
    (kvs : KVPairs float) (sliced : list (bool * KVPairs float))
    (w : Worker) :
  DefaultSlicer kvs (GetServerKeyRanges env) = Some sliced ->
  count_skipped sliced <> length sliced ->
  Send env ts push pull cmd kvs w
  = Send_loop env ts push pull cmd 0 sliced
      (AddResponse ts (Z.of_nat (count_skipped sliced)) w).
Proof.
  intros Hsl Hskip. unfold Send. rewrite Hsl. cbn [mbind option_bind].
  by destruct (Nat.eqb_spec (count_skipped sliced) (length sliced)).
Qed.

(** X4. A pull leaves the DGT state alone.  For ascending keys of which some
    shard is not empty, [Send] counts the skipped shards as responses and
    hands the van exactly one request of type [3] per shard with keys, in
    the order of the servers, addressed to the server of the shard and
    carrying the shard; nothing else of the worker changes: not the rate,
    the scores, the push counter or the block vector. *)
Theorem Send_pull_requests (env : Env) (ts : Z) (pull : bool) (cmd : Z)
    (kvs : KVPairs float) (sliced : list (bool * KVPairs float))
    (w : Worker) :
  ascending (keys kvs) ->
  DefaultSlicer kvs (GetServerKeyRanges env) = Some sliced ->
  count_skipped sliced <> length sliced ->
  Send env ts false pull cmd kvs w
  = Some (van_send_all
            (map (fun js => VanSend (pull_msg env ts false pull cmd (fst js)
                                       (snd js) (hd 0 (keys (snd js)))))
               (sent_shards 0 sliced))
            (AddResponse ts (Z.of_nat (count_skipped sliced)) w)).
Proof.
  intros Hasc Hsl Hskip.
  rewrite (Send_not_all_skipped env ts false pull cmd kvs sliced w Hsl Hskip).
  apply Send_loop_pull.
  eapply sent_shards_nonempty. by eapply DefaultSlicer_Forall2.
Qed.

(** X5. The first iteration is sent whole.  While the push counter is [1],
    that is after the first push of key [0] and until the next one, a push
    of other keys is not cut into blocks: each shard with keys goes out as
    one message of type [1] with the entire shard as its payload, by the
    plain [Send] of the van, and the worker's rate, scores and counter
    are not touched. *)
Theorem Send_first_iteration_whole (env : Env) (ts : Z) (pull : bool)
    (cmd : Z) (kvs : KVPairs float) (sliced : list (bool * KVPairs float))
    (w : Worker) :
  push_op_num w = 1 ->
  ascending (keys kvs) ->
  0 ∉ keys kvs ->
  DefaultSlicer kvs (GetServerKeyRanges env) = Some sliced ->
  count_skipped sliced <> length sliced ->
  Send env ts true pull cmd kvs w
  = Some (van_send_all
            (map (fun js => VanSend (first_push_msg env ts true pull cmd
                                       (fst js) (snd js)
                                       (hd 0 (keys (snd js))) w))
               (sent_shards 0 sliced))
            (AddResponse ts (Z.of_nat (count_skipped sliced)) w)).
Proof.
  intros Hop Hasc H0 Hsl Hskip.
  rewrite (Send_not_all_skipped env ts true pull cmd kvs sliced w Hsl Hskip).
  rewrite (Send_loop_first_iteration env ts pull cmd sliced 0
             (AddResponse ts (Z.of_nat (count_skipped sliced)) w)); [done|done|].
  pose proof (sent_shards_nonempty _ _
                (DefaultSlicer_Forall2 kvs _ sliced Hasc Hsl)) as Hne.
  pose proof (DefaultSlicer_sub kvs _ sliced Hsl) as Hsub.
  rewrite Forall_forall in Hne, Hsub. apply Forall_forall. intros s Hs Hb.
  split; [by apply Hne|]. intros Hin. apply H0. by apply (Hsub s Hs).
Qed.

(** ** The block-wise push: payload, order and the block vector *)

Lemma segment_Some_inv {A : Type} (a l : list A) (b e : Z) :
  segment a b e = Some l ->
  0 <= b <= e /\ e <= Z.of_nat (length a)
  /\ l = interval a (Z.to_nat b) (Z.to_nat e).
Proof.
  intros Hs.
  assert (Hc : 0 <= b <= e /\ e <= Z.of_nat (length a)).
  { unfold segment in Hs.
    destruct (Z.leb_spec 0 b), (Z.leb_spec b e),
      (Z.leb_spec e (Z.of_nat (length a))); try done. }
  split; [apply Hc|]. split; [apply Hc|].
  rewrite segment_interval_Z in Hs by lia. by injection Hs.
Qed.

Lemma ceil_div_small (remain b : Z) :
  0 < remain <= b -> ceil_div remain b = 1.
Proof.
  intros H. rewrite (ceil_div_step remain b) by lia.
  replace (remain - Z.min remain b) with 0 by lia.
  rewrite ceil_div_0 by lia. done.
Qed.

Section BlockAnatomy.

Variable env : Env.
Variables (ts : Z) (push pull : bool) (cmd : Z) (i : nat).
Variables (kvs : KVPairs float) (key0 : Key).
Variables (seq_num b : Z).
Hypothesis Hkeys : keys kvs <> [].
Hypothesis Hb : 0 < b.

Lemma block_msg_of_shard (val_bytes l seq : Z) (c : float) (w : Worker) :
  0 <= val_bytes -> 0 < l ->
  val_bytes + l <= Z.of_nat (length (vals kvs)) ->
  block_of_shard env ts i kvs key0
    (Message.set_contri c
       (block_msg env ts push pull cmd i kvs key0
          (Z.of_nat (length (vals kvs))) val_bytes seq seq_num
          (interval (vals kvs) (Z.to_nat val_bytes) (Z.to_nat (val_bytes + l)))
          w)).
Proof.
  intros Hvb Hl Hle. unfold block_of_shard, block_msg, AddData_kv.
  destruct (Nat.eqb_spec (length (keys kvs)) 0) as [H0|_].
  { by apply length_zero_iff_nil in H0. }
  pose proof (interval_length_Z (vals kvs) val_bytes l Hvb ltac:(lia) Hle)
    as Hlen.
  assert (Hadd : Z.to_nat (val_bytes + l)
                 = (Z.to_nat val_bytes + Z.to_nat l)%nat) by lia.
  destruct (length (lens kvs) =? 0)%nat;
    cbn -[interval Z.of_nat Z.mul sizeof_float sizeof_Key];
    (repeat (split; [reflexivity|]));
    exists (Z.to_nat val_bytes), (Z.to_nat l);
    (split; [lia|]); (split; [lia|]); (split; [lia|]);
    (split; [by rewrite <- Hadd|]); (split; [reflexivity|]);
    rewrite Hlen; lia.
Qed.

Lemma block_loop_blocks (fuel : nat) :
  forall (remain val_bytes seq : Z) (w w' : Worker),
    block_size w = b -> 0 <= remain -> 0 <= val_bytes ->
    seq_num = seq + ceil_div remain b ->
    block_loop env fuel ts push pull cmd i kvs key0
      (Z.of_nat (length (vals kvs))) seq_num remain val_bytes seq w = Some w' ->
    exists frames,
      msg_vector w' = msg_vector w ++ frames
      /\ Forall (block_of_shard env ts i kvs key0) frames
      /\ (remain <> 0 ->
          exists init m,
            frames = init ++ [m]
            /\ Meta.seq (Message.meta m) = Meta.seq_end (Message.meta m)).
Proof.
  induction fuel as [|fuel IH];
    intros remain val_bytes seq w w' Hbs Hrem Hvb Hnum Hrun;
    cbn [block_loop] in Hrun.
  - destruct (Z.eqb_spec remain 0) as [H0|]; [|done]. injection Hrun as <-.
    exists []. by rewrite app_nil_r.
  - destruct (Z.eqb_spec remain 0) as [H0|Hne].
    { injection Hrun as <-. exists []. by rewrite app_nil_r. }
    rewrite Hbs in Hrun. set (l := Z.min remain b) in *.
    assert (Hl : 0 < l <= remain) by (subst l; lia).
    destruct (segment (vals kvs) val_bytes (val_bytes + l)) as [tmp_val|]
      eqn:Hseg; [|done].
    apply segment_Some_inv in Hseg as (_ & Hle & ->).
    cbn [mbind option_bind] in Hrun.
    set (msg := block_msg env ts push pull cmd i kvs key0
                  (Z.of_nat (length (vals kvs))) val_bytes seq seq_num _ w)
      in *.
    destruct (Evaluate_msg_contri (to_int32 key0) msg w) as [c w1] eqn:He.
    pose proof (Evaluate_msg_contri_frame (to_int32 key0) msg w) as [Hf Hmv].
    rewrite He in Hf, Hmv. cbn [snd] in Hf, Hmv.
    assert (Hbs1 : block_size w1 = b) by (destruct Hf as (_ & -> & _); done).
    pose proof (block_msg_of_shard val_bytes l seq c w Hvb ltac:(lia) Hle)
      as Hblock.
    fold msg in Hblock.
    assert (Hseq : Meta.seq (Message.meta (Message.set_contri c msg)) = seq
                   /\ Meta.seq_end (Message.meta (Message.set_contri c msg))
                      = seq_num - 1).
    { subst msg. unfold block_msg, AddData_kv.
      destruct (length (keys kvs) =? 0)%nat; [done|].
      by destruct (length (lens kvs) =? 0)%nat. }
    destruct Hseq as [Hseq Hend].
    set (m := Message.set_contri c msg) in *. clearbody m. clear msg He.
    set (w2 := if negb (clear_zero (cfg w1) =? 0)
               then if F32.neqb (Message.contri m) F32.zero
                       || (Meta.seq (Message.meta m)
                           =? Meta.seq_end (Message.meta m))
                    then set_msg_vector (msg_vector w1 ++ [m]) w1 else w1
               else set_msg_vector (msg_vector w1 ++ [m]) w1) in *.
    assert (Hw2 : block_size w2 = b
                  /\ (msg_vector w2 = msg_vector w ++ [m]
                      \/ (msg_vector w2 = msg_vector w
                          /\ Meta.seq (Message.meta m)
                             <> Meta.seq_end (Message.meta m)))).
    { subst w2. destruct (negb (clear_zero (cfg w1) =? 0)).
      - destruct (F32.neqb (Message.contri m) F32.zero); cbn [orb].
        + split; [done|]. left. cbn. by rewrite Hmv.
        + destruct (Z.eqb_spec (Meta.seq (Message.meta m))
                      (Meta.seq_end (Message.meta m))).
          * split; [done|]. left. cbn. by rewrite Hmv.
          * split; [done|]. right. by rewrite Hmv.
      - split; [done|]. left. cbn. by rewrite Hmv. }
    destruct Hw2 as [Hbs2 Hvec2]. clearbody w2.
    destruct (decide (remain - l = 0)) as [Hdone|Hmore].
    + (* this block is the last one *)
      rewrite Hdone in Hrun.
      assert (w' = w2) as -> by (destruct fuel; cbn in Hrun; congruence).
      assert (Hterm : Meta.seq (Message.meta m) = Meta.seq_end (Message.meta m)).
      { rewrite Hseq, Hend, Hnum, (ceil_div_small remain b) by lia. lia. }
      destruct Hvec2 as [Hvec2|[_ Hno]]; [|done].
      exists [m]. split; [done|]. split; [by constructor|]. intros _.
      by exists [], m.
    + apply (IH (remain - l) (val_bytes + l) (seq + 1) w2 w' Hbs2) in Hrun;
        [|lia|lia|rewrite Hnum, (ceil_div_step remain b) by lia; fold l; lia].
      destruct Hrun as (frames & Hvec & Hall & Hlast).
      destruct (Hlast Hmore) as (init & m' & -> & Hm').
      destruct Hvec2 as [Hvec2|[Hvec2 _]].
      * exists ([m] ++ init ++ [m']). rewrite Hvec, Hvec2, <- app_assoc.
        split; [done|]. split; [by constructor|]. intros _.
        exists ([m] ++ init), m'. by rewrite <- app_assoc.
      * exists (init ++ [m']). rewrite Hvec, Hvec2.
        split; [done|]. split; [done|]. intros _. by exists init, m'.
Qed.

End BlockAnatomy.

Lemma block_size_positive (env : Env) (fuel : nat) (ts : Z) (push pull : bool)
    (cmd : Z) (i : nat) (kvs : KVPairs float) (key0 : Key)
    (total seq_num remain : Z) (w w' : Worker) :
  0 < remain -> block_size w <> 0 ->
  block_loop env fuel ts push pull cmd i kvs key0 total seq_num remain 0 0 w
  = Some w' ->
  0 < block_size w.
Proof.
  intros Hrem Hb Hrun. destruct fuel as [|fuel]; cbn [block_loop] in Hrun.
  - destruct (Z.eqb_spec remain 0); [lia|done].
  - destruct (Z.eqb_spec remain 0); [lia|].
    destruct (segment (vals kvs) 0 _) as [tmp|] eqn:Hseg; [|done].
    apply segment_Some_inv in Hseg as (Hle & _ & _). lia.
Qed.

Lemma block_push_anatomy (env : Env) (ts : Z) (push pull : bool) (cmd : Z)
    (i : nat) (kvs : KVPairs float) (key0 : Key) (w w' : Worker) :
  keys kvs <> [] -> msg_vector w = [] ->
  block_push env ts push pull cmd i kvs key0 w = Some w' ->
  exists init m new,
    outbox (world w') = outbox (world w) ++ new
    /\ Forall2 (fun x m' => exists c, wire_msg x = Message.set_channel c m')
         new
         ((if negb (set_random (cfg w) =? 0)
           then shuffle_by (shuffle_rank env) init
           else sort_by contri_gt init) ++ [m])
    /\ Forall (block_of_shard env ts i kvs key0) (init ++ [m])
    /\ Meta.seq (Message.meta m) = Meta.seq_end (Message.meta m)
    /\ msg_vector w' = [].
Proof.
  intros Hkeys Hmv Hrun. unfold block_push in Hrun.
  set (total := Z.of_nat (length (vals kvs))) in *.
  set (w0 := if enable_block (cfg w) =? 0 then set_block_size total w else w)
    in *.
  assert (Hw0 : cfg w0 = cfg w /\ world w0 = world w /\ msg_vector w0 = [])
    by (subst w0; by destruct (enable_block (cfg w) =? 0)).
  destruct Hw0 as (Hcfg0 & Hworld0 & Hmv0).
  destruct (Z.eqb_spec (block_size w0) 0) as [|Hb0]; [done|].
  cbn [negb CHECK mbind option_bind] in Hrun.
  destruct (0 <=? _); [|done]. cbn [CHECK mbind option_bind] in Hrun.
  destruct (block_loop _ _ _ _ _ _ _ _ _ _ _ _ _ _ w0) as [w1|] eqn:Hloop;
    [|done].
  cbn [mbind option_bind] in Hrun.
  destruct (rank_blocks env w1) as [ranked|] eqn:Hrank; [|done].
  cbn [mbind option_bind] in Hrun.
  destruct (dispatch_loop _ _ _ _ _) as [w2|] eqn:Hdisp; [|done].
  cbn [mbind option_bind] in Hrun. injection Hrun as <-.
  assert (Htot : 0 < total).
  { destruct (decide (total = 0)) as [H0|]; [|lia]. exfalso.
    rewrite H0 in Hloop. cbn in Hloop. injection Hloop as <-.
    unfold rank_blocks in Hrank. by rewrite Hmv0 in Hrank. }
  pose proof (block_loop_frame _ _ _ _ _ _ _ _ _ _ _ _ _ _ _ _ Hloop)
    as (Hcfg1 & _ & _ & _ & _ & _ & Hworld1).
  pose proof (block_size_positive _ _ _ _ _ _ _ _ _ _ _ _ _ _ Htot Hb0 Hloop)
    as Hb.
  rewrite seq_num_ceil in Hloop by lia.
  apply (block_loop_blocks env ts push pull cmd i kvs key0
           (ceil_div total (block_size w0)) (block_size w0) Hkeys Hb) in Hloop
    as (frames & Hvec & Hall & Hlast); [|done|lia|lia|lia].
  destruct (Hlast ltac:(lia)) as (init & m & -> & Hm).
  rewrite Hmv0, app_nil_l in Hvec.
  assert (Hranked : ranked
                    = (if negb (set_random (cfg w) =? 0)
                       then shuffle_by (shuffle_rank env) init
                       else sort_by contri_gt init) ++ [m]).
  { unfold rank_blocks in Hrank. rewrite Hvec, Hcfg1, Hcfg0 in Hrank.
    rewrite length_app in Hrank. cbn [length] in Hrank.
    destruct (Nat.eqb_spec (length init + 1) 0) as [|_]; [lia|].
    replace (length init + 1 - 1)%nat with (length init) in Hrank by lia.
    rewrite take_app_length, drop_app_length in Hrank.
    by destruct (negb (set_random (cfg w) =? 0)); injection Hrank. }
  apply dispatch_loop_emits in Hdisp as (new & Hout & _ & Hmsgs & _).
  exists init, m, new. rewrite <- Hranked.
  split. { cbn in Hout |- *. by rewrite Hout, Hworld1, Hworld0. }
  by repeat split.
Qed.

Lemma block_of_shard_emitted (env : Env) (ts : Z) (i : nat)
    (kvs : KVPairs float) (key0 : Key) (new : list Wire)
    (ms : list Message.t) :
  Forall2 (fun x m => exists c, wire_msg x = Message.set_channel c m) new ms ->
  Forall (block_of_shard env ts i kvs key0) ms ->
  Forall (fun x => block_of_shard env ts i kvs key0 (wire_msg x)) new.
Proof.
  induction 1 as [|x m new ms (c & Hx) _ IH]; [done|].
  intros Hall. apply Forall_cons in Hall as [Hm Hall].
  constructor; [|by apply IH]. rewrite Hx. exact Hm.
Qed.

(** X6. A block never misstates its payload.  Whatever the configuration
    (zero filter, random order, DGT on or off), every message that a
    block-wise push hands to the van is a block of the shard: addressed to
    the shard's server under the request's timestamp, it carries all keys
    of the shard and exactly the values of the shard that start at the
    offset [val_bytes] it announces. *)
Theorem block_push_payload (env : Env) (ts : Z) (push pull : bool) (cmd : Z)
    (i : nat) (kvs : KVPairs float) (key0 : Key) (w w' : Worker) :
  keys kvs <> [] -> msg_vector w = [] ->
  block_push env ts push pull cmd i kvs key0 w = Some w' ->
  exists new,
    outbox (world w') = outbox (world w) ++ new
    /\ Forall (fun x => block_of_shard env ts i kvs key0 (wire_msg x)) new.
Proof.
  intros Hkeys Hmv Hrun.
  destruct (block_push_anatomy env ts push pull cmd i kvs key0 w w'
              Hkeys Hmv Hrun) as (init & m & new & Hout & Hmsgs & Hall & _).
  exists new. split; [exact Hout|].
  eapply block_of_shard_emitted; [exact Hmsgs|].
  apply Forall_app in Hall as [Hinit Hm]. apply Forall_app. split; [|done].
  destruct (negb (set_random (cfg w) =? 0)).
  - by rewrite shuffle_by_Permutation.
  - by rewrite sort_by_Permutation.
Qed.

Lemma gtb_asym (a b : float) : F32.gtb a b = true -> F32.gtb b a = false.
Proof.
  unfold F32.gtb. destruct a as [|s|x], b as [|t|y]; cbn; try done.
  - by destruct s, t.
  - by destruct s.
  - by destruct t.
  - rewrite <- (Qcompare_antisym x y). by destruct (Qcompare x y).
Qed.

Section SortOrder.

Context {A : Type}.
Variable f : A -> float.

Lemma insert_by_HdRel (a : float) (x : A) (l : list A) :
  F32.gtb (f x) a = false ->
  HdRel (fun a b => F32.gtb b a = false) a (map f l) ->
  HdRel (fun a b => F32.gtb b a = false) a
    (map f (insert_by (fun a b => F32.gtb (f a) (f b)) x l)).
Proof.
  intros Hx Hl. destruct l as [|y l]; cbn; [by constructor|].
  destruct (F32.gtb (f y) (f x)); cbn; constructor; [|done].
  by apply HdRel_inv in Hl.
Qed.

Lemma insert_by_never_rising (x : A) (l : list A) :
  never_rising (map f l) ->
  never_rising (map f (insert_by (fun a b => F32.gtb (f a) (f b)) x l)).
Proof.
  unfold never_rising. induction l as [|y l IH]; intros Hs; cbn.
  - by repeat constructor.
  - cbn in Hs. apply Sorted_inv in Hs as [Hs Hhd].
    destruct (F32.gtb (f y) (f x)) eqn:Hyx; cbn.
    + constructor; [by apply IH|].
      apply insert_by_HdRel; [by apply gtb_asym|done].
    + constructor; [by constructor|]. by constructor.
Qed.

Lemma sort_by_never_rising (l : list A) :
  never_rising (map f (sort_by (fun a b => F32.gtb (f a) (f b)) l)).
Proof.
  induction l as [|x l IH]; cbn; [constructor|].
  by apply insert_by_never_rising.
Qed.

End SortOrder.

Lemma emitted_contri (new : list Wire) (ms : list Message.t) :
  Forall2 (fun x m => exists c, wire_msg x = Message.set_channel c m) new ms ->
  map (fun x => Message.contri (wire_msg x)) new = map Message.contri ms.
Proof.
  induction 1 as [|x m new ms (c & Hx) _ IH]; [done|].
  cbn [map]. by rewrite Hx, IH.
Qed.

Lemma geb_trans (a b c : float) :
  F32.geb a b = true -> F32.geb b c = true -> F32.geb a c = true.
Proof.
  unfold F32.geb. destruct a as [|s|x], b as [|t|y], c as [|r|z]; cbn;
    try done.
  all: try (by destruct s, t, r).
  all: try (by destruct s, t).
  all: try (by destruct s, r).
  all: try (by destruct t, r).
  all: try (by destruct s).
  all: try (by destruct t).
  all: try (by destruct r).
  destruct (Qcompare_spec x y) as [H1|H1|H1]; try done;
    destruct (Qcompare_spec y z) as [H2|H2|H2]; try done; intros _ _;
    destruct (Qcompare_spec x z) as [H3|H3|H3]; try done; exfalso; lra.
Qed.

Lemma not_gtb_geb (a b : float) :
  a <> NaN -> b <> NaN -> F32.gtb b a = false -> F32.geb a b = true.
Proof.
  unfold F32.gtb, F32.geb. destruct a as [|s|x], b as [|t|y]; cbn; try done.
  - by destruct s, t.
  - by destruct s.
  - by destruct t.
  - intros _ _. rewrite <- (Qcompare_antisym x y). by destruct (Qcompare x y).
Qed.

Lemma never_rising_descending (l : list float) :
  Forall (fun a => a <> NaN) l -> never_rising l -> descending l.
Proof.
  intros Hall Hs. apply Sorted_StronglySorted; [exact geb_trans|].
  induction Hs as [|a l Hs IH Hhd]; [constructor|].
  apply Forall_cons in Hall as [Ha Hall].
  constructor; [by apply IH|].
  destruct Hhd as [|b l Hab]; constructor.
  apply Forall_cons in Hall as [Hb _]. by apply not_gtb_geb.
Qed.

(** X7. The order of dispatch.  The terminal block of a shard (the one with
    [seq = seq_end]) is always the last message handed to the van; and
    unless the order is randomised or a contribution is NaN, the blocks
    before it leave in the order of their contributions, largest first:
    the contribution of each is at least that of every block after it. *)
Theorem block_push_order (env : Env) (ts : Z) (push pull : bool) (cmd : Z)
    (i : nat) (kvs : KVPairs float) (key0 : Key) (w w' : Worker) :
  keys kvs <> [] -> msg_vector w = [] ->
  block_push env ts push pull cmd i kvs key0 w = Some w' ->
  exists ranked x,
    outbox (world w') = outbox (world w) ++ ranked ++ [x]
    /\ Meta.seq (Message.meta (wire_msg x))
       = Meta.seq_end (Message.meta (wire_msg x))
    /\ (set_random (cfg w) = 0 ->
        Forall (fun y => Message.contri (wire_msg y) <> NaN) ranked ->
        descending (map (fun y => Message.contri (wire_msg y)) ranked)).
Proof.
  intros Hkeys Hmv Hrun.
  destruct (block_push_anatomy env ts push pull cmd i kvs key0 w w'
              Hkeys Hmv Hrun) as (init & m & new & Hout & Hmsgs & _ & Hm & _).
  apply Forall2_app_inv_r in Hmsgs as (new1 & new2 & Hnew1 & Hnew2 & ->).
  apply Forall2_cons_inv_r in Hnew2 as (x & new3 & (c & Hx) & Hnil & ->).
  apply Forall2_nil_inv_r in Hnil as ->.
  exists new1, x. split; [exact Hout|]. split; [by rewrite Hx|].
  intros Hrandom Hnan. rewrite Hrandom in Hnew1. cbn [Z.eqb negb] in Hnew1.
  apply never_rising_descending; [by apply Forall_fmap|].
  rewrite (emitted_contri _ _ Hnew1).
  apply (sort_by_never_rising Message.contri).
Qed.


Section BlockVector.

Variable env : Env.

Lemma call_msg_vector (c : Callback) (w w' : Worker) :
  call c w = Some w' -> msg_vector w' = msg_vector w.
Proof.
  destruct c as [id|ts ks vb lb cb]; cbn [call]; intros Hrun.
  - by injection Hrun as <-.
  - unfold pull_callback in Hrun.
    destruct (pull_check _ _ _ _ _) as [[tk tv]|]; [|done].
    cbn [mbind option_bind] in Hrun.
    destruct (CHECK (tk =? length ks)%nat); [|done].
    cbn [mbind option_bind] in Hrun.
    destruct (if (length vb =? 0)%nat then _ else _) as [vb'|]; [|done].
    cbn [mbind option_bind] in Hrun.
    destruct (match lb with Some _ => _ | None => _ end) as [lb'|]; [|done].
    cbn [mbind option_bind] in Hrun.
    destruct cb; by injection Hrun as <-.
Qed.

Lemma RunCallback_msg_vector (ts : Z) (w w' : Worker) :
  RunCallback ts w = Some w' -> msg_vector w' = msg_vector w.
Proof.
  unfold RunCallback. intros Hrun.
  destruct (callbacks_ w !! ts) as [c|]; [|by injection Hrun as <-].
  destruct (call c _) as [w1|] eqn:Hc; [|done].
  cbn [mbind option_bind] in Hrun. injection Hrun as <-.
  apply call_msg_vector in Hc. cbn [msg_vector set_callbacks_]. by rewrite Hc.
Qed.

Lemma Send_step_boundary_msg_vector (w w' : Worker) :
  Send_step_boundary env w = Some w' -> msg_vector w' = msg_vector w.
Proof.
  unfold Send_step_boundary. intros Hrun.
  destruct (1 <? push_op_num (set_push_op_num (push_op_num w + 1) w)).
  - unfold Update_loss_delta in Hrun.
    destruct (fp (rate (set_push_op_num (push_op_num w + 1) w))); [|done].
    cbn [mbind option_bind] in Hrun.
    destruct (negb _) in Hrun; by injection Hrun as <-.
  - unfold init_dgt, Open_loss_file in Hrun.
    destruct (DMLC_K env), (DMLC_K_MIN env), (ADAPTIVE_K_FLAG env),
      (DMLC_UDP_CHANNEL_NUM env); try done.
    cbn [mbind option_bind] in Hrun. injection Hrun as <-.
    by destruct (fopen_ok env).
Qed.

Lemma block_push_clears (ts : Z) (push pull : bool) (cmd : Z) (i : nat)
    (kvs : KVPairs float) (key0 : Key) (w w' : Worker) :
  block_push env ts push pull cmd i kvs key0 w = Some w' -> msg_vector w' = [].
Proof.
  unfold block_push. intros Hrun.
  destruct (CHECK (negb (block_size _ =? 0))); [|done].
  cbn [mbind option_bind] in Hrun.
  destruct (CHECK (0 <=? _)); [|done].
  cbn [mbind option_bind] in Hrun.
  destruct (block_loop env _ _ _ _ _ _ _ _ _ _ _ _ _ _) as [w1|]; [|done].
  cbn [mbind option_bind] in Hrun.
  destruct (rank_blocks env w1) as [ranked|]; [|done].
  cbn [mbind option_bind] in Hrun.
  destruct (dispatch_loop env 0 _ ranked _) as [w2|]; [|done].
  cbn [mbind option_bind] in Hrun. by injection Hrun as <-.
Qed.

Lemma Send_shard_msg_vector (ts : Z) (push pull : bool) (cmd : Z) (i : nat)
    (kvs : KVPairs float) (w w' : Worker) :
  msg_vector w = [] ->
  Send_shard env ts push pull cmd i kvs w = Some w' -> msg_vector w' = [].
Proof.
  unfold Send_shard. intros Hmv Hrun.
  destruct (head (keys kvs)) as [key0|]; [|done].
  cbn [mbind option_bind] in Hrun. destruct push.
  - destruct (if key0 =? 0 then _ else _) as [w1|] eqn:Hb; [|done].
    cbn [mbind option_bind] in Hrun.
    assert (Hw1 : msg_vector w1 = []).
    { destruct (key0 =? 0).
      - apply Send_step_boundary_msg_vector in Hb. congruence.
      - by injection Hb as <-. }
    destruct (push_op_num w1 =? 1).
    + by injection Hrun as <-.
    + by apply block_push_clears in Hrun.
  - by injection Hrun as <-.
Qed.

Lemma Send_loop_msg_vector (ts : Z) (push pull : bool) (cmd : Z)
    (sliced : list (bool * KVPairs float)) :
  forall (i : nat) (w w' : Worker),
    msg_vector w = [] ->
    Send_loop env ts push pull cmd i sliced w = Some w' -> msg_vector w' = [].
Proof.
  induction sliced as [|s sliced IH]; intros i w w' Hmv Hrun;
    cbn [Send_loop] in Hrun.
  - by injection Hrun as <-.
  - destruct (negb (fst s)); [by apply IH in Hrun|].
    destruct (Send_shard env ts push pull cmd i (snd s) w) as [w1|] eqn:Hs;
      [|done].
    cbn [mbind option_bind] in Hrun.
    apply Send_shard_msg_vector in Hs; [|done]. by apply IH in Hrun.
Qed.

Lemma act_msg_vector (a : Action) (w w' : Worker) :
  msg_vector w = [] -> act env a w = Some w' -> msg_vector w' = [].
Proof.
  intros Hmv Hrun.
  destruct a as [ts' push pull cmd kvs|msg|ts']; cbn [act] in Hrun.
  - unfold Send in Hrun.
    destruct (DefaultSlicer kvs (GetServerKeyRanges env)) as [sliced|]; [|done].
    cbn [mbind option_bind] in Hrun.
    destruct (if (count_skipped sliced =? length sliced)%nat then _ else _)
      as [w1|] eqn:Hcb; [|done].
    cbn [mbind option_bind] in Hrun.
    apply Send_loop_msg_vector in Hrun; [done|].
    destruct (count_skipped sliced =? length sliced)%nat.
    + apply RunCallback_msg_vector in Hcb. by rewrite Hcb.
    + by injection Hcb as <-.
  - unfold Receiving in Hrun.
    destruct (Process env msg w) as [w1|] eqn:Hp; [|done].
    cbn [mbind option_bind] in Hrun. injection Hrun as <-.
    cbn [msg_vector AddResponse set_world].
    unfold Process in Hp. destruct (Meta.simple_app (Message.meta msg)).
    { by injection Hp as <-. }
    destruct (if Meta.pull (Message.meta msg) then _ else _) as [w0|] eqn:Hst;
      [|done].
    cbn [mbind option_bind] in Hp.
    assert (H0 : msg_vector w0 = []).
    { destruct (Meta.pull (Message.meta msg)); [|by injection Hst as <-].
      destruct (CHECK _) in Hst; [|done]. cbn [mbind option_bind] in Hst.
      destruct (Message.data msg !! 0%nat); [|done].
      cbn [mbind option_bind] in Hst.
      destruct (Message.data msg !! 1%nat); [|done].
      cbn [mbind option_bind] in Hst. by injection Hst as <-. }
    destruct (NumResponse _ w0 =? num_servers env - 1).
    + apply RunCallback_msg_vector in Hp. by rewrite Hp.
    + by injection Hp as <-.
  - apply RunCallback_msg_vector in Hrun. by rewrite Hrun.
Qed.

End BlockVector.

(** X9. The block vector is empty between operations.  A worker that starts
    with an empty [msg_vector] has it empty again after any sequence of
    sends, deliveries and callbacks; so a block-wise push only ever
    dispatches the blocks of its own shard, never a block left over from
    an earlier push. *)
Theorem msg_vector_stays_empty (env : Env) (acts : list Action)
    (w w' : Worker) :
  msg_vector w = [] -> run env acts w = Some w' -> msg_vector w' = [].
Proof.
  revert w. induction acts as [|a acts IH]; intros w Hmv Hrun;
    cbn [run] in Hrun.
  - by injection Hrun as <-.
  - destruct (act env a w) as [w1|] eqn:Ha; [|done].
    cbn [mbind option_bind] in Hrun.
    apply (IH w1); [|done]. by eapply act_msg_vector.
Qed.

(** ** The scorer: the sign of a score, and what NaN does to it *)


Lemma Evaluate_msg_contri_value (key : Z) (msg : Message.t) (w : Worker) :
  let seq := Meta.seq (Message.meta msg) in
  let alpha := contri_alpha (cfg w) in
  let old := contri_at key seq (contri (scores w)) in
  let N := sum_abs (take (Z.to_nat (msg_nlen msg)) (msg_weights msg)) in
  let v := F32.add (F32.mul alpha old)
             (F32.mul (F32.sub (F32.of_int 1) alpha)
                (F32.div N (F32.of_int (msg_nlen msg)))) in
  let r := Evaluate_msg_contri key msg w in
  fst r = v /\ contri_at key seq (contri (scores (snd r))) = v.
Proof.
  intros seq alpha old N v r. subst r. unfold Evaluate_msg_contri. cbv zeta.
  fold seq alpha N.
  rewrite contri_at_ensure_seq, contri_at_ensure_key. fold old. fold v.
  rewrite contri_at_store.
  match goal with
  | |- context [Update_contri_max key seq ?e v ?s] =>
      destruct (Update_contri_max_spec key seq e v s) as (Hc & _ & _);
      set (s1 := s) in *
  end.
  cbn [fst snd scores set_scores]. rewrite Hc. subst s1. cbn [contri].
  by rewrite contri_at_store.
Qed.

Lemma not_negative_cases (x : float) :
  not_negative x
  <-> match x with
      | NaN => True
      | Inf s => s = false
      | Fin q => (0 <= q)%Q
      end.
Proof.
  unfold not_negative, F32.ltb, F32.zero. destruct x as [|s|q]; cbn.
  - done.
  - by destruct s.
  - destruct (Qcompare_spec q 0) as [H|H|H]; split; intros; (done || lra).
Qed.

Lemma not_negative_abs (x : float) : not_negative (F32.abs x).
Proof.
  apply not_negative_cases. destruct x as [|s|q]; cbn; [done..|].
  apply Qabs_nonneg.
Qed.

Lemma not_negative_add (x y : float) :
  not_negative x -> not_negative y -> not_negative (F32.add x y).
Proof.
  rewrite !not_negative_cases. destruct x as [|s|p], y as [|t|q]; cbn;
    try done.
  - by intros -> ->.
  - intros. lra.
Qed.

Lemma Qzero_false_neg (q : Q) :
  (0 <= q)%Q -> F32.Qzero q = false -> F32.Qneg q = false.
Proof.
  intros Hq _. unfold F32.Qneg.
  destruct (Qcompare_spec q 0) as [|H|]; [done| |done]. exfalso. lra.
Qed.

Lemma not_negative_mul (x y : float) :
  not_negative x -> not_negative y -> not_negative (F32.mul x y).
Proof.
  rewrite !not_negative_cases. destruct x as [|s|p], y as [|t|q]; cbn;
    try done.
  - by intros -> ->.
  - intros -> Hq. destruct (F32.Qzero q) eqn:Hz; [done|].
    cbn. by rewrite Qzero_false_neg.
  - intros Hp ->. destruct (F32.Qzero p) eqn:Hz; [done|].
    cbn. by rewrite Qzero_false_neg.
  - intros. by apply Qmult_le_0_compat.
Qed.

Lemma not_negative_div_int (x : float) (n : Z) :
  0 <= n -> not_negative x -> not_negative (F32.div x (F32.of_int n)).
Proof.
  intros Hn. rewrite !not_negative_cases. unfold F32.of_int.
  assert (Hq : (0 <= inject_Z n)%Q)
    by (change 0%Q with (inject_Z 0); by rewrite <- Zle_Qle).
  destruct x as [|s|p]; cbn; [done| |].
  - intros ->. cbn. unfold F32.Qneg.
    destruct (Qcompare_spec (inject_Z n) 0) as [|H|]; [done| |done].
    exfalso. lra.
  - intros Hp. destruct (F32.Qzero (inject_Z n)) eqn:Hz.
    + destruct (F32.Qzero p) eqn:Hzp; [done|]. cbn.
      by apply Qzero_false_neg.
    + cbn. apply Qle_shift_div_l; [|lra].
      unfold F32.Qzero in Hz.
      destruct (Qcompare_spec (inject_Z n) 0) as [|H|H]; [done| |done].
      exfalso. lra.
Qed.

Lemma not_negative_sum_abs (ws : list float) : not_negative (sum_abs ws).
Proof.
  unfold sum_abs.
  assert (H0 : not_negative F32.zero) by done. revert H0.
  generalize F32.zero. induction ws as [|x ws IH]; intros acc Hacc; [done|].
  cbn [foldl]. apply IH, not_negative_add; [done|apply not_negative_abs].
Qed.

Lemma msg_nlen_nonneg (msg : Message.t) : 0 <= msg_nlen msg.
Proof.
  unfold msg_nlen. destruct (Message.data msg !! 1%nat) as [c|]; [|done].
  apply Z.quot_pos; [|done].
  destruct c; cbn; unfold sizeof_Key, sizeof_float, sizeof_int; lia.
Qed.

Lemma contri_at_store_other (key seq key' seq' : Z) (v : float)
    (m : gmap Z (gmap Z float)) :
  (key', seq') <> (key, seq) ->
  contri_at key' seq' (contri_store key seq v m) = contri_at key' seq' m.
Proof.
  intros Hne. unfold contri_at, contri_store.
  destruct (decide (key' = key)) as [->|Hk].
  - rewrite lookup_insert_eq. cbn [default from_option id].
    rewrite lookup_insert_ne; [done|]. congruence.
  - by rewrite lookup_insert_ne.
Qed.

Lemma Evaluate_msg_contri_others (key : Z) (msg : Message.t) (w : Worker)
    (key' seq' : Z) :
  (key', seq') <> (key, Meta.seq (Message.meta msg)) ->
  contri_at key' seq' (contri (scores (snd (Evaluate_msg_contri key msg w))))
  = contri_at key' seq' (contri (scores w)).
Proof.
  intros Hne. unfold Evaluate_msg_contri. cbv zeta.
  match goal with
  | |- context [Update_contri_max key ?sq ?e ?v ?s] =>
      destruct (Update_contri_max_spec key sq e v s) as (Hc & _ & _);
      set (s1 := s) in *
  end.
  cbn [fst snd scores set_scores]. rewrite Hc. subst s1. cbn [contri].
  clear Hc. rewrite contri_at_store_other by done.
  set (m0 := contri (scores w)).
  set (m1 := if bool_decide (m0 !! key = None)
             then contri_store key (Meta.seq (Message.meta msg)) F32.zero m0
             else m0).
  assert (H1 : forall k s, contri_at k s m1 = contri_at k s m0).
  { intros k s. subst m1. case_bool_decide as Hb; [|done].
    destruct (decide ((k, s) = (key, Meta.seq (Message.meta msg))))
      as [[= -> ->]|Hks].
    - rewrite contri_at_store. unfold contri_at. by rewrite Hb.
    - by apply contri_at_store_other. }
  case_bool_decide as Hb; [|by apply H1].
  rewrite contri_at_store_other by done. apply H1.
Qed.

(** X15. A score is never negative.  With a smoothing factor [alpha] between
    [0] and [1], and whatever the weights of the block are, the scorer
    returns a score that is not below zero, and leaves no block with a
    score below zero if there was none before.  The score may be NaN or
    [+inf]. *)
Theorem Evaluate_msg_contri_not_negative (key : Z) (msg : Message.t)
    (w : Worker) (a : Q) :
  contri_alpha (cfg w) = Fin a -> (0 <= a <= 1)%Q ->
  scores_not_negative w ->
  not_negative (fst (Evaluate_msg_contri key msg w))
  /\ scores_not_negative (snd (Evaluate_msg_contri key msg w)).
Proof.
  intros Halpha [Ha0 Ha1] Hw.
  destruct (Evaluate_msg_contri_value key msg w) as [Hv Hs].
  cbv zeta in Hv, Hs. rewrite Halpha in Hv, Hs.
  assert (Hnn : not_negative
                  (F32.add
                     (F32.mul (Fin a)
                        (contri_at key (Meta.seq (Message.meta msg))
                           (contri (scores w))))
                     (F32.mul (F32.sub (F32.of_int 1) (Fin a))
                        (F32.div
                           (sum_abs (take (Z.to_nat (msg_nlen msg))
                                       (msg_weights msg)))
                           (F32.of_int (msg_nlen msg)))))).
  { apply not_negative_add; apply not_negative_mul.
    - by apply not_negative_cases.
    - apply Hw.
    - apply not_negative_cases. cbn. change (inject_Z 1) with 1%Q. lra.
    - apply not_negative_div_int;
        [apply msg_nlen_nonneg|apply not_negative_sum_abs]. }
  split; [by rewrite Hv|].
  intros key' seq'.
  destruct (decide ((key', seq') = (key, Meta.seq (Message.meta msg))))
    as [[= -> ->]|Hne].
  - by rewrite Hs.
  - rewrite Evaluate_msg_contri_others by done. apply Hw.
Qed.

Lemma sum_abs_acc_NaN (ws : list float) :
  foldl (fun N x => F32.add N (F32.abs x)) NaN ws = NaN.
Proof. induction ws as [|x ws IH]; [done|]. cbn [foldl]. exact IH. Qed.

Lemma sum_abs_NaN (ws : list float) : NaN ∈ ws -> sum_abs ws = NaN.
Proof.
  unfold sum_abs. generalize F32.zero.
  induction ws as [|x ws IH]; intros acc Hin; [by apply elem_of_nil in Hin|].
  cbn [foldl]. apply elem_of_cons in Hin as [<-|Hin].
  - replace (F32.add acc (F32.abs NaN)) with NaN by (by destruct acc).
    apply sum_abs_acc_NaN.
  - by apply IH.
Qed.

(** X16. A score is poisoned for good.  A block with no weight at all (its
    mean is [0 / 0]), a block with a NaN among its weights, and a block
    whose stored score is already NaN all get the score NaN, and NaN is
    what is stored for the next round: from then on the score of that
    block stays NaN whatever weights it carries. *)
Theorem Evaluate_msg_contri_NaN_sticks (key : Z) (msg : Message.t)
    (w : Worker) :
  msg_nlen msg = 0
  \/ (exists ws, Message.data msg !! 1%nat = Some (DVals ws) /\ NaN ∈ ws)
  \/ contri_at key (Meta.seq (Message.meta msg)) (contri (scores w)) = NaN ->
  fst (Evaluate_msg_contri key msg w) = NaN
  /\ contri_at key (Meta.seq (Message.meta msg))
       (contri (scores (snd (Evaluate_msg_contri key msg w)))) = NaN.
Proof.
  intros Hcase.
  destruct (Evaluate_msg_contri_value key msg w) as [-> ->].
  assert (Hmul : forall x, F32.mul x NaN = NaN) by (by intros []).
  assert (Hadd : forall x, F32.add x NaN = NaN) by (by intros []).
  destruct Hcase as [H0|[(ws & Hdata & Hin)|Hold]].
  - rewrite H0. cbn [Z.to_nat take]. change (sum_abs []) with (Fin 0).
    change (F32.div (Fin 0) (F32.of_int 0)) with NaN.
    by rewrite Hmul, Hadd.
  - destruct (msg_nlen_vals msg ws Hdata) as [-> ->].
    rewrite Nat2Z.id, firstn_all, (sum_abs_NaN ws Hin).
    cbn [F32.div]. by rewrite Hmul, Hadd.
  - rewrite Hold, Hmul. split; reflexivity.
Qed.

(** ** The pull callback and the channel estimate: failing cases *)

Lemma pull_check_totals (ks : list Key) (has_lens : bool)
    (l : list (KVPairs float)) :
  forall tk tv tk' tv' : nat,
    pull_check ks has_lens l tk tv = Some (tk', tv') ->
    tk' = (tk + length (concat (map keys l)))%nat
    /\ tv' = (tv + length (concat (map vals l)))%nat.
Proof.
  induction l as [|s l IH]; intros tk tv tk' tv' Hrun; cbn [pull_check] in Hrun.
  - injection Hrun as <- <-. cbn. lia.
  - destruct (head (keys s)) as [front|]; [|done].
    cbn [mbind option_bind] in Hrun.
    destruct (last (keys s)) as [back|]; [|done].
    cbn [mbind option_bind] in Hrun.
    destruct (CHECK (_ - _ =? _)); [|done]. cbn [mbind option_bind] in Hrun.
    destruct (if has_lens then _ else _); [|done].
    cbn [mbind option_bind] in Hrun.
    apply IH in Hrun as [-> ->]. cbn [map concat]. rewrite !length_app. lia.
Qed.

(** X18. The pull callback ends the process when the replies do not add up to
    the requested keys ("lost some servers?"), and when a buffer of the
    caller that is not empty has not the size of the result.  The replies
    are those stored for the timestamp; none stored counts as none
    received. *)
Theorem pull_callback_fatal (ts : Z) (ks : list Key) (vals_buf : list float)
    (lens_buf : option (list Z)) (cb : option Z) (w : Worker) :
  let arrived := default [] (recv_kvs_ w !! ts) in
  length (concat (map keys arrived)) <> length ks
  \/ (vals_buf <> []
      /\ length vals_buf <> length (concat (map vals arrived)))
  \/ (exists lb, lens_buf = Some lb /\ lb <> [] /\ length lb <> length ks) ->
  pull_callback ts ks vals_buf lens_buf cb w = None.
Proof.
  intros arrived Hcase. unfold pull_callback. fold arrived.
  destruct (pull_check ks _ arrived 0 0) as [[tk tv]|] eqn:Hchk; [|done].
  apply pull_check_totals in Hchk as [-> ->]. cbn [mbind option_bind].
  rewrite !Nat.add_0_l.
  destruct (Nat.eqb_spec (length (concat (map keys arrived))) (length ks))
    as [Hk|Hk]; [|done].
  cbn [CHECK mbind option_bind].
  destruct Hcase as [Hbad|[[Hne Hbad]|(lb & -> & Hne & Hbad)]]; [done| |].
  - destruct (Nat.eqb_spec (length vals_buf) 0) as [H0|_].
    { by apply length_zero_iff_nil in H0. }
    by destruct (Nat.eqb_spec (length vals_buf)
                   (length (concat (map vals arrived)))).
  - destruct (if (length vals_buf =? 0)%nat then _ else _); [|done].
    cbn [mbind option_bind].
    destruct (Nat.eqb_spec (length lb) 0) as [H0|_].
    { by apply length_zero_iff_nil in H0. }
    by destruct (Nat.eqb_spec (length lb) (length ks)).
Qed.

(** X17. [Aproximate_channel_estimate] knows four answers only.  Its loop
    leaves after the first turn, so whatever the share [p] of the block's
    contribution in the maximum is, the result is [0] (no maximum yet, or
    [p >= 1]), the constant [9] ([p == 0], also when there are fewer than
    nine channels), [C] or [C - 1]; a channel in between is never named.
    With no maximum recorded for the key, the result is [0] and the entry
    is created with value [0]; the scores and the previous maxima are not
    touched. *)
Theorem Aproximate_channel_estimate_values (env : Env) (msg : Message.t)
    (C : Z) (w : Worker) :
  let key := Meta.first_key (Message.meta msg) in
  let r := Aproximate_channel_estimate env msg C w in
  (fst r = 0 \/ fst r = 9 \/ fst r = C \/ fst r = C - 1)
  /\ (contri_max (scores w) !! key = None ->
      fst r = 0 /\ contri_max (scores (snd r)) !! key = Some F32.zero)
  /\ contri (scores (snd r)) = contri (scores w)
  /\ pre_contri_max (scores (snd r)) = pre_contri_max (scores w).
Proof.
  intros key r. subst r key. unfold Aproximate_channel_estimate.
  cbv zeta. split; [|split].
  - destruct (F32.geb _ (F32.of_int 1)); [by left|].
    destruct (F32.eqb _ (F32.of_int 0)); [by right; left|].
    cbn [fst]. destruct (0 <? C); [|right; right; left; lia].
    destruct (_ && _); [|right; right; left; lia].
    destruct (F32.geb _ _); [right; right; left; lia|].
    right; right; right; lia.
  - intros Hnone. rewrite Hnone. rewrite bool_decide_eq_true_2 by done.
    rewrite lookup_insert_eq. cbn [default from_option id].
    change (F32.neqb F32.zero F32.zero) with false. cbv iota.
    change (F32.geb (F32.of_int 1) (F32.of_int 1)) with true. cbv iota.
    split; [done|]. cbn [snd scores set_scores contri_max].
    apply lookup_insert_eq.
  - destruct (F32.geb _ (F32.of_int 1)); [done|].
    by destruct (F32.eqb _ (F32.of_int 0)).
Qed.

(** X19. [PushPull] without keys.  With no keys nothing is sent and the pull
    callback runs inside the call, on no reply at all.  If there are no
    values either, the call completes: the result is empty and the user's
    callback has run.  But if values are pushed under no key, the buffer
    that [PushPull] sized for them does not fit the empty result, and the
    callback ends the process. *)
Theorem PushPull_no_keys (env : Env) (vs : list float) (cmd : Z)
    (cb : option Z) (prio : Z) (w : Worker) :
  contiguous (GetServerKeyRanges env) ->
  recv_kvs_ w !! next_ts (world w) = None ->
  let ts := next_ts (world w) in
  (vs = [] ->
   exists w',
     PushPull env [] vs (Some []) None cmd cb prio w = Some (ts, w')
     /\ pulled (world w') !! ts = Some ([], None)
     /\ callbacks_ w' !! ts = None
     /\ outbox (world w') = outbox (world w)
     /\ log (world w')
        = log (world w)
            ++ EvCallback ts
                 :: match cb with Some id => [EvUser id] | None => [] end)
  /\ (vs <> [] -> PushPull env [] vs (Some []) None cmd cb prio w = None).
Proof.
  intros Hc Hfresh ts.
  assert (Hrun : PushPull env [] vs (Some []) None cmd cb prio w
                 = (w' ← RunCallback ts
                           (AddResponse ts
                              (Z.of_nat (length (GetServerKeyRanges env)))
                              (AddCallback ts
                                 (Some (PullCb ts []
                                          (replicate (length vs) F32.zero)
                                          None cb))
                                 (snd (NewRequest w))));
                    Some (ts, w'))).
  { unfold PushPull, ZPushPull, AddPullCB. cbn [mbind option_bind length Nat.eqb].
    unfold NewRequest. fold ts. cbn [snd]. by rewrite Send_no_keys. }
  rewrite Hrun. unfold RunCallback, AddResponse, AddCallback, NewRequest.
  fold ts.
  cbn [callbacks_ set_world set_callbacks_ snd].
  rewrite lookup_insert_eq. cbn [call]. unfold pull_callback.
  cbn [recv_kvs_ log_event set_world set_callbacks_].
  fold ts in Hfresh. rewrite Hfresh.
  cbn [default from_option id pull_check mbind option_bind length Nat.eqb
       CHECK bool_decide].
  split.
  - intros ->. cbn [length replicate Nat.eqb mbind option_bind].
    destruct cb as [id|]; (eexists; split; [reflexivity|]);
      cbn; rewrite ?lookup_insert_eq, ?lookup_delete_eq, <- ?app_assoc;
      by repeat split.
  - intros Hne. rewrite length_replicate.
    destruct (Nat.eqb_spec (length vs) 0) as [H0|_].
    { by apply length_zero_iff_nil in H0. }
    done.
Qed.

(** ** The server and its example handle *)

Lemma stored_insert (st : gmap Key float) (k : Key) (v : float) :
  stored (<[k := v]> st) k = v.
Proof. unfold stored. by rewrite lookup_insert_eq. Qed.

Lemma stored_insert_ne (st : gmap Key float) (k k' : Key) (v : float) :
  k <> k' -> stored (<[k := v]> st) k' = stored st k'.
Proof. intros Hne. unfold stored. by rewrite lookup_insert_ne. Qed.

Lemma stored_ensure (st : gmap Key float) (k k' : Key) :
  stored (if bool_decide (st !! k = None) then <[k := F32.zero]> st else st) k'
  = stored st k'.
Proof.
  case_bool_decide as Hk; [|done].
  destruct (decide (k = k')) as [<-|Hne].
  - rewrite stored_insert. unfold stored. by rewrite Hk.
  - by apply stored_insert_ne.
Qed.

Lemma handle_loop_spec (push pull : bool) (req : list float) (ks : list Key) :
  NoDup ks ->
  forall (i : nat) (st : gmap Key float) (rv : list float),
    (push = true -> (i + length ks <= length req)%nat) ->
    (pull = true -> (i + length ks <= length rv)%nat) ->
    exists st' rv',
      KVServerDefaultHandle.loop push pull ks i req st rv = Some (st', rv')
      /\ (forall j k, ks !! j = Some k ->
            stored st' k
            = if push
              then F32.add (stored st k) (default F32.zero (req !! (i + j)%nat))
              else stored st k)
      /\ (forall k, k ∉ ks -> stored st' k = stored st k)
      /\ rv' = if pull
               then take i rv ++ map (stored st') ks
                      ++ drop (i + length ks) rv
               else rv.
Proof.
  induction 1 as [|key ks Hkey Hnd IH]; intros i st rv Hreq Hrv;
    cbn [KVServerDefaultHandle.loop].
  - exists st, rv. split; [done|]. split; [done|]. split; [done|].
    destruct pull; [|done]. cbn. by rewrite Nat.add_0_r, take_drop.
  - cbn [length] in Hreq, Hrv.
    set (st1 := if push
                then <[key := F32.add (stored st key)
                                (default F32.zero (req !! i))]> st
                else st).
    assert (Hst1 : (if push then
                      v ← req !! i;
                      Some (<[key := F32.add (default F32.zero (st !! key)) v]> st)
                    else Some st) = Some st1).
    { subst st1. destruct push; [|done].
      destruct (lookup_lt_is_Some_2 req i ltac:(specialize (Hreq eq_refl); lia))
        as [v Hv].
      by rewrite Hv. }
    rewrite Hst1. cbn [mbind option_bind].
    assert (Hread1 : stored st1 key
                     = (if push
                        then F32.add (stored st key)
                               (default F32.zero (req !! i))
                        else stored st key)
                     /\ forall k, k <> key -> stored st1 k = stored st k).
    { subst st1. destruct push; [|done]. split.
      - by rewrite stored_insert.
      - intros k Hk. by apply stored_insert_ne. }
    destruct Hread1 as [Hkey1 Hother1]. clearbody st1. clear Hst1.
    set (st2 := if bool_decide (st1 !! key = None)
                then <[key := F32.zero]> st1 else st1).
    set (p := if pull
              then (st2, <[i := default F32.zero (st2 !! key)]> rv)
              else (st1, rv)).
    assert (Hp : (forall k, stored (fst p) k = stored st1 k)
                 /\ snd p = if pull then <[i := stored st1 key]> rv else rv).
    { subst p st2. destruct pull; [|done]. cbn [fst snd]. split.
      - intros k. apply stored_ensure.
      - f_equal. apply (stored_ensure st1 key key). }
    destruct p as [st3 rv1]. cbn [fst snd] in Hp. destruct Hp as [Hst3 ->].
    clear st2.
    destruct (IH (S i) st3 (if pull then <[i := stored st1 key]> rv else rv))
      as (st' & rv' & Hrun & Hks & Hout & Hrv').
    { intros Hpush. specialize (Hreq Hpush). lia. }
    { intros Hpull. rewrite Hpull, length_insert. specialize (Hrv Hpull). lia. }
    exists st', rv'. split; [exact Hrun|].
    assert (Hk' : stored st' key = stored st1 key)
      by (rewrite (Hout key Hkey); apply Hst3).
    split; [|split].
    + intros [|j] k Hj; cbn in Hj.
      * injection Hj as <-. rewrite Hk', Hkey1. by rewrite Nat.add_0_r.
      * assert (k <> key).
        { intros ->. apply Hkey. by eapply list_elem_of_lookup_2. }
        rewrite (Hks j k Hj), Hst3, Hother1 by done.
        by replace (S i + j)%nat with (i + S j)%nat by lia.
    + intros k Hk. apply not_elem_of_cons in Hk as [Hne Hk].
      by rewrite (Hout k Hk), Hst3, Hother1.
    + rewrite Hrv'. destruct pull; [|done]. specialize (Hrv eq_refl).
      rewrite (take_S_r _ i (stored st1 key))
        by (apply list_lookup_insert_eq; lia).
      rewrite take_insert_ge, drop_insert_lt by lia.
      cbn [map length]. rewrite Hk', <- app_assoc.
      replace (i + S (length ks))%nat with (S i + length ks)%nat by lia.
      done.
Qed.

Lemma handle_call_spec (env : Env) (h : KVServerDefaultHandle.t)
    (meta : KVMeta.t) (data : KVPairs float)
    (s : KVServer.t KVServerDefaultHandle.t) :
  NoDup (keys data) ->
  (KVMeta.pull meta = false -> length (vals data) = length (keys data)) ->
  (KVMeta.push meta = true -> (length (keys data) <= length (vals data))%nat) ->
  exists h',
    KVServerDefaultHandle.call env h meta data s
    = Some (h', KVServer.Response env meta
                  (if KVMeta.pull meta
                   then mkKV (keys data)
                          (map (stored (KVServerDefaultHandle.store h'))
                             (keys data)) [] 0
                   else empty_kv) s)
    /\ (forall j k, keys data !! j = Some k ->
          stored (KVServerDefaultHandle.store h') k
          = if KVMeta.push meta
            then F32.add (stored (KVServerDefaultHandle.store h) k)
                   (default F32.zero (vals data !! j))
            else stored (KVServerDefaultHandle.store h) k)
    /\ (forall k, k ∉ keys data ->
          stored (KVServerDefaultHandle.store h') k
          = stored (KVServerDefaultHandle.store h) k).
Proof.
  intros Hnd Hlen Hpush. unfold KVServerDefaultHandle.call.
  set (n := length (keys data)).
  set (rv := if KVMeta.pull meta then replicate n F32.zero else []).
  assert (Hres : (if negb (KVMeta.pull meta)
                  then _ ← CHECK (n =? length (vals data))%nat; Some empty_kv
                  else Some (mkKV (keys data) (replicate n F32.zero) [] 0))
                 = Some (mkKV (if KVMeta.pull meta then keys data else [])
                           rv [] 0)).
  { subst rv. destruct (KVMeta.pull meta); [done|]. cbn [negb].
    rewrite (Hlen eq_refl). subst n. by rewrite Nat.eqb_refl. }
  rewrite Hres. cbn [mbind option_bind vals keys lens priority].
  destruct (handle_loop_spec (KVMeta.push meta) (KVMeta.pull meta)
              (vals data) (keys data) Hnd 0
              (KVServerDefaultHandle.store h) rv)
    as (st' & rv' & Hrun & Hks & Hout & Hrv').
  { intros Hp. specialize (Hpush Hp). lia. }
  { intros Hp. subst rv. rewrite Hp, length_replicate. subst n. lia. }
  rewrite Hrun. cbn [mbind option_bind].
  exists (KVServerDefaultHandle.mk st'). cbn [KVServerDefaultHandle.store].
  split; [|split; [exact Hks|exact Hout]].
  do 3 f_equal. rewrite Hrv'. subst rv.
  destruct (KVMeta.pull meta); [|done]. cbn [take app Nat.add].
  fold n. rewrite drop_ge by (rewrite length_replicate; lia).
  by rewrite app_nil_r.
Qed.

(** X20. The example handle keeps a sum per key.  For a request with distinct
    keys, a push adds each value to what the store holds for its key
    ([0] when it holds nothing), a pull answers with the request's keys and
    what the store holds for them, after the additions when the request is
    both; the values held for other keys do not change, and a request
    that only pushes is answered without data. *)
Theorem DefaultHandle_serves (env : Env) (h : KVServerDefaultHandle.t)
    (meta : KVMeta.t) (data : KVPairs float)
    (s : KVServer.t KVServerDefaultHandle.t) :
  NoDup (keys data) ->
  (KVMeta.pull meta = false -> length (vals data) = length (keys data)) ->
  (KVMeta.push meta = true -> (length (keys data) <= length (vals data))%nat) ->
  exists h',
    KVServerDefaultHandle.call env h meta data s
    = Some (h', KVServer.Response env meta
                  (if KVMeta.pull meta
                   then mkKV (keys data)
                          (map (stored (KVServerDefaultHandle.store h'))
                             (keys data)) [] 0
                   else empty_kv) s)
    /\ (forall j k, keys data !! j = Some k ->
          stored (KVServerDefaultHandle.store h') k
          = if KVMeta.push meta
            then F32.add (stored (KVServerDefaultHandle.store h) k)
                   (default F32.zero (vals data !! j))
            else stored (KVServerDefaultHandle.store h) k)
    /\ (forall k, k ∉ keys data ->
          stored (KVServerDefaultHandle.store h') k
          = stored (KVServerDefaultHandle.store h) k).
Proof. apply handle_call_spec. Qed.

Lemma add_zero_l (v : float) : F32.add F32.zero v = v.
Proof.
  destruct v as [| |[n d]]; try done. cbn. unfold Qplus. cbn.
  by rewrite Z.mul_1_r.
Qed.

Lemma map_stored_eq (f : Key -> float) (ks : list Key) (vs : list float) :
  length vs = length ks ->
  (forall j k, ks !! j = Some k -> f k = default F32.zero (vs !! j)) ->
  map f ks = vs.
Proof.
  intros Hlen Hf. apply list_eq. intros j.
  change (map f ks) with (f <$> ks). rewrite list_lookup_fmap.
  destruct (ks !! j) as [k|] eqn:Hk; cbn.
  - rewrite (Hf j k Hk).
    destruct (lookup_lt_is_Some_2 vs j) as [v Hv].
    { rewrite Hlen. by eapply lookup_lt_Some. }
    by rewrite Hv.
  - symmetry. apply lookup_ge_None. rewrite Hlen. by apply lookup_ge_None.
Qed.

(** X21. Push, then pull: on a server whose store holds nothing for the keys,
    a push of the values [vs] under distinct keys followed by a pull of the
    same keys is answered with exactly [vs], in the order of the keys. *)
Theorem DefaultHandle_push_then_pull (env : Env)
    (h : KVServerDefaultHandle.t) (pushing pulling : KVMeta.t)
    (ks : list Key) (vs : list float)
    (s : KVServer.t KVServerDefaultHandle.t) :
  NoDup ks -> length vs = length ks ->
  (forall k, k ∈ ks -> KVServerDefaultHandle.store h !! k = None) ->
  KVMeta.push pushing = true -> KVMeta.pull pushing = false ->
  KVMeta.push pulling = false -> KVMeta.pull pulling = true ->
  exists h1 h2,
    let s1 := KVServer.Response env pushing empty_kv s in
    KVServerDefaultHandle.call env h pushing (mkKV ks vs [] 0) s
    = Some (h1, s1)
    /\ KVServerDefaultHandle.call env h1 pulling (mkKV ks [] [] 0) s1
       = Some (h2, KVServer.Response env pulling (mkKV ks vs [] 0) s1).
Proof.
  intros Hnd Hlen Hfresh Hp1 Hq1 Hp2 Hq2.
  destruct (handle_call_spec env h pushing (mkKV ks vs [] 0) s)
    as (h1 & Hrun1 & Hks1 & _); cbn [keys vals]; [done|done|lia|].
  set (s1 := KVServer.Response env pushing empty_kv s).
  destruct (handle_call_spec env h1 pulling (mkKV ks [] [] 0) s1)
    as (h2 & Hrun2 & Hks2 & _); cbn [keys vals]; [done|by rewrite Hq2|
                                                  by rewrite Hp2|].
  rewrite Hq1 in Hrun1. rewrite Hq2 in Hrun2. cbn [keys] in Hrun1, Hrun2.
  exists h1, h2. split; [exact Hrun1|]. rewrite Hrun2. do 4 f_equal.
  apply map_stored_eq; [done|]. intros j k Hk.
  rewrite (Hks2 j k Hk), Hp2, (Hks1 j k Hk), Hp1. cbn [vals].
  unfold stored at 1. rewrite Hfresh by (by eapply list_elem_of_lookup_2).
  apply add_zero_l.
Qed.

(** *** Requests and responses on the wire *)

Lemma decode_AddData_kv (ks : list Key) (vs : list float) (ls : list Z)
    (m : Message.t) :
  ks <> [] -> Message.data m = [] ->
  ls = [] \/ length ls = length ks ->
  KVServer.decode (AddData_kv ks vs ls m) = Some (mkKV ks vs ls 0).
Proof.
  intros Hks Hm Hls. unfold AddData_kv, KVServer.decode.
  destruct (Nat.eqb_spec (length ks) 0) as [H0|_].
  { by apply length_zero_iff_nil in H0. }
  destruct (Nat.eqb_spec (length ls) 0) as [H0|H0].
  - apply length_zero_iff_nil in H0 as ->. cbn. by rewrite Hm.
  - destruct Hls as [->|Hls]; [done|]. cbn. rewrite Hm. cbn.
    by rewrite Hls, Nat.eqb_refl.
Qed.

Lemma Process_request {H : Type} `{KVServer.ReqHandle H}
    (senv : Env) (from : Z) (ks : list Key) (vs : list float) (ls : list Z)
    (base : Message.t) (s : KVServer.t H) :
  ks <> [] -> ls = [] \/ length ls = length ks ->
  Message.data base = [] ->
  Meta.simple_app (Message.meta base) = false ->
  KVServer.Process senv (mkReceived from (AddData_kv ks vs ls base)) s
  = (h ← KVServer.request_handle_ s;
     '(h', s') ← KVServer.req_call senv h
                   (KVMeta.mk (Meta.head (Message.meta base))
                      (Meta.push (Message.meta base))
                      (Meta.pull (Message.meta base)) from
                      (Meta.timestamp (Message.meta base))
                      (Meta.customer_id (Message.meta base)))
                   (mkKV ks vs ls 0) s;
     Some (KVServer.mk (Some h') (KVServer.outbox s'))).
Proof.
  intros Hks Hls Hdata Hsa. unfold KVServer.Process. cbn [rcv_msg rcv_sender].
  rewrite (decode_AddData_kv _ _ _ base Hks Hdata Hls).
  unfold AddData_kv.
  destruct (length ks =? 0)%nat; [|destruct (length ls =? 0)%nat];
    cbn [Message.meta Meta.set_lens Meta.simple_app Meta.head Meta.push
         Meta.pull Meta.timestamp Meta.customer_id];
    rewrite Hsa; reflexivity.
Qed.

(** X22. A request arrives as it was sent.  The message that [Send] builds for
    a shard with keys (a pull request, the message of the first push, or a
    block with its slice of values) is read by the server's [Process] as
    the shard's keys, the values it carries and the shard's lengths, and
    the handle is called with them and with the command, the flags, the
    sender, the timestamp and the customer of the request; a server whose
    handle was never set ends its process there. *)
Theorem request_reaches_handle {H : Type} `{KVServer.ReqHandle H}
    (senv wenv : Env) (from ts : Z) (push pull : bool) (cmd : Z) (i : nat)
    (kvs : KVPairs float) (key0 : Key) (w : Worker) (msg : Message.t)
    (vs : list float) (s : KVServer.t H) :
  Meta.simple_app (meta0 wenv) = false ->
  keys kvs <> [] ->
  lens kvs = [] \/ length (lens kvs) = length (keys kvs) ->
  (msg = pull_msg wenv ts push pull cmd i kvs key0 /\ vs = vals kvs)
  \/ (msg = first_push_msg wenv ts push pull cmd i kvs key0 w
      /\ vs = vals kvs)
  \/ (exists total val_bytes seq seq_num,
        msg = block_msg wenv ts push pull cmd i kvs key0 total val_bytes
                seq seq_num vs w) ->
  KVServer.Process senv (mkReceived from msg) s
  = (h ← KVServer.request_handle_ s;
     '(h', s') ← KVServer.req_call senv h
                   (KVMeta.mk cmd push pull from ts (env_customer_id wenv))
                   (mkKV (keys kvs) vs (lens kvs) 0) s;
     Some (KVServer.mk (Some h') (KVServer.outbox s'))).
Proof.
  intros Hsa Hks Hls Hmsg.
  destruct Hmsg as [[-> ->]|[[-> ->]|(t & vb & sq & sn & ->)]];
    unfold pull_msg, first_push_msg, block_msg;
    by rewrite (Process_request senv from) by done.
Qed.

Lemma Process_response (senv wenv : Env) (req : KVMeta.t)
    (res : KVPairs float) (w : Worker) :
  KVMeta.pull req = true ->
  Meta.simple_app (meta0 senv) = false ->
  keys res <> [] ->
  Process wenv (KVServer.Response_msg senv req res) w
  = let ts := KVMeta.timestamp req in
    let w1 := set_recv_kvs_
                (<[ts := default [] (recv_kvs_ w !! ts)
                         ++ [mkKV (keys res) (vals res) (lens res) 0]]>
                   (recv_kvs_ w)) w in
    if NumResponse ts w1 =? num_servers wenv - 1
    then RunCallback ts w1 else Some w1.
Proof.
  intros Hpull Hsa Hne. unfold KVServer.Response_msg, AddData_kv, Process.
  destruct (Nat.eqb_spec (length (keys res)) 0) as [H0|H0].
  { by apply length_zero_iff_nil in H0. }
  destruct (Nat.eqb_spec (length (lens res)) 0) as [Hl|Hl].
  - apply length_zero_iff_nil in Hl. cbn. by rewrite Hsa, Hpull, Hl.
  - cbn. by rewrite Hsa, Hpull.
Qed.

(** X23. A response arrives as it was sent, or not at all.  The message that
    [Response] hands to the van answers the request: it is no request, and
    it goes to the sender under the timestamp of the request.  When it
    answers a pull with keys, the worker's [Process] stores exactly the
    keys, values and lengths of the response for that timestamp, after
    the replies stored before, and then looks whether the request is
    complete.  When it answers a pull without keys, as the default
    argument of [Response] does, it carries no data, and the worker that
    receives it ends its process. *)
Theorem response_reaches_worker {H : Type} (senv wenv : Env)
    (req : KVMeta.t) (res : KVPairs float) (s : KVServer.t H) (w : Worker) :
  KVMeta.pull req = true ->
  Meta.simple_app (meta0 senv) = false ->
  let msg := KVServer.Response_msg senv req res in
  KVServer.outbox (KVServer.Response senv req res s)
  = KVServer.outbox s ++ [VanSend msg]
  /\ Meta.request (Message.meta msg) = false
  /\ Meta.recver (Message.meta msg) = KVMeta.sender req
  /\ Meta.timestamp (Message.meta msg) = KVMeta.timestamp req
  /\ (keys res = [] -> Process wenv msg w = None)
  /\ (keys res <> [] ->
      Process wenv msg w
      = let ts := KVMeta.timestamp req in
        let w1 := set_recv_kvs_
                    (<[ts := default [] (recv_kvs_ w !! ts)
                             ++ [mkKV (keys res) (vals res) (lens res) 0]]>
                       (recv_kvs_ w)) w in
        if NumResponse ts w1 =? num_servers wenv - 1
        then RunCallback ts w1 else Some w1).
Proof.
  intros Hpull Hsa msg. split; [reflexivity|].
  assert (Hmeta : Meta.request (Message.meta msg) = false
                  /\ Meta.recver (Message.meta msg) = KVMeta.sender req
                  /\ Meta.timestamp (Message.meta msg) = KVMeta.timestamp req).
  { subst msg. unfold KVServer.Response_msg, AddData_kv.
    destruct (length (keys res) =? 0)%nat;
      [|destruct (length (lens res) =? 0)%nat]; by repeat split. }
  destruct Hmeta as (? & ? & ?). repeat (split; [done|]). split.
  - intros Hnil. subst msg. unfold KVServer.Response_msg, AddData_kv, Process.
    rewrite Hnil. cbn. by rewrite Hsa, Hpull.
  - intros Hne. by apply Process_response.
Qed.

(** ** A pull, end to end *)

Lemma pull_callback_ok (ts : Z) (ks : list Key)
    (ordered arrived : list (KVPairs float)) (vals_buf : list float)
    (lens_buf : option (list Z)) (cb : option Z) (w : Worker) :
  ascending ks ->
  Key_max ∉ ks ->
  covers ks ordered ->
  Permutation arrived ordered ->
  recv_kvs_ w !! ts = Some arrived ->
  buffers_fit ks ordered vals_buf lens_buf ->
  exists w',
    pull_callback ts ks vals_buf lens_buf cb w = Some w'
    /\ pulled (world w') !! ts
       = Some (concat (map vals ordered),
               match lens_buf with
               | Some _ => Some (concat (map lens ordered))
               | None => None
               end)
    /\ callbacks_ w' = callbacks_ w
    /\ log (world w')
       = log (world w) ++ match cb with Some id => [EvUser id] | None => [] end.
Proof.
  intros Hasc Hmax [Hcov Hne] Hperm Hrecv [Hvb Hlb].
  assert (Hsort : sort_by front_lt arrived = ordered).
  { change front_lt with (fun a b => front_key a <? front_key b).
    apply sort_by_unique; [|done].
    apply ordered_fronts_sorted; [by rewrite Hcov|done]. }
  assert (Hgood : Forall (fun s => keys s <> []
                     /\ (exists pre post, ks = pre ++ keys s ++ post)
                     /\ (bool_decide (is_Some lens_buf) = true ->
                         length (lens s) = length (keys s))) arrived).
  { apply Forall_forall. intros s Hs. rewrite Hperm in Hs.
    rewrite Forall_forall in Hne. split; [by apply Hne|]. split.
    - rewrite <- Hcov. by apply covers_segment.
    - intros Hsome. apply bool_decide_eq_true in Hsome.
      destruct lens_buf as [lb|]; [|by destruct Hsome].
      destruct Hlb as [_ Hl]. rewrite Forall_forall in Hl. by apply Hl. }
  assert (Hnk : length (concat (map keys arrived)) = length ks)
    by (rewrite (length_concat_Permutation keys _ _ Hperm); by rewrite Hcov).
  assert (Hnv : length (concat (map vals arrived))
                = length (concat (map vals ordered)))
    by apply (length_concat_Permutation vals _ _ Hperm).
  unfold pull_callback. rewrite Hrecv. cbn [default from_option id].
  rewrite (pull_check_ok ks _ arrived Hasc Hmax Hgood).
  cbn [mbind option_bind].
  rewrite !Nat.add_0_l, Hnk, Nat.eqb_refl. cbn [CHECK mbind option_bind].
  rewrite Hsort, Hnv.
  set (total_val := length (concat (map vals ordered))) in *.
  assert (Hvals : exists vb,
             (if (length vals_buf =? 0)%nat
              then Some (replicate total_val F32.zero)
              else _ ← CHECK (length vals_buf =? total_val)%nat; Some vals_buf)
             = Some vb /\ length vb = total_val).
  { destruct Hvb as [->|Hv].
    - eexists. split; [done|]. by rewrite length_replicate.
    - destruct (Nat.eqb_spec (length vals_buf) 0) as [H0|_].
      + eexists. split; [done|]. by rewrite length_replicate.
      + rewrite Hv, Nat.eqb_refl. by eexists. }
  destruct Hvals as (vb & -> & Hvblen). cbn [mbind option_bind].
  destruct lens_buf as [lb|].
  - destruct Hlb as [Hlb Hl].
    assert (Hnl : length (concat (map lens ordered)) = length ks).
    { rewrite <- Hcov. clear -Hl. induction Hl as [|s l Hs Hl IH]; [done|].
      cbn. rewrite !length_app. lia. }
    assert (Hlens : exists lb',
               (if (length lb =? 0)%nat
                then Some (Some (replicate (length ks) 0))
                else _ ← CHECK (length lb =? length ks)%nat; Some (Some lb))
               = Some (Some lb') /\ length lb' = length ks).
    { destruct Hlb as [->|Hv].
      - eexists. split; [done|]. by rewrite length_replicate.
      - destruct (Nat.eqb_spec (length lb) 0) as [H0|_].
        + eexists. split; [done|]. by rewrite length_replicate.
        + rewrite Hv, Nat.eqb_refl. by eexists. }
    destruct Hlens as (lb' & -> & Hlblen). cbn [mbind option_bind].
    destruct cb as [id|]; (eexists; split; [reflexivity|]; split; [|split]).
    all: try (cbn; by rewrite ?app_nil_r).
    all: cbn; rewrite lookup_insert_eq;
      rewrite (surjective_pairing (pull_fill _ _ _ _ _));
      rewrite pull_fill_vals, pull_fill_lens by (cbn; lia);
      rewrite !fill_whole by lia; done.
  - cbn [mbind option_bind].
    destruct cb as [id|]; (eexists; split; [reflexivity|]; split; [|split]).
    all: try (cbn; by rewrite ?app_nil_r).
    all: cbn; rewrite lookup_insert_eq;
      rewrite (surjective_pairing (pull_fill _ _ _ _ _));
      rewrite pull_fill_vals, pull_fill_no_lens by (cbn; lia);
      rewrite !fill_whole by lia; done.
Qed.

Lemma sent_shards_length (sliced : list (bool * KVPairs float)) :
  forall i : nat,
    (count_skipped sliced + length (sent_shards i sliced))%nat = length sliced.
Proof.
  unfold count_skipped. induction sliced as [|[b s] sliced IH]; intros i; [done|].
  cbn [sent_shards fst snd]. destruct b.
  - rewrite filter_cons_False by done. cbn [length]. rewrite <- (IH (S i)). lia.
  - rewrite filter_cons_True by done. cbn [length]. by rewrite <- (IH (S i)).
Qed.

Lemma sent_shards_keys (sliced : list (bool * KVPairs float)) :
  Forall (fun s => fst s = false -> keys (snd s) = []) sliced ->
  forall i : nat,
    concat (map (fun js => keys (snd js)) (sent_shards i sliced))
    = concat (map shard_keys sliced).
Proof.
  induction 1 as [|[b s] sliced Hs _ IH]; intros i; [done|].
  cbn [sent_shards fst snd map concat]. destruct b.
  - cbn [map concat]. by rewrite IH.
  - rewrite IH. pose proof (Hs eq_refl) as Hnil. cbn [snd] in Hnil.
    unfold shard_keys at 2. cbn [snd]. by rewrite Hnil.
Qed.

Lemma sent_shards_Forall (P : KVPairs float -> Prop)
    (sliced : list (bool * KVPairs float)) :
  Forall (fun s => fst s = true -> P (snd s)) sliced ->
  forall i : nat, Forall (fun js => P (snd js)) (sent_shards i sliced).
Proof.
  induction 1 as [|[b s] sliced Hs _ IH]; intros i; [constructor|].
  cbn [sent_shards fst snd]. destruct b; [|apply IH].
  constructor; [by apply Hs|apply IH].
Qed.

Lemma concat_nil_Forall {A B : Type} (f : A -> list B) (l : list A) :
  concat (map f l) = [] -> Forall (fun x => f x = []) l.
Proof.
  induction l as [|x l IH]; [constructor|]. cbn. intros Hnil.
  apply app_eq_nil in Hnil as [Hx Hl]. constructor; [done|by apply IH].
Qed.

Lemma NoDup_concat_Forall {A B : Type} (f : A -> list B) (l : list A) :
  NoDup (concat (map f l)) -> Forall (fun x => NoDup (f x)) l.
Proof.
  induction l as [|x l IH]; [constructor|]. cbn. intros Hnd.
  apply NoDup_app in Hnd as (Hx & _ & Hl). constructor; [done|by apply IH].
Qed.

Lemma answer_pull (senv wenv : Env) (st : gmap Key float) (from ts cmd : Z)
    (j : nat) (s : KVPairs float) (key0 : Key) :
  Meta.simple_app (meta0 wenv) = false ->
  keys s <> [] -> vals s = [] -> lens s = [] -> NoDup (keys s) ->
  answer senv st from (pull_msg wenv ts false true cmd j s key0)
  = Some [VanSend
            (KVServer.Response_msg senv
               (KVMeta.mk cmd false true from ts (env_customer_id wenv))
               (mkKV (keys s) (map (stored st) (keys s)) [] 0))].
Proof.
  intros Hsa Hks Hvs Hls Hnd. unfold answer, pull_msg.
  rewrite (Process_request senv from) by (done || by left).
  cbn [KVServer.request_handle_ mbind option_bind Message.meta Meta.head
       Meta.push Meta.pull Meta.timestamp Meta.customer_id].
  unfold KVServer.req_call, KVServerDefaultHandle.handle.
  destruct (handle_call_spec senv (KVServerDefaultHandle.mk st)
              (KVMeta.mk cmd false true from ts (env_customer_id wenv))
              (mkKV (keys s) (vals s) (lens s) 0)
              (KVServer.mk (Some (KVServerDefaultHandle.mk st)) []))
    as (h' & Hrun & Hk & _); cbn [keys vals KVMeta.pull KVMeta.push];
    [done|done|done|].
  assert (Hmap : map (stored (KVServerDefaultHandle.store h')) (keys s)
                 = map (stored st) (keys s)).
  { apply map_ext_in. intros k Hin. apply list_elem_of_In in Hin.
    apply list_elem_of_lookup in Hin as [i Hi]. apply (Hk i k Hi). }
  rewrite Hrun. cbn [mbind option_bind KVServer.Response KVServer.outbox app].
  cbn [KVMeta.pull keys]. by rewrite Hmap.
Qed.

Lemma Response_msg_timestamp (senv : Env) (req : KVMeta.t)
    (res : KVPairs float) :
  Meta.timestamp (Message.meta (KVServer.Response_msg senv req res))
  = KVMeta.timestamp req.
Proof.
  unfold KVServer.Response_msg, AddData_kv.
  destruct (length (keys res) =? 0)%nat; [done|].
  by destruct (length (lens res) =? 0)%nat.
Qed.

Lemma run_app (env : Env) (a1 a2 : list Action) :
  forall w : Worker,
    run env (a1 ++ a2) w = (w' ← run env a1 w; run env a2 w').
Proof.
  induction a1 as [|a a1 IH]; intros w; [done|]. cbn [app run].
  destruct (act env a w) as [w1|]; [|done]. cbn [mbind option_bind].
  apply IH.
Qed.

Section Receive.

Variables (wenv : Env) (ts : Z).

Lemma Receiving_pending (senv : Env) (req : KVMeta.t) (res : KVPairs float)
    (c : Callback) (n : Z) (kvs : list (KVPairs float)) (L : list Event)
    (w : Worker) :
  KVMeta.pull req = true -> KVMeta.timestamp req = ts ->
  Meta.simple_app (meta0 senv) = false -> keys res <> [] ->
  pending ts c n kvs L w -> n <> num_servers wenv - 1 ->
  exists w',
    Receiving wenv (KVServer.Response_msg senv req res) w = Some w'
    /\ pending ts c (n + 1) (kvs ++ [reply_kv res]) L w'.
Proof.
  intros Hpull Hts Hsa Hne (Hrecv & Hnum & Hcb & Hlog) Hn.
  unfold Receiving. rewrite Process_response by done.
  rewrite Response_msg_timestamp, Hts. cbv zeta.
  change (NumResponse ts (set_recv_kvs_ _ w)) with (NumResponse ts w).
  rewrite Hnum. destruct (Z.eqb_spec n (num_servers wenv - 1)); [done|].
  cbn [mbind option_bind]. eexists. split; [reflexivity|].
  unfold pending, AddResponse, NumResponse.
  cbn [recv_kvs_ set_world set_recv_kvs_ world tracker set_tracker callbacks_
       log].
  rewrite !lookup_insert_eq. cbn [default from_option id].
  fold (NumResponse ts w). rewrite Hrecv, Hnum. by repeat split.
Qed.

Lemma Receiving_last (senv : Env) (req : KVMeta.t) (res : KVPairs float)
    (ks : list Key) (cb : option Z) (kvs ordered : list (KVPairs float))
    (L : list Event) (w : Worker) :
  KVMeta.pull req = true -> KVMeta.timestamp req = ts ->
  Meta.simple_app (meta0 senv) = false -> keys res <> [] ->
  pending ts (PullCb ts ks [] None cb) (num_servers wenv - 1) kvs L w ->
  ascending ks -> Key_max ∉ ks -> covers ks ordered ->
  Permutation (kvs ++ [reply_kv res]) ordered ->
  exists w',
    Receiving wenv (KVServer.Response_msg senv req res) w = Some w'
    /\ pulled (world w') !! ts = Some (concat (map vals ordered), None)
    /\ callbacks_ w' !! ts = None
    /\ log (world w')
       = L ++ EvCallback ts
              :: match cb with Some id => [EvUser id] | None => [] end.
Proof.
  intros Hpull Hts Hsa Hne (Hrecv & Hnum & Hcb & Hlog) Hasc Hmax Hcov Hperm.
  unfold Receiving. rewrite Process_response by done.
  rewrite Response_msg_timestamp, Hts. cbv zeta.
  change (NumResponse ts (set_recv_kvs_ _ w)) with (NumResponse ts w).
  rewrite Hnum, Z.eqb_refl. rewrite Hrecv.
  set (w1 := set_recv_kvs_ _ w).
  unfold RunCallback.
  change (callbacks_ w1 !! ts) with (callbacks_ w !! ts). rewrite Hcb.
  cbn [call].
  destruct (pull_callback_ok ts ks ordered (kvs ++ [reply_kv res]) [] None cb
              (log_event (EvCallback ts) w1) Hasc Hmax Hcov Hperm)
    as (w2 & Hrun & Hpulled & Hcbs & Hlog2).
  { subst w1. cbn. by rewrite lookup_insert_eq. }
  { split; [by left|done]. }
  rewrite Hrun. cbn [mbind option_bind]. eexists. split; [reflexivity|].
  cbn [AddResponse world set_world set_callbacks_ pulled set_tracker
       callbacks_ log].
  split; [exact Hpulled|]. split; [apply lookup_delete_eq|].
  rewrite Hlog2. subst w1. cbn. rewrite Hlog. by rewrite <- app_assoc.
Qed.

End Receive.

Section RoundTrip.

Variables (wenv : Env) (senv : nat -> Env) (stores : nat -> gmap Key float).
Variables (from ts cmd : Z).
Hypothesis Hsas : forall j, Meta.simple_app (meta0 (senv j)) = false.

Lemma run_pending (c : Callback) (L : list Event)
    (pre : list (nat * KVPairs float)) :
  Forall (fun js => keys (snd js) <> []) pre ->
  forall (n : Z) (kvs : list (KVPairs float)) (w : Worker),
    pending ts c n kvs L w ->
    n + Z.of_nat (length pre) <= num_servers wenv - 1 ->
    exists w',
      run wenv
        (map ActReceive (map (pull_response wenv senv stores from ts cmd) pre))
        w = Some w'
      /\ pending ts c (n + Z.of_nat (length pre))
           (kvs ++ map (fun js => mkKV (keys (snd js)) (held stores js) [] 0)
                     pre) L w'.
Proof.
  induction 1 as [|js pre Hjs _ IH]; intros n kvs w Hpend Hn.
  - exists w. cbn. rewrite Z.add_0_r, app_nil_r. by split.
  - cbn [length] in Hn. cbn [map run act].
    destruct (Receiving_pending wenv ts (senv (fst js))
                (KVMeta.mk cmd false true from ts (env_customer_id wenv))
                (mkKV (keys (snd js)) (held stores js) [] 0)
                c n kvs L w) as (w1 & Hrun & Hpend1); try done; [lia|].
    change (KVServer.Response_msg _ _ _)
      with (pull_response wenv senv stores from ts cmd js) in Hrun.
    rewrite Hrun. cbn [mbind option_bind].
    destruct (IH (n + 1) _ w1 Hpend1) as (w' & Hrun' & Hpend'); [lia|].
    exists w'. split; [exact Hrun'|].
    replace (n + Z.of_nat (length (js :: pre)))
      with (n + 1 + Z.of_nat (length pre)) by (cbn [length]; lia).
    by rewrite <- app_assoc in Hpend'.
Qed.

End RoundTrip.

(** A key in the span of the server ranges is not the largest key. *)
Lemma in_span_not_max (env : Env) (k : Key) :
  in_span (GetServerKeyRanges env) k -> k <> Key_max.
Proof.
  pose proof (ranges_in_Key env) as Hall. rewrite forallb_forall in Hall.
  unfold in_span. destruct (GetServerKeyRanges env) as [|r0 rs]; [done|].
  destruct (last (r0 :: rs)) as [rn|] eqn:Hlast; [|done].
  intros [_ Hlt]. apply last_Some in Hlast as [l' Hl'].
  specialize (Hall rn). rewrite Hl' in Hall.
  specialize (Hall ltac:(apply in_or_app; right; by left)).
  apply Z.leb_le in Hall. lia.
Qed.

(** X24. A pull returns what the servers hold.  A worker pulls ascending keys
    that lie in the key ranges of the servers, into an empty buffer.  Then
    [ZPull] hands the van one request per server that owns some of the
    keys; each of these servers, running the example handle on its store,
    answers with one response; and when the worker has received the
    responses, in whatever order, the callback of the request has run
    exactly once and has left in the buffer, in the order of the requested
    keys, the value that the owning server holds for each key ([0] for a
    key it has never seen). *)
Theorem pull_round_trip (wenv : Env) (senv : nat -> Env)
    (stores : nat -> gmap Key float) (from : Z) (ks : list Key) (cmd : Z)
    (cb : option Z) (prio : Z) (w : Worker) :
  ascending ks -> ks <> [] ->
  contiguous (GetServerKeyRanges wenv) ->
  (forall k, k ∈ ks -> in_span (GetServerKeyRanges wenv) k) ->
  num_servers wenv = Z.of_nat (length (GetServerKeyRanges wenv)) ->
  Meta.simple_app (meta0 wenv) = false ->
  (forall j, Meta.simple_app (meta0 (senv j)) = false) ->
  recv_kvs_ w !! next_ts (world w) = None ->
  let ts := next_ts (world w) in
  exists w1 sliced,
    let shards := sent_shards 0 sliced in
    let resps := map (pull_response wenv senv stores from ts cmd) shards in
    ZPull wenv ks [] None cmd cb prio w = Some (ts, w1)
    /\ DefaultSlicer (mkKV ks [] [] prio) (GetServerKeyRanges wenv)
       = Some sliced
    /\ concat (map (fun js => keys (snd js)) shards) = ks
    /\ outbox (world w1)
       = outbox (world w)
           ++ map (fun js => VanSend (pull_request wenv ts cmd js)) shards
    /\ Forall2 (fun js resp =>
                  answer (senv (fst js)) (stores (fst js)) from
                    (pull_request wenv ts cmd js) = Some [VanSend resp])
         shards resps
    /\ forall arrived,
         Permutation arrived resps ->
         exists w2,
           run wenv (map ActReceive arrived) w1 = Some w2
           /\ pulled (world w2) !! ts
              = Some (concat (map (held stores) shards), None)
           /\ callbacks_ w2 !! ts = None
           /\ log (world w2)
              = log (world w)
                  ++ EvCallback ts
                       :: match cb with Some id => [EvUser id] | None => [] end.
Proof.
  intros Hasc Hne Hcont Hspan Hnum Hsa Hsas Hfresh ts.
  assert (Hmax : Key_max ∉ ks).
  { intros Hin. by apply (in_span_not_max wenv Key_max (Hspan _ Hin)). }
  destruct (DefaultSlicer_concat (mkKV ks ([] : list float) [] prio)
              (GetServerKeyRanges wenv) Hasc Hcont Hspan)
    as (sliced & Hsl & Hlen & Hkeys & Hvals & Hlens).
  { unfold valid_batch. cbn. by exists 0%nat. }
  cbn [keys vals lens] in Hkeys, Hvals, Hlens.
  pose proof (DefaultSlicer_Forall2 (mkKV ks ([] : list float) [] prio) _
                sliced Hasc Hsl) as Hin.
  assert (Hshard : Forall (fun s => fst s = true ->
                      keys (snd s) <> [] /\ vals (snd s) = []
                      /\ lens (snd s) = [] /\ NoDup (keys (snd s))) sliced).
  { pose proof (sent_shards_nonempty _ _ Hin) as H1.
    pose proof (concat_nil_Forall shard_vals sliced Hvals) as H2.
    pose proof (concat_nil_Forall shard_lens sliced Hlens) as H3.
    pose proof (NoDup_concat_Forall shard_keys sliced) as H4.
    rewrite Hkeys in H4. specialize (H4 (ascending_NoDup ks Hasc)).
    rewrite Forall_forall in H1, H2, H3, H4. apply Forall_forall.
    intros s Hs Hb. repeat split;
      [by apply H1|by apply H2|by apply H3|by apply H4]. }
  assert (Hskip : Forall (fun s => fst s = false -> keys (snd s) = []) sliced).
  { clear -Hin. induction Hin as [|s r sl rs [Hs _] _ IH]; constructor; [|done].
    intros Hb. destruct (keys (snd s)) as [|k l] eqn:Hk; [done|].
    rewrite Hb in Hs. by destruct Hs as [_ Hs]; specialize (Hs ltac:(done)). }
  set (shards := sent_shards 0 sliced).
  assert (Hcat : concat (map (fun js => keys (snd js)) shards) = ks)
    by (subst shards; by rewrite (sent_shards_keys sliced Hskip 0)).
  assert (Hgood : Forall (fun js => keys (snd js) <> [] /\ vals (snd js) = []
                            /\ lens (snd js) = [] /\ NoDup (keys (snd js)))
                    shards)
    by apply (sent_shards_Forall
                (fun s => keys s <> [] /\ vals s = [] /\ lens s = []
                          /\ NoDup (keys s)) sliced Hshard 0).
  assert (Hsome : shards <> []).
  { intros E. rewrite E in Hcat. cbn in Hcat. by subst ks. }
  pose proof (sent_shards_length sliced 0) as Hcount. fold shards in Hcount.
  assert (Hnot : count_skipped sliced <> length sliced).
  { destruct shards; [done|]. cbn [length] in Hcount. lia. }
  (* the pull *)
  set (c := PullCb ts ks [] None cb).
  set (w0 := AddCallback ts (Some c)
               (set_world (set_next_ts (ts + 1)
                  (set_tracker (<[ts := 0]> (tracker (world w))) (world w)))
                  w)).
  assert (Hpull : ZPull wenv ks [] None cmd cb prio w
                  = Some (ts, van_send_all
                                (map (fun js => VanSend
                                        (pull_request wenv ts cmd js)) shards)
                                (AddResponse ts
                                   (Z.of_nat (count_skipped sliced)) w0))).
  { unfold ZPull, AddPullCB, NewRequest. fold ts. fold c. fold w0.
    rewrite (Send_not_all_skipped wenv ts false true cmd _ sliced w0 Hsl Hnot).
    rewrite Send_loop_pull; [done|].
    eapply Forall_impl; [exact Hshard|]. cbn. intros s Hs Hb. by apply Hs. }
  eexists _, sliced. cbv zeta. fold shards.
  split; [exact Hpull|]. split; [exact Hsl|]. split; [exact Hcat|].
  split; [reflexivity|]. split.
  { apply Forall2_fmap_r, Forall_Forall2_diag.
    eapply Forall_impl; [exact Hgood|]. cbn.
    intros js (Hk & Hv & Hl & Hnd). by apply answer_pull. }
  intros arrived Hperm.
  apply Permutation_map_inv in Hperm as (order & -> & Hperm).
  assert (Hgood' : Forall (fun js => keys (snd js) <> []) order).
  { rewrite <- Hperm. eapply Forall_impl; [exact Hgood|]. by intros js []. }
  destruct order as [|lastjs pre _] using rev_ind.
  { apply Permutation_nil_r in Hperm. done. }
  apply Forall_app in Hgood' as [Hpre Hlast].
  apply Forall_cons in Hlast as [Hlast _].
  rewrite !map_app, run_app.
  assert (Hlen' : Z.of_nat (count_skipped sliced) + Z.of_nat (length pre)
                  = num_servers wenv - 1).
  { apply Permutation_length in Hperm. rewrite length_app in Hperm.
    cbn [length] in Hperm. lia. }
  destruct (run_pending wenv senv stores from ts cmd Hsas c (log (world w))
              pre Hpre (Z.of_nat (count_skipped sliced)) []
              (van_send_all
                 (map (fun js => VanSend (pull_request wenv ts cmd js)) shards)
                 (AddResponse ts (Z.of_nat (count_skipped sliced)) w0)))
    as (w' & Hrun & Hpend); [|lia|].
  { unfold pending, AddResponse, van_send_all. unfold NumResponse. subst w0.
    cbn [recv_kvs_ set_world world AddCallback set_callbacks_ tracker
         set_tracker set_outbox set_next_ts callbacks_ log].
    rewrite !lookup_insert_eq. cbn [default from_option id].
    change (recv_kvs_ w !! ts) with (recv_kvs_ w !! next_ts (world w)).
    rewrite Hfresh. repeat split; (done || lia). }
  rewrite Hrun. cbn [mbind option_bind map run act].
  rewrite Hlen', app_nil_l in Hpend.
  destruct (Receiving_last wenv ts (senv (fst lastjs))
              (KVMeta.mk cmd false true from ts (env_customer_id wenv))
              (mkKV (keys (snd lastjs)) (held stores lastjs) [] 0)
              ks cb
              (map (fun js => mkKV (keys (snd js)) (held stores js) [] 0) pre)
              (map (fun js => mkKV (keys (snd js)) (held stores js) [] 0) shards)
              (log (world w)) w')
    as (w2 & Hrun2 & Hpulled & Hcbs & Hlog); try done.
  - split.
    + rewrite map_map. exact Hcat.
    + apply Forall_fmap. eapply Forall_impl; [exact Hgood|]. by intros js [].
  - change (reply_kv (mkKV (keys (snd lastjs)) (held stores lastjs) [] 0))
      with ((fun js => mkKV (keys (snd js)) (held stores js) [] 0) lastjs).
    change [?f lastjs] with (map f [lastjs]).
    rewrite <- map_app. apply Permutation_map. by symmetry.
  - change (KVServer.Response_msg _ _ _)
      with (pull_response wenv senv stores from ts cmd lastjs) in Hrun2.
    rewrite Hrun2. cbn [mbind option_bind].
    exists w2. split; [done|]. split; [|by split].
    rewrite Hpulled. by rewrite map_map.
Qed.

(** * Instances of the further properties *)

Local Ltac prove_ascending_keys :=
  unfold ascending; cbn;
  repeat (constructor; [|repeat constructor; lia]); once constructor.

Local Ltac prove_not_elem :=
  let Hin := fresh in
  cbn; intros Hin;
  repeat (apply elem_of_cons in Hin as [Hin|Hin]; [discriminate Hin|]);
  by apply elem_of_nil in Hin.

Local Ltac prove_NoDup :=
  cbn; repeat (apply NoDup_cons_2; [prove_not_elem|]); apply NoDup_nil_2.

(** Scenario S1 again: each shard holds the keys of its range. *)
Lemma DefaultSlicer_shards_in_range_S1 :
  Forall2 shard_in_range
    [(true, mkKV [1; 3] [10; 11; 12; 13] [] 0);
     (true, mkKV [5; 7] [14; 15; 16; 17] [] 0)] S1_ranges.
Proof.
  apply (DefaultSlicer_shards_in_range S1_batch S1_ranges);
    [prove_ascending|reflexivity].
Defined.

(** A push of one value under no key. *)
Lemma Send_empty_batch_instance :
  Send demo_env 0 true false 0 (mkKV [] [Fin 1] [] 0) ready_worker
  = RunCallback 0
      (AddResponse 0 (Z.of_nat (length (GetServerKeyRanges demo_env)))
         ready_worker)
  /\ forall w',
       Send demo_env 0 true false 0 (mkKV [] [Fin 1] [] 0) ready_worker
       = Some w' ->
       outbox (world w') = outbox (world ready_worker).
Proof.
  apply (Send_empty_batch demo_env 0 true false 0 [Fin 1] [] 0 ready_worker).
  cbn. by split.
Defined.

(** Ranges with a gap between [4] and [5]. *)
Lemma DefaultSlicer_failing_checks_instance :
  DefaultSlicer S1_batch [mkRange 0 4; mkRange 5 8] = None.
Proof.
  apply (DefaultSlicer_failing_checks S1_batch [mkRange 0 4; mkRange 5 8]).
  left. cbn. intros [H _]. discriminate H.
Defined.

(** A NaN rate with four channels. *)
Lemma Get_channel_in_range_instance :
  exists c, Get_channel demo_env 3 3 4 NaN = Some c /\ 0 <= c <= 4.
Proof.
  apply (Get_channel_in_range demo_env 3 3 4 NaN); [lia|cbn; lia].
Defined.


(** A push of five values in blocks of two at the rate [1.0]. *)
Lemma block_push_full_rate_reliable_instance :
  exists w' new,
    block_push demo_env 0 true false 0 0 (ones_shard 5) 1 (block_worker 2 0)
    = Some w'
    /\ outbox (world w') = outbox (world (block_worker 2 0)) ++ new
    /\ Forall (fun x => wire_channel x = 0
                        /\ Meta.channel (Message.meta (wire_msg x)) = 0) new.
Proof.
  destruct (block_push demo_env 0 true false 0 0 (ones_shard 5) 1
              (block_worker 2 0)) as [w'|] eqn:Hrun;
    [|vm_compute in Hrun; discriminate].
  destruct (block_push_full_rate_reliable demo_env 0 true false 0 0
              (ones_shard 5) 1 1 (block_worker 2 0) w')
    as (new & Hout & Hall);
    [reflexivity|split; discriminate|by vm_compute|exact Hrun|].
  exists w', new. split; [reflexivity|]. split; [exact Hout|exact Hall].
Defined.

(** Three more steps of a worker whose first loss was [2.0]: a reading, a
    missing line and a NaN. *)
Lemma first_loss_latched_instance :
  exists w',
    rate_steps demo_env [Some (Fin 1); None; Some NaN] loss_worker = Some w'
    /\ first_loss (rate w') = first_loss (rate loss_worker)
    /\ dmlc_k_init (rate w') = dmlc_k_init (rate loss_worker)
    /\ dmlc_k_min (rate w') = dmlc_k_min (rate loss_worker)
    /\ adaptive_k_flag (rate w') = adaptive_k_flag (rate loss_worker)
    /\ push_op_num w' = push_op_num loss_worker + 3.
Proof.
  destruct (rate_steps demo_env [Some (Fin 1); None; Some NaN] loss_worker)
    as [w'|] eqn:Hrun; [|vm_compute in Hrun; discriminate].
  exists w'. split; [reflexivity|].
  apply (first_loss_latched demo_env [Some (Fin 1); None; Some NaN]
           loss_worker w'); [cbn; lia|reflexivity|exact Hrun].
Defined.

(** The same steps never leave a NaN rate. *)
Lemma rate_never_NaN_instance :
  exists w',
    rate_steps demo_env [Some (Fin 1); None; Some NaN] ready_worker = Some w'
    /\ dmlc_k (rate w') <> NaN.
Proof.
  destruct (rate_steps demo_env [Some (Fin 1); None; Some NaN] ready_worker)
    as [w'|] eqn:Hrun; [|vm_compute in Hrun; discriminate].
  exists w'. split; [reflexivity|].
  apply (rate_never_NaN demo_env [Some (Fin 1); None; Some NaN]
           ready_worker w'); [cbn; lia|discriminate..|exact Hrun].
Defined.

(** The first step of a fresh worker where the loss file cannot be
    opened. *)
Lemma first_step_and_loss_file_instance :
  (is_Some (Send_step_boundary nofile_env (KVWorker default_config 0))
   <-> dgt_environment nofile_env)
  /\ (fopen_ok nofile_env = false ->
      forall w1,
        Send_step_boundary nofile_env (KVWorker default_config 0) = Some w1 ->
        Send_step_boundary nofile_env w1 = None).
Proof.
  apply (first_step_and_loss_file nofile_env (KVWorker default_config 0)).
  reflexivity.
Defined.

(** A pull of the keys [1] and [5]: one request to each server. *)
Lemma Send_pull_requests_instance :
  Send demo_env 0 false true 0 (mkKV [1; 5] [] [] 0) ready_worker
  = Some (van_send_all
            (map (fun js => VanSend (pull_msg demo_env 0 false true 0 (fst js)
                                       (snd js) (hd 0 (keys (snd js)))))
               (sent_shards 0 demo_shards))
            (AddResponse 0 (Z.of_nat (count_skipped demo_shards))
               ready_worker)).
Proof.
  apply (Send_pull_requests demo_env 0 true 0 (mkKV [1; 5] [] [] 0)
           demo_shards ready_worker);
    [prove_ascending_keys|reflexivity|vm_compute; lia].
Defined.

(** The push of the first iteration under the keys [1] and [5]. *)
Lemma Send_first_iteration_whole_instance :
  Send demo_env 0 true false 0 (mkKV [1; 5] [Fin 1; Fin 2] [] 0) ready_worker
  = Some (van_send_all
            (map (fun js => VanSend (first_push_msg demo_env 0 true false 0
                                       (fst js) (snd js)
                                       (hd 0 (keys (snd js))) ready_worker))
               (sent_shards 0
                  [(true, mkKV [1] [Fin 1] [] 0);
                   (true, mkKV [5] [Fin 2] [] 0)]))
            (AddResponse 0
               (Z.of_nat
                  (count_skipped
                     [(true, mkKV [1] [Fin 1] [] 0);
                      (true, mkKV [5] [Fin 2] [] 0)]))
               ready_worker)).
Proof.
  apply (Send_first_iteration_whole demo_env 0 false 0
           (mkKV [1; 5] [Fin 1; Fin 2] [] 0)
           [(true, mkKV [1] [Fin 1] [] 0); (true, mkKV [5] [Fin 2] [] 0)]
           ready_worker);
    [reflexivity|prove_ascending_keys|prove_not_elem|reflexivity|vm_compute; lia].
Defined.

(** Five values in blocks of two: every block holds a slice of the
    shard. *)
Lemma block_push_payload_instance :
  exists w' new,
    block_push demo_env 0 true false 0 1 (ones_shard 5) 1 (block_worker 2 0)
    = Some w'
    /\ outbox (world w') = outbox (world (block_worker 2 0)) ++ new
    /\ Forall (fun x => block_of_shard demo_env 0 1 (ones_shard 5) 1
                          (wire_msg x)) new.
Proof.
  destruct (block_push demo_env 0 true false 0 1 (ones_shard 5) 1
              (block_worker 2 0)) as [w'|] eqn:Hrun;
    [|vm_compute in Hrun; discriminate].
  destruct (block_push_payload demo_env 0 true false 0 1 (ones_shard 5) 1
              (block_worker 2 0) w')
    as (new & Hout & Hall); [discriminate|reflexivity|exact Hrun|].
  exists w', new. split; [reflexivity|]. split; [exact Hout|exact Hall].
Defined.

(** The payload [3, 1, 2] in blocks of one value: the terminal block [2]
    goes last, the block of [3] before the block of [1]. *)
Lemma block_push_order_instance :
  exists w' ranked x,
    block_push demo_env 0 true false 0 0
      (mkKV [1] [Fin 3; Fin 1; Fin 2] [] 0) 1 (block_worker 1 0) = Some w'
    /\ outbox (world w')
       = outbox (world (block_worker 1 0)) ++ ranked ++ [x]
    /\ Meta.seq (Message.meta (wire_msg x))
       = Meta.seq_end (Message.meta (wire_msg x))
    /\ descending (map (fun y => Message.contri (wire_msg y)) ranked).
Proof.
  destruct (block_push demo_env 0 true false 0 0
              (mkKV [1] [Fin 3; Fin 1; Fin 2] [] 0) 1 (block_worker 1 0))
    as [w'|] eqn:Hrun; [|vm_compute in Hrun; discriminate].
  destruct (block_push_order demo_env 0 true false 0 0
              (mkKV [1] [Fin 3; Fin 1; Fin 2] [] 0) 1 (block_worker 1 0) w')
    as (ranked & x & Hout & Hseq & Hord);
    [discriminate|reflexivity|exact Hrun|].
  exists w', ranked, x. split; [reflexivity|]. split; [exact Hout|].
  split; [exact Hseq|]. apply Hord; [reflexivity|].
  clear Hord Hseq. vm_compute in Hrun. injection Hrun as <-.
  change (outbox (world (block_worker 1 0))) with ([] : list Wire) in Hout.
  rewrite app_nil_l in Hout.
  set (o := outbox (world _)) in Hout. vm_compute in o. subst o.
  destruct ranked as [|y1 [|y2 [|y3 ranked]]]; cbn [app] in Hout.
  - discriminate Hout.
  - discriminate Hout.
  - injection Hout as <- <- _. by repeat constructor.
  - injection Hout as _ _ _ Hnil. by destruct ranked.
Defined.

(** A push in blocks followed by a pull. *)
Lemma msg_vector_stays_empty_instance :
  exists w',
    run demo_env
      [ActSend 0 true false 0 (ones_shard 5);
       ActSend 1 false true 0 (mkKV [1; 5] [] [] 0)] (block_worker 2 0)
    = Some w'
    /\ msg_vector w' = [].
Proof.
  destruct (run demo_env
              [ActSend 0 true false 0 (ones_shard 5);
               ActSend 1 false true 0 (mkKV [1; 5] [] [] 0)]
              (block_worker 2 0)) as [w'|] eqn:Hrun;
    [|vm_compute in Hrun; discriminate].
  exists w'. split; [reflexivity|].
  apply (msg_vector_stays_empty demo_env
           [ActSend 0 true false 0 (ones_shard 5);
            ActSend 1 false true 0 (mkKV [1; 5] [] [] 0)]
           (block_worker 2 0) w'); [reflexivity|exact Hrun].
Defined.

(** The block [first_block] of one weight [1.0], scored by a worker that
    has no score yet. *)
Lemma Evaluate_msg_contri_not_negative_instance :
  not_negative (fst (Evaluate_msg_contri 0 first_block (block_worker 2 0)))
  /\ scores_not_negative
       (snd (Evaluate_msg_contri 0 first_block (block_worker 2 0))).
Proof.
  apply (Evaluate_msg_contri_not_negative 0 first_block (block_worker 2 0)
           (5033165 # 16777216)); [reflexivity|split; discriminate|].
  intros key seq. unfold contri_at. cbn. by rewrite lookup_empty.
Defined.

(** A block whose only weight is NaN. *)
Lemma Evaluate_msg_contri_NaN_sticks_instance :
  fst (Evaluate_msg_contri 0 nan_block ready_worker) = NaN
  /\ contri_at 0 (Meta.seq (Message.meta nan_block))
       (contri (scores (snd (Evaluate_msg_contri 0 nan_block ready_worker))))
     = NaN.
Proof.
  apply (Evaluate_msg_contri_NaN_sticks 0 nan_block ready_worker).
  right; left. exists [NaN]. split; [reflexivity|by left].
Defined.

(** The replies of S6 hold four keys, the request names five. *)
Lemma pull_callback_fatal_instance :
  pull_callback 0 [1; 3; 5; 7; 9] [] None None S6_worker = None.
Proof.
  apply (pull_callback_fatal 0 [1; 3; 5; 7; 9] [] None None S6_worker).
  left. vm_compute. lia.
Defined.

(** A push-pull without keys, and one with a value but no key. *)
Lemma PushPull_no_keys_instance :
  (exists w',
     PushPull demo_env [] [] (Some []) None 0 (Some 1) 0 ready_worker
     = Some (0, w')
     /\ pulled (world w') !! 0 = Some ([], None)
     /\ callbacks_ w' !! 0 = None
     /\ outbox (world w') = outbox (world ready_worker)
     /\ log (world w') = log (world ready_worker) ++ [EvCallback 0; EvUser 1])
  /\ PushPull demo_env [] [Fin 1] (Some []) None 0 (Some 1) 0 ready_worker
     = None.
Proof.
  split.
  - apply (PushPull_no_keys demo_env [] 0 (Some 1) 0 ready_worker);
      [cbn; by split|reflexivity|reflexivity].
  - apply (PushPull_no_keys demo_env [Fin 1] 0 (Some 1) 0 ready_worker);
      [cbn; by split|reflexivity|discriminate].
Defined.

(** A push-pull of [1.0] and [2.0] under the keys [1] and [2] on a store
    that holds [10.0] for key [1]. *)
Lemma DefaultHandle_serves_instance :
  exists h',
    KVServerDefaultHandle.call demo_env
      (KVServerDefaultHandle.mk (demo_stores 0)) demo_push_pull
      (mkKV [1; 2] [Fin 1; Fin 2] [] 0) demo_server
    = Some (h', KVServer.Response demo_env demo_push_pull
                  (mkKV [1; 2]
                     (map (stored (KVServerDefaultHandle.store h')) [1; 2])
                     [] 0) demo_server)
    /\ (forall j k, [1; 2] !! j = Some k ->
          stored (KVServerDefaultHandle.store h') k
          = F32.add (stored (demo_stores 0) k)
              (default F32.zero ([Fin 1; Fin 2] !! j)))
    /\ (forall k, k ∉ [1; 2] ->
          stored (KVServerDefaultHandle.store h') k
          = stored (demo_stores 0) k).
Proof.
  apply (DefaultHandle_serves demo_env
           (KVServerDefaultHandle.mk (demo_stores 0)) demo_push_pull
           (mkKV [1; 2] [Fin 1; Fin 2] [] 0) demo_server);
    [prove_NoDup|discriminate|cbn; lia].
Defined.

(** A fresh store answers a pull with what was pushed. *)
Lemma DefaultHandle_push_then_pull_instance :
  exists h1 h2,
    let s1 := KVServer.Response demo_env demo_push empty_kv demo_server in
    KVServerDefaultHandle.call demo_env (KVServerDefaultHandle.mk ∅)
      demo_push (mkKV [1; 2] [Fin 1; Fin 2] [] 0) demo_server
    = Some (h1, s1)
    /\ KVServerDefaultHandle.call demo_env h1 demo_pull
         (mkKV [1; 2] [] [] 0) s1
       = Some (h2, KVServer.Response demo_env demo_pull
                     (mkKV [1; 2] [Fin 1; Fin 2] [] 0) s1).
Proof.
  apply (DefaultHandle_push_then_pull demo_env (KVServerDefaultHandle.mk ∅)
           demo_push demo_pull [1; 2] [Fin 1; Fin 2] demo_server);
    [prove_NoDup|reflexivity|intros k _; apply lookup_empty|reflexivity..].
Defined.

(** The pull request for key [1] at the first server of [demo_env]. *)
Lemma request_reaches_handle_instance :
  KVServer.Process demo_env
    (mkReceived 9 (pull_msg demo_env 0 false true 0 0 (mkKV [1] [] [] 0) 1))
    demo_server
  = (h ← KVServer.request_handle_ demo_server;
     '(h', s') ← KVServer.req_call demo_env h
                   (KVMeta.mk 0 false true 9 0 (env_customer_id demo_env))
                   (mkKV [1] [] [] 0) demo_server;
     Some (KVServer.mk (Some h') (KVServer.outbox s'))).
Proof.
  apply (request_reaches_handle demo_env demo_env 9 0 false true 0 0
           (mkKV [1] [] [] 0) 1 ready_worker
           (pull_msg demo_env 0 false true 0 0 (mkKV [1] [] [] 0) 1) []
           demo_server);
    [reflexivity|discriminate|by left|by left].
Defined.

(** The reply to a pull of key [1]; the worker waits for one more. *)
Lemma response_reaches_worker_instance :
  let msg := KVServer.Response_msg demo_env demo_pull
               (mkKV [1] [Fin 10] [] 0) in
  KVServer.outbox
    (KVServer.Response demo_env demo_pull (mkKV [1] [Fin 10] [] 0)
       demo_server)
  = KVServer.outbox demo_server ++ [VanSend msg]
  /\ Meta.request (Message.meta msg) = false
  /\ Meta.recver (Message.meta msg) = 9
  /\ Meta.timestamp (Message.meta msg) = 0
  /\ Process demo_env msg ready_worker
     = Some (set_recv_kvs_ {[ 0 := [mkKV [1] [Fin 10] [] 0] ]} ready_worker).
Proof.
  destruct (response_reaches_worker demo_env demo_env demo_pull
              (mkKV [1] [Fin 10] [] 0) demo_server ready_worker)
    as (Hout & Hreq & Hto & Hts & _ & Hrecv); [reflexivity..|].
  split; [exact Hout|]. split; [exact Hreq|]. split; [exact Hto|].
  split; [exact Hts|]. rewrite Hrecv by discriminate. reflexivity.
Defined.

(** A pull of the keys [1] and [5] in [demo_env]; the reply of the second
    server arrives first. *)
Lemma pull_round_trip_instance :
  exists w1 w2,
    ZPull demo_env [1; 5] [] None 0 (Some 1) 0 ready_worker = Some (0, w1)
    /\ outbox (world w1)
       = map (fun js => VanSend (pull_request demo_env 0 0 js))
           (sent_shards 0 demo_shards)
    /\ run demo_env
         (map ActReceive
            (map (pull_response demo_env (fun _ => demo_env) demo_stores 9 0 0)
               [(1%nat, mkKV [5] [] [] 0); (0%nat, mkKV [1] [] [] 0)]))
         w1
       = Some w2
    /\ pulled (world w2) !! 0 = Some ([Fin 10; Fin 50], None)
    /\ callbacks_ w2 !! 0 = None
    /\ log (world w2) = [EvCallback 0; EvUser 1].
Proof.
  destruct (pull_round_trip demo_env (fun _ => demo_env) demo_stores 9
              [1; 5] 0 (Some 1) 0 ready_worker)
    as (w1 & sliced & HZ & Hsl & _ & Hout & _ & Hback).
  - prove_ascending_keys.
  - discriminate.
  - cbn. by split.
  - intros k Hk.
    repeat (apply elem_of_cons in Hk as [->|Hk]); [..|by apply elem_of_nil in Hk];
      cbn; lia.
  - reflexivity.
  - reflexivity.
  - reflexivity.
  - reflexivity.
  - assert (sliced = demo_shards) as -> by (vm_compute in Hsl; injection Hsl as <-; reflexivity).
    destruct (Hback
                (map (pull_response demo_env (fun _ => demo_env) demo_stores
                        9 0 0)
                   [(1%nat, mkKV [5] [] [] 0); (0%nat, mkKV [1] [] [] 0)]))
      as (w2 & Hrun & Hres & Hcb & Hlog); [apply perm_swap|].
    exists w1, w2. split; [exact HZ|]. split; [exact Hout|].
    split; [exact Hrun|]. split; [exact Hres|]. split; [exact Hcb|exact Hlog].
Defined.
